(** * heat3D: the explicit 3D heat-equation solver of [heat3D.cpp]

    A shallow embedding of [main] of [src/HeatEquation3D/src/heat3D.cpp]:
    the partition check and allocation, the boundary conditions, and one
    iteration of the time loop (copy, halo packing, face updates, edge
    extrapolation, corner averaging, residual, normalisation and the two
    global reductions), followed by the properties of that code.

    Conventions.
    - [floatT] is [double]: Rocq's primitive binary64 floats.
    - [unsigned] values are integers of [Z] in [0, 2^32); subtraction and
      multiplication are written with their wrap-around ([usub], [umul]).
    - [std::vector] is a list.  A subscript outside the vector is undefined
      behaviour in C++; the model stops there with [None], so a result
      [Some _] says that every access of the run was inside its vector. *)

From Stdlib Require Import ZArith Lia Floats.
#[local] Set Warnings "-inexact-float".
From stdpp Require Import list.

Local Open Scope Z_scope.

(** ** Enumerations *)

Module COORDINATE.
Inductive t := X | Y | Z.
End COORDINATE.

Module DIRECTION.
Inductive t := LEFT | RIGHT | BOTTOM | TOP | BACK | FRONT.
End DIRECTION.

#[global] Instance DIRECTION_eq_dec : EqDecision DIRECTION.t.
Proof. solve_decision. Defined.

(** ** Machine numbers *)

Abbreviation floatT := float.

(** [unsigned] arithmetic, 32 bits. *)
Definition u32 (z : Z) : Z := z mod 2 ^ 32.
Definition usub (a b : Z) : Z := u32 (a - b).
Definition uadd (a b : Z) : Z := u32 (a + b).
Definition umul (a b : Z) : Z := u32 (a * b).

(** Conversion of an [unsigned] value to [double] (exact below 2^53). *)
Definition uint_to_double (z : Z) : floatT :=
  PrimFloat.of_uint63 (Uint63.of_Z (u32 z)).

(** [std::numeric_limits<double>::min()], the least positive normal double. *)
Definition numeric_limits_min : floatT := 0x1p-1022%float.

(** [std::fabs]. *)
Definition fabs (x : floatT) : floatT := PrimFloat.abs x.

(** Arithmetic on values whose reading may have failed. *)
Definition lift2 (f : floatT → floatT → floatT) (a b : option floatT) : option floatT :=
  x ← a; y ← b; Some (f x y).

Definition const (x : floatT) : option floatT := Some x.
Arguments const x%_float.

Declare Scope ofloat_scope.
Delimit Scope ofloat_scope with F.
Notation "a + b" := (lift2 PrimFloat.add a b) : ofloat_scope.
Notation "a - b" := (lift2 PrimFloat.sub a b) : ofloat_scope.
Notation "a * b" := (lift2 PrimFloat.mul a b) : ofloat_scope.

(** ** Vectors and the field *)

(** [v[i]] for an [unsigned] subscript. *)
Definition at_ {A} (v : list A) (i : Z) : option A :=
  if decide (0 ≤ i < Z.of_nat (length v)) then v !! Z.to_nat i else None.

(** [v[i] = x]. *)
Definition put {A} (v : list A) (i : Z) (x : option A) : option (list A) :=
  x ← x; _ ← at_ v i; Some (<[Z.to_nat i := x]> v).

(** [std::vector<std::vector<std::vector<floatT>>>]. *)
Abbreviation Field := (list (list (list floatT))).

(** [T[i][j][k]]. *)
Definition get (T : Field) (i j k : Z) : option floatT :=
  plane ← at_ T i; row ← at_ plane j; at_ row k.

(** [T[i][j][k] = v]. *)
Definition set (T : Field) (i j k : Z) (v : option floatT) : option Field :=
  x ← v; _ ← get T i j k;
  Some (alter (alter (<[Z.to_nat k := x]>) (Z.to_nat j)) (Z.to_nat i) T).

(** [T.resize(nx)], [T[i].resize(ny)], [T[i][j].resize(nz)] on an empty
    vector: every element is value-initialised. *)
Definition resize3 (nx ny nz : Z) : Field :=
  replicate (Z.to_nat nx) (replicate (Z.to_nat ny) (replicate (Z.to_nat nz) 0%float)).

(** ** Loops *)

(** [for (unsigned i = lo; i < hi; ++i) body], threading the variables the
    body assigns. *)
Fixpoint for_loop {St : Type} (n : nat) (i : Z) (body : Z → St → option St) (s : St) : option St :=
  match n with
  | O => Some s
  | S n' => s' ← body i s; for_loop n' (i + 1) body s'
  end.

Definition for_range {St : Type} (lo hi : Z) (body : Z → St → option St) (s : St) : option St :=
  for_loop (Z.to_nat (hi - lo)) lo body s.

(** ** What a process knows once the setup is done *)

(** [None] stands for [MPI_PROC_NULL]. *)
Definition MPI_PROC_NULL : option nat := None.

Record process := {
  rank : nat;
  neighbors : DIRECTION.t → option nat;
  coordinates3D : COORDINATE.t → Z;
  chunck : COORDINATE.t → Z;
  spacing : COORDINATE.t → floatT;
  Dx : floatT;
  Dy : floatT;
  Dz : floatT
}.

(** ** Setup: initial and boundary conditions (lines 351-401) *)

Section Process.

Variable e : process.

Local Abbreviation chunckX := (chunck e COORDINATE.X).
Local Abbreviation chunckY := (chunck e COORDINATE.Y).
Local Abbreviation chunckZ := (chunck e COORDINATE.Z).
Local Notation "'neighbor' d" := (neighbors e d ≠ MPI_PROC_NULL) (at level 10).
Local Notation "'no_neighbor' d" := (neighbors e d = MPI_PROC_NULL) (at level 10).

(** [(coordinates3D[Y] * (chunck[Y] - 1) + j) * spacing[Y]]: the integer part
    is computed in [unsigned]. *)
Definition ramp (j : Z) : floatT :=
  (uint_to_double (uadd (umul (u32 (coordinates3D e COORDINATE.Y)) (usub chunckY 1)) j)
   * spacing e COORDINATE.Y)%float.

Definition init_zero (T : Field) : option Field :=
  for_range 0 chunckX (λ i,
    for_range 0 chunckY (λ j,
      for_range 0 chunckZ (λ k T,
        set T i j k (const 0)))) T.

Definition bc_TOP (T : Field) : option Field :=
  if decide (no_neighbor DIRECTION.TOP) then
    for_range 0 chunckX (λ i,
      for_range 0 chunckZ (λ k T,
        set T i (usub chunckY 1) k (const 1))) T
  else Some T.

Definition bc_LEFT (T : Field) : option Field :=
  if decide (no_neighbor DIRECTION.LEFT) then
    for_range 0 chunckY (λ j,
      for_range 0 chunckZ (λ k T,
        set T 0 j k (const (ramp j)))) T
  else Some T.

Definition bc_RIGHT (T : Field) : option Field :=
  if decide (no_neighbor DIRECTION.RIGHT) then
    for_range 0 chunckY (λ j,
      for_range 0 chunckZ (λ k T,
        set T (usub chunckX 1) j k (const (ramp j)))) T
  else Some T.

Definition bc_BACK (T : Field) : option Field :=
  if decide (no_neighbor DIRECTION.BACK) then
    for_range 0 chunckX (λ i,
      for_range 0 chunckY (λ j T,
        set T i j 0 (const (ramp j)))) T
  else Some T.

Definition bc_FRONT (T : Field) : option Field :=
  if decide (no_neighbor DIRECTION.FRONT) then
    for_range 0 chunckX (λ i,
      for_range 0 chunckY (λ j T,
        set T i j (usub chunckZ 1) (const (ramp j)))) T
  else Some T.

(** Lines 340-401: allocation, zero everywhere, then the five boundary
    faces in the order of the source (a later face overwrites the cells it
    shares with an earlier one). *)
Definition initial_conditions : option Field :=
  T ← init_zero (resize3 chunckX chunckY chunckZ);
  T ← bc_TOP T;
  T ← bc_LEFT T;
  T ← bc_RIGHT T;
  T ← bc_BACK T;
  bc_FRONT T.

(** Lines 410-478: the size of the send and receive buffer of a direction. *)
Definition buffer_size (d : DIRECTION.t) : Z :=
  if decide (neighbor d) then
    match d with
    | DIRECTION.LEFT | DIRECTION.RIGHT => umul (usub chunckY 1) (usub chunckZ 1)
    | DIRECTION.BOTTOM | DIRECTION.TOP => umul (usub chunckX 1) (usub chunckZ 1)
    | DIRECTION.BACK | DIRECTION.FRONT => umul (usub chunckX 1) (usub chunckY 1)
    end
  else 1.

Definition allocate_buffer (d : DIRECTION.t) : list floatT :=
  replicate (Z.to_nat (buffer_size d)) 0%float.

(** ** The time loop: copy and halo packing (lines 502-566) *)

Definition copy_solution (T T0 : Field) : option Field :=
  for_range 0 chunckX (λ i,
    for_range 0 chunckY (λ j,
      for_range 0 chunckZ (λ k T0,
        set T0 i j k (get T i j k)))) T0.

Definition pack_LEFT (T0 : Field) (buffer : list floatT) : option (list floatT) :=
  if decide (neighbor DIRECTION.LEFT) then
    '(buffer, _) ← for_range 1 (usub chunckY 1) (λ j,
      for_range 1 (usub chunckZ 1) (λ k '(buffer, counter),
        buffer ← put buffer counter (get T0 1 j k);
        Some (buffer, uadd counter 1))) (buffer, 0);
    Some buffer
  else Some buffer.

Definition pack_RIGHT (T0 : Field) (buffer : list floatT) : option (list floatT) :=
  if decide (neighbor DIRECTION.RIGHT) then
    '(buffer, _) ← for_range 1 (usub chunckY 1) (λ j,
      for_range 1 (usub chunckZ 1) (λ k '(buffer, counter),
        buffer ← put buffer counter (get T0 (usub chunckX 2) j k);
        Some (buffer, uadd counter 1))) (buffer, 0);
    Some buffer
  else Some buffer.

Definition pack_BOTTOM (T0 : Field) (buffer : list floatT) : option (list floatT) :=
  if decide (neighbor DIRECTION.BOTTOM) then
    '(buffer, _) ← for_range 1 (usub chunckX 1) (λ i,
      for_range 1 (usub chunckZ 1) (λ k '(buffer, counter),
        buffer ← put buffer counter (get T0 i 1 k);
        Some (buffer, uadd counter 1))) (buffer, 0);
    Some buffer
  else Some buffer.

Definition pack_TOP (T0 : Field) (buffer : list floatT) : option (list floatT) :=
  if decide (neighbor DIRECTION.TOP) then
    '(buffer, _) ← for_range 1 (usub chunckX 1) (λ i,
      for_range 1 (usub chunckZ 1) (λ k '(buffer, counter),
        buffer ← put buffer counter (get T0 i (usub chunckY 2) k);
        Some (buffer, uadd counter 1))) (buffer, 0);
    Some buffer
  else Some buffer.

Definition pack_BACK (T0 : Field) (buffer : list floatT) : option (list floatT) :=
  if decide (neighbor DIRECTION.BACK) then
    '(buffer, _) ← for_range 1 (usub chunckX 1) (λ i,
      for_range 1 (usub chunckY 1) (λ j '(buffer, counter),
        buffer ← put buffer counter (get T0 i j 1);
        Some (buffer, uadd counter 1))) (buffer, 0);
    Some buffer
  else Some buffer.

Definition pack_FRONT (T0 : Field) (buffer : list floatT) : option (list floatT) :=
  if decide (neighbor DIRECTION.FRONT) then
    '(buffer, _) ← for_range 1 (usub chunckX 1) (λ i,
      for_range 1 (usub chunckY 1) (λ j '(buffer, counter),
        buffer ← put buffer counter (get T0 i j (usub chunckZ 2));
        Some (buffer, uadd counter 1))) (buffer, 0);
    Some buffer
  else Some buffer.

(** The six send buffers after packing. *)
Definition pack (T0 : Field) (sendBuffer : DIRECTION.t → list floatT)
  : option (DIRECTION.t → list floatT) :=
  bL ← pack_LEFT T0 (sendBuffer DIRECTION.LEFT);
  bR ← pack_RIGHT T0 (sendBuffer DIRECTION.RIGHT);
  bB ← pack_BOTTOM T0 (sendBuffer DIRECTION.BOTTOM);
  bT ← pack_TOP T0 (sendBuffer DIRECTION.TOP);
  bK ← pack_BACK T0 (sendBuffer DIRECTION.BACK);
  bF ← pack_FRONT T0 (sendBuffer DIRECTION.FRONT);
  Some (λ d, match d with
             | DIRECTION.LEFT => bL | DIRECTION.RIGHT => bR
             | DIRECTION.BOTTOM => bB | DIRECTION.TOP => bT
             | DIRECTION.BACK => bK | DIRECTION.FRONT => bF
             end).

(** ** The time loop: face updates from the halo (lines 656-749)

    The subscripts [i - 1], [j - 1], [k - 1] are [unsigned] subtractions;
    [i + 1], [j + 1], [k + 1] stay below the extent of the block. *)

Definition update_LEFT (T0 : Field) (THalo : list floatT) (T : Field) : option Field :=
  if decide (neighbor DIRECTION.LEFT) then
    let i := 0 in
    '(T, _) ← for_range 1 (usub chunckY 1) (λ j,
      for_range 1 (usub chunckZ 1) (λ k '(T, counter),
        T ← set T i j k
              (get T0 i j k +
               const (Dx e) * (get T0 (i + 1) j k - const 2 * get T0 i j k + at_ THalo counter) +
               const (Dy e) * (get T0 i (j + 1) k - const 2 * get T0 i j k + get T0 i (usub j 1) k) +
               const (Dz e) * (get T0 i j (k + 1) - const 2 * get T0 i j k + get T0 i j (usub k 1)))%F;
        Some (T, uadd counter 1))) (T, 0);
    Some T
  else Some T.

Definition update_RIGHT (T0 : Field) (THalo : list floatT) (T : Field) : option Field :=
  if decide (neighbor DIRECTION.RIGHT) then
    let i := usub chunckX 1 in
    '(T, _) ← for_range 1 (usub chunckY 1) (λ j,
      for_range 1 (usub chunckZ 1) (λ k '(T, counter),
        T ← set T i j k
              (get T0 i j k +
               const (Dx e) * (at_ THalo counter - const 2 * get T0 i j k + get T0 (usub i 1) j k) +
               const (Dy e) * (get T0 i (j + 1) k - const 2 * get T0 i j k + get T0 i (usub j 1) k) +
               const (Dz e) * (get T0 i j (k + 1) - const 2 * get T0 i j k + get T0 i j (usub k 1)))%F;
        Some (T, uadd counter 1))) (T, 0);
    Some T
  else Some T.

Definition update_BOTTOM (T0 : Field) (THalo : list floatT) (T : Field) : option Field :=
  if decide (neighbor DIRECTION.BOTTOM) then
    let j := 0 in
    '(T, _) ← for_range 1 (usub chunckX 1) (λ i,
      for_range 1 (usub chunckZ 1) (λ k '(T, counter),
        T ← set T i j k
              (get T0 i j k +
               const (Dx e) * (get T0 (i + 1) j k - const 2 * get T0 i j k + get T0 (usub i 1) j k) +
               const (Dy e) * (get T0 i (j + 1) k - const 2 * get T0 i j k + at_ THalo counter) +
               const (Dz e) * (get T0 i j (k + 1) - const 2 * get T0 i j k + get T0 i j (usub k 1)))%F;
        Some (T, uadd counter 1))) (T, 0);
    Some T
  else Some T.

Definition update_TOP (T0 : Field) (THalo : list floatT) (T : Field) : option Field :=
  if decide (neighbor DIRECTION.TOP) then
    let j := usub chunckY 1 in
    '(T, _) ← for_range 1 (usub chunckX 1) (λ i,
      for_range 1 (usub chunckZ 1) (λ k '(T, counter),
        T ← set T i j k
              (get T0 i j k +
               const (Dx e) * (get T0 (i + 1) j k - const 2 * get T0 i j k + get T0 (usub i 1) j k) +
               const (Dy e) * (at_ THalo counter - const 2 * get T0 i j k + get T0 i (usub j 1) k) +
               const (Dz e) * (get T0 i j (k + 1) - const 2 * get T0 i j k + get T0 i j (usub k 1)))%F;
        Some (T, uadd counter 1))) (T, 0);
    Some T
  else Some T.

Definition update_BACK (T0 : Field) (THalo : list floatT) (T : Field) : option Field :=
  if decide (neighbor DIRECTION.BACK) then
    let k := 0 in
    '(T, _) ← for_range 1 (usub chunckX 1) (λ i,
      for_range 1 (usub chunckY 1) (λ j '(T, counter),
        T ← set T i j k
              (get T0 i j k +
               const (Dx e) * (get T0 (i + 1) j k - const 2 * get T0 i j k + get T0 (usub i 1) j k) +
               const (Dy e) * (get T0 i (j + 1) k - const 2 * get T0 i j k + get T0 i (usub j 1) k) +
               const (Dz e) * (get T0 i j (k + 1) - const 2 * get T0 i j k + at_ THalo counter))%F;
        Some (T, uadd counter 1))) (T, 0);
    Some T
  else Some T.

Definition update_FRONT (T0 : Field) (THalo : list floatT) (T : Field) : option Field :=
  if decide (neighbor DIRECTION.FRONT) then
    let k := usub chunckZ 1 in
    '(T, _) ← for_range 1 (usub chunckX 1) (λ i,
      for_range 1 (usub chunckY 1) (λ j '(T, counter),
        T ← set T i j k
              (get T0 i j k +
               const (Dx e) * (get T0 (i + 1) j k - const 2 * get T0 i j k + get T0 (usub i 1) j k) +
               const (Dy e) * (get T0 i (j + 1) k - const 2 * get T0 i j k + get T0 i (usub j 1) k) +
               const (Dz e) * (at_ THalo counter - const 2 * get T0 i j k + get T0 i j (usub k 1)))%F;
        Some (T, uadd counter 1))) (T, 0);
    Some T
  else Some T.

Definition update_faces (T0 : Field) (receiveBuffer : DIRECTION.t → list floatT) (T : Field)
  : option Field :=
  T ← update_LEFT T0 (receiveBuffer DIRECTION.LEFT) T;
  T ← update_RIGHT T0 (receiveBuffer DIRECTION.RIGHT) T;
  T ← update_BOTTOM T0 (receiveBuffer DIRECTION.BOTTOM) T;
  T ← update_TOP T0 (receiveBuffer DIRECTION.TOP) T;
  T ← update_BACK T0 (receiveBuffer DIRECTION.BACK) T;
  update_FRONT T0 (receiveBuffer DIRECTION.FRONT) T.

(** ** The time loop: edges of the halo (lines 757-839) *)

Definition edge_LEFT_BOTTOM (T : Field) : option Field :=
  if decide (neighbor DIRECTION.LEFT) then
    if decide (neighbor DIRECTION.BOTTOM) then
      let i := 0 in
      let j := 0 in
      for_range 1 (usub chunckZ 1) (λ k T,
        set T i j k (const 2 * get T (i + 1) j k - get T (i + 2) j k)%F) T
    else Some T
  else Some T.

Definition edge_LEFT_TOP (T : Field) : option Field :=
  if decide (neighbor DIRECTION.LEFT) then
    if decide (neighbor DIRECTION.TOP) then
      let i := 0 in
      let j := usub chunckY 1 in
      for_range 1 (usub chunckZ 1) (λ k T,
        set T i j k (const 2 * get T (i + 1) j k - get T (i + 2) j k)%F) T
    else Some T
  else Some T.

Definition edge_LEFT_BACK (T : Field) : option Field :=
  if decide (neighbor DIRECTION.LEFT) then
    if decide (neighbor DIRECTION.BACK) then
      let i := 0 in
      let k := 0 in
      for_range 1 (usub chunckY 1) (λ j T,
        set T i j k (const 2 * get T (i + 1) j k - get T (i + 2) j k)%F) T
    else Some T
  else Some T.

Definition edge_LEFT_FRONT (T : Field) : option Field :=
  if decide (neighbor DIRECTION.LEFT) then
    if decide (neighbor DIRECTION.FRONT) then
      let i := 0 in
      let k := usub chunckZ 1 in
      for_range 1 (usub chunckY 1) (λ j T,
        set T i j k (const 2 * get T (i + 1) j k - get T (i + 2) j k)%F) T
    else Some T
  else Some T.

Definition edge_RIGHT_BOTTOM (T : Field) : option Field :=
  if decide (neighbor DIRECTION.RIGHT) then
    if decide (neighbor DIRECTION.BOTTOM) then
      let i := usub chunckX 1 in
      let j := 0 in
      for_range 1 (usub chunckZ 1) (λ k T,
        set T i j k (const 2 * get T (usub i 1) j k - get T (usub i 2) j k)%F) T
    else Some T
  else Some T.

Definition edge_RIGHT_TOP (T : Field) : option Field :=
  if decide (neighbor DIRECTION.RIGHT) then
    if decide (neighbor DIRECTION.TOP) then
      let i := usub chunckX 1 in
      let j := usub chunckY 1 in
      for_range 1 (usub chunckZ 1) (λ k T,
        set T i j k (const 2 * get T (usub i 1) j k - get T (usub i 2) j k)%F) T
    else Some T
  else Some T.

Definition edge_RIGHT_BACK (T : Field) : option Field :=
  if decide (neighbor DIRECTION.RIGHT) then
    if decide (neighbor DIRECTION.BACK) then
      let i := usub chunckX 1 in
      let k := 0 in
      for_range 1 (usub chunckY 1) (λ j T,
        set T i j k (const 2 * get T (usub i 1) j k - get T (usub i 2) j k)%F) T
    else Some T
  else Some T.

Definition edge_RIGHT_FRONT (T : Field) : option Field :=
  if decide (neighbor DIRECTION.RIGHT) then
    if decide (neighbor DIRECTION.FRONT) then
      let i := usub chunckX 1 in
      let k := usub chunckZ 1 in
      for_range 1 (usub chunckY 1) (λ j T,
        set T i j k (const 2 * get T (usub i 1) j k - get T (usub i 2) j k)%F) T
    else Some T
  else Some T.

Definition edge_BACK_BOTTOM (T : Field) : option Field :=
  if decide (neighbor DIRECTION.BACK) then
    if decide (neighbor DIRECTION.BOTTOM) then
      let j := 0 in
      let k := 0 in
      for_range 1 (usub chunckX 1) (λ i T,
        set T i j k (const 2 * get T i j (k + 1) - get T i j (k + 2))%F) T
    else Some T
  else Some T.

Definition edge_BACK_TOP (T : Field) : option Field :=
  if decide (neighbor DIRECTION.BACK) then
    if decide (neighbor DIRECTION.TOP) then
      let j := usub chunckY 1 in
      let k := 0 in
      for_range 1 (usub chunckX 1) (λ i T,
        set T i j k (const 2 * get T i j (k + 1) - get T i j (k + 2))%F) T
    else Some T
  else Some T.

Definition edge_FRONT_BOTTOM (T : Field) : option Field :=
  if decide (neighbor DIRECTION.FRONT) then
    if decide (neighbor DIRECTION.BOTTOM) then
      let j := 0 in
      let k := usub chunckZ 1 in
      for_range 1 (usub chunckX 1) (λ i T,
        set T i j k (const 2 * get T i j (usub k 1) - get T i j (usub k 2))%F) T
    else Some T
  else Some T.

Definition edge_FRONT_TOP (T : Field) : option Field :=
  if decide (neighbor DIRECTION.FRONT) then
    if decide (neighbor DIRECTION.TOP) then
      let j := usub chunckY 1 in
      let k := usub chunckZ 1 in
      for_range 1 (usub chunckX 1) (λ i T,
        set T i j k (const 2 * get T i j (usub k 1) - get T i j (usub k 2))%F) T
    else Some T
  else Some T.

(** The twelve edges, in the order of the source. *)
Definition update_edges (T : Field) : option Field :=
  T ← edge_LEFT_BOTTOM T;
  T ← edge_LEFT_TOP T;
  T ← edge_LEFT_BACK T;
  T ← edge_LEFT_FRONT T;
  T ← edge_RIGHT_BOTTOM T;
  T ← edge_RIGHT_TOP T;
  T ← edge_RIGHT_BACK T;
  T ← edge_RIGHT_FRONT T;
  T ← edge_BACK_BOTTOM T;
  T ← edge_BACK_TOP T;
  T ← edge_FRONT_BOTTOM T;
  edge_FRONT_TOP T.

(** ** The time loop: corner points (lines 845-907) *)

Definition corner_LEFT_BOTTOM_BACK (T : Field) : option Field :=
  if decide (neighbor DIRECTION.LEFT ∧ neighbor DIRECTION.BOTTOM ∧ neighbor DIRECTION.BACK) then
    let i := 0 in
    let j := 0 in
    let k := 0 in
    set T i j k (const (1 / 3) * (get T (i + 1) j k + get T i (j + 1) k + get T i j (k + 1)))%F
  else Some T.

Definition corner_LEFT_BOTTOM_FRONT (T : Field) : option Field :=
  if decide (neighbor DIRECTION.LEFT ∧ neighbor DIRECTION.BOTTOM ∧ neighbor DIRECTION.FRONT) then
    let i := 0 in
    let j := 0 in
    let k := usub chunckZ 1 in
    set T i j k (const (1 / 3) * (get T (i + 1) j k + get T i (j + 1) k + get T i j (usub k 1)))%F
  else Some T.

Definition corner_LEFT_TOP_BACK (T : Field) : option Field :=
  if decide (neighbor DIRECTION.LEFT ∧ neighbor DIRECTION.TOP ∧ neighbor DIRECTION.BACK) then
    let i := 0 in
    let j := usub chunckY 1 in
    let k := 0 in
    set T i j k (const (1 / 3) * (get T (i + 1) j k + get T i (usub j 1) k + get T i j (k + 1)))%F
  else Some T.

Definition corner_LEFT_TOP_FRONT (T : Field) : option Field :=
  if decide (neighbor DIRECTION.LEFT ∧ neighbor DIRECTION.TOP ∧ neighbor DIRECTION.FRONT) then
    let i := 0 in
    let j := usub chunckY 1 in
    let k := usub chunckZ 1 in
    set T i j k (const (1 / 3) * (get T (i + 1) j k + get T i (usub j 1) k + get T i j (usub k 1)))%F
  else Some T.

Definition corner_RIGHT_BOTTOM_BACK (T : Field) : option Field :=
  if decide (neighbor DIRECTION.RIGHT ∧ neighbor DIRECTION.BOTTOM ∧ neighbor DIRECTION.BACK) then
    let i := usub chunckX 1 in
    let j := 0 in
    let k := 0 in
    set T i j k (const (1 / 3) * (get T (usub i 1) j k + get T i (j + 1) k + get T i j (k + 1)))%F
  else Some T.

Definition corner_RIGHT_BOTTOM_FRONT (T : Field) : option Field :=
  if decide (neighbor DIRECTION.RIGHT ∧ neighbor DIRECTION.BOTTOM ∧ neighbor DIRECTION.FRONT) then
    let i := usub chunckX 1 in
    let j := 0 in
    let k := usub chunckZ 1 in
    set T i j k (const (1 / 3) * (get T (usub i 1) j k + get T i (j + 1) k + get T i j (usub k 1)))%F
  else Some T.

Definition corner_RIGHT_TOP_BACK (T : Field) : option Field :=
  if decide (neighbor DIRECTION.RIGHT ∧ neighbor DIRECTION.TOP ∧ neighbor DIRECTION.BACK) then
    let i := usub chunckX 1 in
    let j := usub chunckY 1 in
    let k := 0 in
    set T i j k (const (1 / 3) * (get T (usub i 1) j k + get T i (usub j 1) k + get T i j (k + 1)))%F
  else Some T.

Definition corner_RIGHT_TOP_FRONT (T : Field) : option Field :=
  if decide (neighbor DIRECTION.RIGHT ∧ neighbor DIRECTION.TOP ∧ neighbor DIRECTION.FRONT) then
    let i := usub chunckX 1 in
    let j := usub chunckY 1 in
    let k := usub chunckZ 1 in
    set T i j k (const (1 / 3) * (get T (usub i 1) j k + get T i (usub j 1) k + get T i j (usub k 1)))%F
  else Some T.

(** The eight corners, in the order of the source. *)
Definition update_corners (T : Field) : option Field :=
  T ← corner_LEFT_BOTTOM_BACK T;
  T ← corner_LEFT_BOTTOM_FRONT T;
  T ← corner_LEFT_TOP_BACK T;
  T ← corner_LEFT_TOP_FRONT T;
  T ← corner_RIGHT_BOTTOM_BACK T;
  T ← corner_RIGHT_BOTTOM_FRONT T;
  T ← corner_RIGHT_TOP_BACK T;
  corner_RIGHT_TOP_FRONT T.

(** ** The time loop: residual (lines 915-920) *)

Definition residual (T T0 : Field) : option floatT :=
  let res := numeric_limits_min in
  for_range 1 (usub chunckX 1) (λ i,
    for_range 1 (usub chunckY 1) (λ j,
      for_range 1 (usub chunckZ 1) (λ k res,
        d ← (get T i j k - get T0 i j k)%F;
        if PrimFloat.ltb res (fabs d) then Some (fabs d) else Some res))) res.

End Process.

(** ** The state of a process in the time loop *)

(** The variables of [main] that the time loop assigns.  [res] is the
    block-local residual of the iteration last executed; the b/c flags are
    [int]s holding [false] (0) or [true] (1). *)
Record state := {
  T : Field;
  T0 : Field;
  sendBuffer : DIRECTION.t → list floatT;
  receiveBuffer : DIRECTION.t → list floatT;
  res : floatT;
  norm : floatT;
  globalNorm : floatT;
  breakCondition : Z;
  globalBreakCondition : Z;
  finalNumIterations : Z
}.

(** Lines 502-566: [T0] becomes a copy of [T]; the send buffers are packed. *)
Definition copy_and_pack (e : process) (s : state) : option state :=
  T0' ← copy_solution e (T s) (T0 s);
  sb ← pack e T0' (sendBuffer s);
  Some {| T := T s; T0 := T0'; sendBuffer := sb; receiveBuffer := receiveBuffer s;
          res := res s; norm := norm s; globalNorm := globalNorm s;
          breakCondition := breakCondition s;
          globalBreakCondition := globalBreakCondition s;
          finalNumIterations := finalNumIterations s |}.

(** Lines 656-928: faces, edges, corners, residual, and at the first time
    step the normalisation factor. *)
Definition update_and_residual (e : process) (time : Z) (s : state) : option state :=
  T' ← update_faces e (T0 s) (receiveBuffer s) (T s);
  T' ← update_edges e T';
  T' ← update_corners e T';
  res' ← residual e T' (T0 s);
  let norm' :=
    if decide (time = 0) then
      if negb (PrimFloat.eqb res' 0) then res' else norm s
    else norm s in
  Some {| T := T'; T0 := T0 s; sendBuffer := sendBuffer s; receiveBuffer := receiveBuffer s;
          res := res'; norm := norm'; globalNorm := globalNorm s;
          breakCondition := breakCondition s;
          globalBreakCondition := globalBreakCondition s;
          finalNumIterations := finalNumIterations s |}.

(** Lines 951-952: [if (res / norm < eps) breakCondition = true;]. *)
Definition convergence_test (eps : floatT) (s : state) : bool :=
  PrimFloat.ltb (res s / norm s) eps.

Definition check_convergence (eps : floatT) (s : state) : state :=
  {| T := T s; T0 := T0 s; sendBuffer := sendBuffer s; receiveBuffer := receiveBuffer s;
     res := res s; norm := norm s; globalNorm := globalNorm s;
     breakCondition := if convergence_test eps s then 1 else breakCondition s;
     globalBreakCondition := globalBreakCondition s;
     finalNumIterations := finalNumIterations s |}.

Definition set_globalNorm (g : floatT) (s : state) : state :=
  {| T := T s; T0 := T0 s; sendBuffer := sendBuffer s; receiveBuffer := receiveBuffer s;
     res := res s; norm := norm s; globalNorm := g;
     breakCondition := breakCondition s;
     globalBreakCondition := globalBreakCondition s;
     finalNumIterations := finalNumIterations s |}.

Definition set_globalBreakCondition (g : Z) (s : state) : state :=
  {| T := T s; T0 := T0 s; sendBuffer := sendBuffer s; receiveBuffer := receiveBuffer s;
     res := res s; norm := norm s; globalNorm := globalNorm s;
     breakCondition := breakCondition s;
     globalBreakCondition := g;
     finalNumIterations := finalNumIterations s |}.

Definition set_receiveBuffer (rb : DIRECTION.t → list floatT) (s : state) : state :=
  {| T := T s; T0 := T0 s; sendBuffer := sendBuffer s; receiveBuffer := rb;
     res := res s; norm := norm s; globalNorm := globalNorm s;
     breakCondition := breakCondition s;
     globalBreakCondition := globalBreakCondition s;
     finalNumIterations := finalNumIterations s |}.

Definition set_finalNumIterations (n : Z) (s : state) : state :=
  {| T := T s; T0 := T0 s; sendBuffer := sendBuffer s; receiveBuffer := receiveBuffer s;
     res := res s; norm := norm s; globalNorm := globalNorm s;
     breakCondition := breakCondition s;
     globalBreakCondition := globalBreakCondition s;
     finalNumIterations := n |}.

(** ** All processes together *)

(** The face on the other side of a shared boundary. *)
Definition opposite (d : DIRECTION.t) : DIRECTION.t :=
  match d with
  | DIRECTION.LEFT => DIRECTION.RIGHT | DIRECTION.RIGHT => DIRECTION.LEFT
  | DIRECTION.BOTTOM => DIRECTION.TOP | DIRECTION.TOP => DIRECTION.BOTTOM
  | DIRECTION.BACK => DIRECTION.FRONT | DIRECTION.FRONT => DIRECTION.BACK
  end.

(** Lines 581-651, [MPI_Isend], [MPI_Recv], [MPI_Waitall].  In the
    non-periodic cartesian topology of line 180 the message a process
    receives from its neighbour in direction [d] is the buffer that
    neighbour sent in the opposite direction; both have the same length,
    so the receive buffer is replaced as a whole.  Nothing is received
    from [MPI_PROC_NULL]. *)
Definition receive (w : list state) (e : process) (s : state) (d : DIRECTION.t)
  : option (list floatT) :=
  match neighbors e d with
  | None => Some (receiveBuffer s d)
  | Some q => sq ← w !! q; Some (sendBuffer sq (opposite d))
  end.

Definition halo_exchange (w : list state) (e : process) (s : state) : option state :=
  bL ← receive w e s DIRECTION.LEFT;
  bR ← receive w e s DIRECTION.RIGHT;
  bB ← receive w e s DIRECTION.BOTTOM;
  bT ← receive w e s DIRECTION.TOP;
  bK ← receive w e s DIRECTION.BACK;
  bF ← receive w e s DIRECTION.FRONT;
  Some (set_receiveBuffer
          (λ d, match d with
                | DIRECTION.LEFT => bL | DIRECTION.RIGHT => bR
                | DIRECTION.BOTTOM => bB | DIRECTION.TOP => bT
                | DIRECTION.BACK => bK | DIRECTION.FRONT => bF
                end) s).

(** [MPI_Iallreduce] with [MPI_MIN] on doubles and [MPI_MAX] on ints,
    followed by [MPI_Wait]: every process obtains the reduction of the
    values of all processes. *)
Definition fmin (a b : floatT) : floatT := if PrimFloat.ltb b a then b else a.

Definition MPI_MIN (values : list floatT) : option floatT :=
  match values with
  | [] => None
  | v :: values => Some (foldl fmin v values)
  end.

Definition MPI_MAX (values : list Z) : option Z :=
  match values with
  | [] => None
  | v :: values => Some (foldl Z.max v values)
  end.

(** Every process runs [f] on its own state. *)
Definition each (f : process → state → option state) (ps : list process) (w : list state)
  : option (list state) :=
  mapM (λ '(e, s), f e s) (zip ps w).

(** The second half of an iteration (lines 656-970) on all processes, from
    the face updates on: updates, residual and normalisation factor, the
    minimum reduction of [norm] into [globalNorm] at the first time step
    (lines 933-936), the convergence test (lines 951-952) and the maximum
    reduction of [breakCondition] into [globalBreakCondition] (line 958).
    The two reductions are the points where the processes meet. *)
Definition update_and_reduce (ps : list process) (eps : floatT) (time : Z) (w : list state)
  : option (list state) :=
  w ← each (λ e, update_and_residual e time) ps w;
  w ← (if decide (time = 0) then
         g ← MPI_MIN (norm <$> w); Some (set_globalNorm g <$> w)
       else Some w);
  let w := check_convergence eps <$> w in
  g ← MPI_MAX (breakCondition <$> w);
  Some (set_globalBreakCondition g <$> w).

(** One iteration of the time loop (lines 497-970) on all processes. *)
Definition iteration (ps : list process) (eps : floatT) (time : Z) (w : list state)
  : option (list state) :=
  w ← each copy_and_pack ps w;
  w ← each (halo_exchange w) ps w;
  update_and_reduce ps eps time w.

(** [if (globalBreakCondition) { finalNumIterations = time; break; }]:
    the reduction gave every process the same value, so they leave the loop
    in the same iteration. *)
Definition stops (w : list state) : bool :=
  bool_decide (Exists (λ s, globalBreakCondition s ≠ 0) w).

(** [for (unsigned time = 0; time < iterMax; ++time)], [n] iterations left. *)
Fixpoint time_loop (ps : list process) (eps : floatT) (n : nat) (time : Z) (w : list state)
  : option (list state) :=
  match n with
  | O => Some w
  | S n' =>
      w' ← iteration ps eps time w;
      if stops w' then Some (set_finalNumIterations time <$> w')
      else time_loop ps eps n' (time + 1) w'
  end.

(** ** Setup (lines 261-478) *)

(** What MPI hands to a process (lines 176-196): the process grid
    [dimension3D] of [MPI_Dims_create], and the rank, neighbours and grid
    coordinates of the process in the cartesian communicator. *)
Record cartesian := {
  cart_rank : nat;
  cart_neighbors : DIRECTION.t → option nat;
  cart_coordinates3D : COORDINATE.t → Z
}.

(** Outcome of a step that may end the process by a failed [assert]. *)
Inductive outcome (A : Type) :=
  | Done (a : A)
  | AssertionFailed (axis : COORDINATE.t).
Arguments Done {A} a.
Arguments AssertionFailed {A} axis.

(** [(numCells[d] - 1) % dimension3D[d]], computed in [unsigned] (the [int]
    divisor is converted).  Division by zero is undefined. *)
Definition partition_remainder (numCells dimension3D : COORDINATE.t → Z) (d : COORDINATE.t)
  : option Z :=
  if decide (u32 (dimension3D d) = 0) then None
  else Some (usub (numCells d) 1 mod u32 (dimension3D d)).

(** Lines 317-322, the three [assert]s in their order ([NDEBUG] is not
    defined by the source). *)
Definition assert_partition (numCells dimension3D : COORDINATE.t → Z) : option (outcome unit) :=
  rx ← partition_remainder numCells dimension3D COORDINATE.X;
  if decide (rx ≠ 0) then Some (AssertionFailed COORDINATE.X) else
  ry ← partition_remainder numCells dimension3D COORDINATE.Y;
  if decide (ry ≠ 0) then Some (AssertionFailed COORDINATE.Y) else
  rz ← partition_remainder numCells dimension3D COORDINATE.Z;
  if decide (rz ≠ 0) then Some (AssertionFailed COORDINATE.Z) else
  Some (Done ()).

(** Lines 327-331, [((numCells[d] - 1) / dimension3D[d]) + 1]. *)
Definition chunck_of (numCells dimension3D : COORDINATE.t → Z) (d : COORDINATE.t) : Z :=
  uadd (usub (numCells d) 1 / u32 (dimension3D d)) 1.

(** [std::pow(x, 2.0)] of the C library, taken as the correctly rounded
    square [x * x]; a library whose [pow] is not correctly rounded can differ
    from it in the last bit. *)
Definition pow_2 (x : floatT) : floatT := (x * x)%float.

(** [std::min({a, b, c})]. *)
Definition min3 (a b c : floatT) : floatT :=
  let m := a in
  let m := if PrimFloat.ltb b m then b else m in
  if PrimFloat.ltb c m then c else m.

Definition alpha : floatT := 1%float.
Definition CFL : floatT := 0.4%float.

(** Lines 278-308. *)
Definition spacing_of (numCells : COORDINATE.t → Z) (d : COORDINATE.t) : floatT :=
  (1 / (uint_to_double (numCells d) - 1))%float.

Definition dt_of (numCells : COORDINATE.t → Z) : floatT :=
  (CFL * 1 / uint_to_double (3 * 2)
   * pow_2 (min3 (spacing_of numCells COORDINATE.X) (spacing_of numCells COORDINATE.Y)
                 (spacing_of numCells COORDINATE.Z))
   / alpha)%float.

Definition diffusivity (numCells : COORDINATE.t → Z) (d : COORDINATE.t) : floatT :=
  (dt_of numCells * alpha / pow_2 (spacing_of numCells d))%float.

Definition process_of (c : cartesian) (numCells dimension3D : COORDINATE.t → Z) : process :=
  {| rank := cart_rank c;
     neighbors := cart_neighbors c;
     coordinates3D := cart_coordinates3D c;
     chunck := chunck_of numCells dimension3D;
     spacing := spacing_of numCells;
     Dx := diffusivity numCells COORDINATE.X;
     Dy := diffusivity numCells COORDINATE.Y;
     Dz := diffusivity numCells COORDINATE.Z |}.

(** The state with which a process enters the time loop (lines 261-267,
    336-478). *)
Definition initial_state (e : process) : option state :=
  T ← initial_conditions e;
  Some {| T := T;
          T0 := resize3 (chunck e COORDINATE.X) (chunck e COORDINATE.Y) (chunck e COORDINATE.Z);
          sendBuffer := allocate_buffer e;
          receiveBuffer := allocate_buffer e;
          res := 0%float;
          norm := 1%float;
          globalNorm := 1%float;
          breakCondition := 0;
          globalBreakCondition := 0;
          finalNumIterations := 0 |}.

(** Setup of one process: the partition is checked before anything is
    allocated. *)
Definition setup (c : cartesian) (numCells dimension3D : COORDINATE.t → Z)
  : option (outcome (process * state)) :=
  a ← assert_partition numCells dimension3D;
  match a with
  | AssertionFailed d => Some (AssertionFailed d)
  | Done _ =>
      let e := process_of c numCells dimension3D in
      s ← initial_state e;
      Some (Done (e, s))
  end.

(** [main] on all processes, from the parsed arguments on.  [iterMax] is
    the value of the [unsigned] variable of the source, that is, the
    argument after its conversion. *)
Definition main (cs : list cartesian) (numCells dimension3D : COORDINATE.t → Z)
    (iterMax : Z) (eps : floatT) : option (outcome (list state)) :=
  a ← assert_partition numCells dimension3D;
  match a with
  | AssertionFailed d => Some (AssertionFailed d)
  | Done _ =>
      let ps := (λ c, process_of c numCells dimension3D) <$> cs in
      w ← mapM initial_state ps;
      w ← time_loop ps eps (Z.to_nat iterMax) 0 w;
      Some (Done w)
  end.

(** ** After the time loop: the report (lines 978-986) *)

(** What rank 0 prints about the run: [Simulation has converged in
    finalNumIterations iterations with a convergence threshold of eps], or
    [Simulation did not converge within iterMax iterations.] *)
Inductive message :=
  | Converged (iterations : Z) (threshold : floatT)
  | NotConverged (iterMax : Z).

Definition report (iterMax : Z) (eps : floatT) (s : state) : message :=
  if decide (globalBreakCondition s ≠ 0) then Converged (finalNumIterations s) eps
  else NotConverged iterMax.

(** [coordinates3D[a] * (chunck[a] - 1) + i], computed in [unsigned]: the
    index in the whole grid of cell [i] of a block (lines 374, 997,
    1031-1033, 1050-1052). *)
Definition global_index_of (coordinate chunck i : Z) : Z :=
  uadd (umul (u32 coordinate) (usub chunck 1)) i.

(** ** After the time loop: the error against the ramp (lines 992-1002) *)

(** [error] as rank 0 prints it (times 100): the sum over the strictly
    interior cells of [sqrt(pow(T[i][j][k] - ramp(j), 2.0))], divided by
    the [unsigned] product [(chunck[X]-2) * (chunck[Y]-2) * (chunck[Z]-2)].
    The sum of the errors of all processes, [globalError], is computed and
    not used. *)
Definition L2_error (e : process) (T : Field) : option floatT :=
  error ← for_range 1 (usub (chunck e COORDINATE.Z) 1) (λ k,
             for_range 1 (usub (chunck e COORDINATE.Y) 1) (λ j,
               for_range 1 (usub (chunck e COORDINATE.X) 1) (λ i error,
                 t ← get T i j k;
                 Some (error + PrimFloat.sqrt (pow_2 (t - ramp e j)))%float))) 0%float;
  Some (error / uint_to_double (umul (umul (usub (chunck e COORDINATE.X) 2)
                                           (usub (chunck e COORDINATE.Y) 2))
                                     (usub (chunck e COORDINATE.Z) 2)))%float.

(** ** After the time loop: the output file (lines 1008-1075) *)

(** [counter++] on an [int]: signed overflow is undefined. *)
Definition iadd (a b : Z) : option Z :=
  if decide (- 2 ^ 31 ≤ a + b < 2 ^ 31) then Some (a + b) else None.

(** [receiveBufferPostProcess.resize(chunck[X] * chunck[Y] * chunck[Z])]. *)
Definition receiveBufferPostProcess (e : process) : list floatT :=
  replicate (Z.to_nat (umul (umul (chunck e COORDINATE.X) (chunck e COORDINATE.Y))
                            (chunck e COORDINATE.Z))) 0%float.

(** Lines 1010-1020, on the ranks above 0: the field is copied into the
    buffer, which is sent to rank 0. *)
Definition gather_send (e : process) (T : Field) (buffer : list floatT)
  : option (list floatT) :=
  '(buffer, _) ← for_range 0 (chunck e COORDINATE.Z) (λ k,
    for_range 0 (chunck e COORDINATE.Y) (λ j,
      for_range 0 (chunck e COORDINATE.X) (λ i '(buffer, counter),
        buffer ← put buffer counter (get T i j k);
        counter ← iadd counter 1;
        Some (buffer, counter)))) (buffer, 0);
  Some buffer.

(** [MPI_Recv] of a message into a buffer: a longer message is an error. *)
Definition MPI_Recv (buffer message : list floatT) : option (list floatT) :=
  if decide (length message ≤ length buffer)%nat
  then Some (message ++ drop (length message) buffer) else None.

(** The lines of the output file, before formatting. *)
Inductive line :=
  | TITLE
  | VARIABLES (with_rank : bool)
  | ZONE (name : Z) (I J K : Z)
  | POINT (x y z t : floatT) (rank : option Z).

(** [(coordinates[a] * (chunck[a] - 1) + i) * spacing[a]]. *)
Definition position (e : process) (coordinates : COORDINATE.t → Z) (a : COORDINATE.t)
    (i : Z) : floatT :=
  (uint_to_double (global_index_of (coordinates a) (chunck e a) i) * spacing e a)%float.

(** The zone of the writing process itself (lines 1027-1036, 1065-1073). *)
Definition write_own_zone (e : process) (T : Field) (rank : option Z) (out : list line)
  : option (list line) :=
  for_range 0 (chunck e COORDINATE.Z) (λ k,
    for_range 0 (chunck e COORDINATE.Y) (λ j,
      for_range 0 (chunck e COORDINATE.X) (λ i out,
        t ← get T i j k;
        Some (out ++ [POINT (position e (coordinates3D e) COORDINATE.X i)
                            (position e (coordinates3D e) COORDINATE.Y j)
                            (position e (coordinates3D e) COORDINATE.Z k) t rank])))) out.

(** The zone of a received block (lines 1045-1055): extent and spacing are
    those of the writing process, the grid coordinates those received. *)
Definition write_received_zone (e : process) (coordinates : COORDINATE.t → Z)
    (buffer : list floatT) (recvRank : Z) (out : list line) : option (list line) :=
  '(out, _) ← for_range 0 (chunck e COORDINATE.Z) (λ k,
    for_range 0 (chunck e COORDINATE.Y) (λ j,
      for_range 0 (chunck e COORDINATE.X) (λ i '(out, counter),
        t ← at_ buffer counter;
        counter' ← iadd counter 1;
        Some (out ++ [POINT (position e coordinates COORDINATE.X i)
                            (position e coordinates COORDINATE.Y j)
                            (position e coordinates COORDINATE.Z k) t (Some recvRank)],
              counter')))) (out, 0);
  Some out.

(** The header of a zone; [rank] is that of the writing process. *)
Definition zone_header (e : process) : line :=
  ZONE (Z.of_nat (rank e)) (chunck e COORDINATE.X) (chunck e COORDINATE.Y)
       (chunck e COORDINATE.Z).

(** The file [output/out.dat] that rank 0 writes; the processes and their
    states are listed by rank. *)
Definition write_output (ps : list process) (w : list state) : option (list line) :=
  match ps, w with
  | e0 :: _, s0 :: _ =>
      let size := Z.of_nat (length ps) in
      if decide (size = 1) then
        write_own_zone e0 (T s0) None [TITLE; VARIABLES false; zone_header e0]
      else
        out ← write_own_zone e0 (T s0) (Some (Z.of_nat (rank e0)))
                [TITLE; VARIABLES true; zone_header e0];
        '(out, _) ← for_range 1 size (λ recvRank '(out, buffer),
          e ← ps !! Z.to_nat recvRank;
          s ← w !! Z.to_nat recvRank;
          message ← gather_send e (T s) (receiveBufferPostProcess e);
          buffer ← MPI_Recv buffer message;
          out ← write_received_zone e0 (coordinates3D e) buffer recvRank
                  (out ++ [zone_header e0]);
          Some (out, buffer)) (out, receiveBufferPostProcess e0);
        Some out
  | _, _ => None
  end.

(** ** Predicates used in the statements *)

(** A field of [nx] x [ny] x [nz] cells. *)
Definition shape (nx ny nz : Z) (T : Field) : Prop :=
  Z.of_nat (length T) = nx ∧
  Forall (λ plane : list (list floatT),
            Z.of_nat (length plane) = ny ∧
            Forall (λ row : list floatT, Z.of_nat (length row) = nz) plane) T.

(** The field of a process has the extent of its block. *)
Definition block (e : process) (T : Field) : Prop :=
  shape (chunck e COORDINATE.X) (chunck e COORDINATE.Y) (chunck e COORDINATE.Z) T.

(** [T[i][j][k]] for a triple of subscripts. *)
Definition cell (T : Field) (x : Z * Z * Z) : option floatT :=
  get T x.1.1 x.1.2 x.2.

(** [assigns rd W V s s']: going from [s] to [s'], the locations in [W]
    have received the values [V] and every other location is unchanged.
    [rd] reads a location of a state. *)
Definition assigns {St Idx : Type} (rd : St → Idx → option floatT)
    (W : Idx → Prop) (V : Idx → option floatT) (s s' : St) : Prop :=
  (∀ x, W x → rd s' x = V x) ∧ (∀ x, ¬ W x → rd s' x = rd s x).

(** The extents for which the iteration stays inside its vectors: three
    cells at least along every axis, and faces that fit an [unsigned]. *)
Definition block_ok (e : process) : Prop :=
  3 ≤ chunck e COORDINATE.X ∧ 3 ≤ chunck e COORDINATE.Y ∧ 3 ≤ chunck e COORDINATE.Z ∧
  (chunck e COORDINATE.Y - 1) * (chunck e COORDINATE.Z - 1) < 2 ^ 32 ∧
  (chunck e COORDINATE.X - 1) * (chunck e COORDINATE.Z - 1) < 2 ^ 32 ∧
  (chunck e COORDINATE.X - 1) * (chunck e COORDINATE.Y - 1) < 2 ^ 32.

(** The extents with which the setup stays inside its vectors. *)
Definition extent_ok (e : process) : Prop :=
  ∀ a, 1 ≤ chunck e a < 2 ^ 32.

(** The axis a face is perpendicular to. *)
Definition axis (d : DIRECTION.t) : COORDINATE.t :=
  match d with
  | DIRECTION.LEFT | DIRECTION.RIGHT => COORDINATE.X
  | DIRECTION.BOTTOM | DIRECTION.TOP => COORDINATE.Y
  | DIRECTION.BACK | DIRECTION.FRONT => COORDINATE.Z
  end.

Definition coordinate (a : COORDINATE.t) (x : Z * Z * Z) : Z :=
  match a with
  | COORDINATE.X => x.1.1
  | COORDINATE.Y => x.1.2
  | COORDINATE.Z => x.2
  end.

(** The cell lies on the face plane [d] of the block. *)
Definition on_face (e : process) (d : DIRECTION.t) (x : Z * Z * Z) : Prop :=
  match d with
  | DIRECTION.LEFT | DIRECTION.BOTTOM | DIRECTION.BACK => coordinate (axis d) x = 0
  | DIRECTION.RIGHT | DIRECTION.TOP | DIRECTION.FRONT =>
      coordinate (axis d) x = chunck e (axis d) - 1
  end.

(** The coordinate along [a] is strictly inside the block. *)
Definition inside (e : process) (a : COORDINATE.t) (x : Z * Z * Z) : Prop :=
  1 ≤ coordinate a x ≤ chunck e a - 2.

(** Strictly interior cells: indices in [1, chunck - 2] on the three axes. *)
Definition interior (e : process) (x : Z * Z * Z) : Prop :=
  inside e COORDINATE.X x ∧ inside e COORDINATE.Y x ∧ inside e COORDINATE.Z x.

(** The cell [n] steps away from face [d], towards the inside. *)
Definition inward (d : DIRECTION.t) (n : Z) (x : Z * Z * Z) : Z * Z * Z :=
  match d with
  | DIRECTION.LEFT => (x.1.1 + n, x.1.2, x.2)
  | DIRECTION.RIGHT => (x.1.1 - n, x.1.2, x.2)
  | DIRECTION.BOTTOM => (x.1.1, x.1.2 + n, x.2)
  | DIRECTION.TOP => (x.1.1, x.1.2 - n, x.2)
  | DIRECTION.BACK => (x.1.1, x.1.2, x.2 + n)
  | DIRECTION.FRONT => (x.1.1, x.1.2, x.2 - n)
  end.

(** The cells of the edge where the faces [d1] and [d2] meet, the two
    corners at its ends excluded. *)
Definition on_edge (e : process) (d1 d2 : DIRECTION.t) (x : Z * Z * Z) : Prop :=
  on_face e d1 x ∧ on_face e d2 x ∧
  ∀ a, a ≠ axis d1 → a ≠ axis d2 → inside e a x.

(** The twelve edges in the order in which the source treats them; the
    first face of a pair gives the axis of the extrapolation. *)
Definition edge_order : list (DIRECTION.t * DIRECTION.t) :=
  [ (DIRECTION.LEFT, DIRECTION.BOTTOM); (DIRECTION.LEFT, DIRECTION.TOP);
    (DIRECTION.LEFT, DIRECTION.BACK); (DIRECTION.LEFT, DIRECTION.FRONT);
    (DIRECTION.RIGHT, DIRECTION.BOTTOM); (DIRECTION.RIGHT, DIRECTION.TOP);
    (DIRECTION.RIGHT, DIRECTION.BACK); (DIRECTION.RIGHT, DIRECTION.FRONT);
    (DIRECTION.BACK, DIRECTION.BOTTOM); (DIRECTION.BACK, DIRECTION.TOP);
    (DIRECTION.FRONT, DIRECTION.BOTTOM); (DIRECTION.FRONT, DIRECTION.TOP) ].

(** The loop of the source for an edge. *)
Definition edge_loop (e : process) (ed : DIRECTION.t * DIRECTION.t) : Field → option Field :=
  match ed with
  | (DIRECTION.LEFT, DIRECTION.BOTTOM) => edge_LEFT_BOTTOM e
  | (DIRECTION.LEFT, DIRECTION.TOP) => edge_LEFT_TOP e
  | (DIRECTION.LEFT, DIRECTION.BACK) => edge_LEFT_BACK e
  | (DIRECTION.LEFT, DIRECTION.FRONT) => edge_LEFT_FRONT e
  | (DIRECTION.RIGHT, DIRECTION.BOTTOM) => edge_RIGHT_BOTTOM e
  | (DIRECTION.RIGHT, DIRECTION.TOP) => edge_RIGHT_TOP e
  | (DIRECTION.RIGHT, DIRECTION.BACK) => edge_RIGHT_BACK e
  | (DIRECTION.RIGHT, DIRECTION.FRONT) => edge_RIGHT_FRONT e
  | (DIRECTION.BACK, DIRECTION.BOTTOM) => edge_BACK_BOTTOM e
  | (DIRECTION.BACK, DIRECTION.TOP) => edge_BACK_TOP e
  | (DIRECTION.FRONT, DIRECTION.BOTTOM) => edge_FRONT_BOTTOM e
  | (DIRECTION.FRONT, DIRECTION.TOP) => edge_FRONT_TOP e
  | _ => Some
  end.

(** Running a sequence of steps on the field. *)
Fixpoint run_all (steps : list (Field → option Field)) (T : Field) : option Field :=
  match steps with
  | [] => Some T
  | f :: steps => T' ← f T; run_all steps T'
  end.

(** The field when the loop of the [n]-th edge starts: the edges before it
    have been treated. *)
Definition edges_before (e : process) (n : nat) (T : Field) : option Field :=
  run_all (edge_loop e <$> take n edge_order) T.

(** The eight corners in the order of the source. *)
Definition corner_order : list (DIRECTION.t * DIRECTION.t * DIRECTION.t) :=
  [ (DIRECTION.LEFT, DIRECTION.BOTTOM, DIRECTION.BACK);
    (DIRECTION.LEFT, DIRECTION.BOTTOM, DIRECTION.FRONT);
    (DIRECTION.LEFT, DIRECTION.TOP, DIRECTION.BACK);
    (DIRECTION.LEFT, DIRECTION.TOP, DIRECTION.FRONT);
    (DIRECTION.RIGHT, DIRECTION.BOTTOM, DIRECTION.BACK);
    (DIRECTION.RIGHT, DIRECTION.BOTTOM, DIRECTION.FRONT);
    (DIRECTION.RIGHT, DIRECTION.TOP, DIRECTION.BACK);
    (DIRECTION.RIGHT, DIRECTION.TOP, DIRECTION.FRONT) ].

(** The assignment of the source for a corner. *)
Definition corner_step (e : process) (c : DIRECTION.t * DIRECTION.t * DIRECTION.t)
  : Field → option Field :=
  match c with
  | (DIRECTION.LEFT, DIRECTION.BOTTOM, DIRECTION.BACK) => corner_LEFT_BOTTOM_BACK e
  | (DIRECTION.LEFT, DIRECTION.BOTTOM, DIRECTION.FRONT) => corner_LEFT_BOTTOM_FRONT e
  | (DIRECTION.LEFT, DIRECTION.TOP, DIRECTION.BACK) => corner_LEFT_TOP_BACK e
  | (DIRECTION.LEFT, DIRECTION.TOP, DIRECTION.FRONT) => corner_LEFT_TOP_FRONT e
  | (DIRECTION.RIGHT, DIRECTION.BOTTOM, DIRECTION.BACK) => corner_RIGHT_BOTTOM_BACK e
  | (DIRECTION.RIGHT, DIRECTION.BOTTOM, DIRECTION.FRONT) => corner_RIGHT_BOTTOM_FRONT e
  | (DIRECTION.RIGHT, DIRECTION.TOP, DIRECTION.BACK) => corner_RIGHT_TOP_BACK e
  | (DIRECTION.RIGHT, DIRECTION.TOP, DIRECTION.FRONT) => corner_RIGHT_TOP_FRONT e
  | _ => Some
  end.

(** The corner cell where three faces meet. *)
Definition on_corner (e : process) (d1 d2 d3 : DIRECTION.t) (x : Z * Z * Z) : Prop :=
  on_face e d1 x ∧ on_face e d2 x ∧ on_face e d3 x.

(** The cells of face [d] that are neither on an edge nor a corner. *)
Definition face_cells (e : process) (d : DIRECTION.t) (x : Z * Z * Z) : Prop :=
  on_face e d x ∧ ∀ a, a ≠ axis d → inside e a x.

(** The cell is inside the block. *)
Definition in_block (e : process) (x : Z * Z * Z) : Prop :=
  ∀ a, 0 ≤ coordinate a x < chunck e a.

(** The cell lies on one of the six face planes of the block. *)
Definition on_boundary (e : process) (x : Z * Z * Z) : Prop :=
  ∃ d, on_face e d x.

(** The update of the source for a face. *)
Definition face_update (e : process) (d : DIRECTION.t)
  : Field → list floatT → Field → option Field :=
  match d with
  | DIRECTION.LEFT => update_LEFT e
  | DIRECTION.RIGHT => update_RIGHT e
  | DIRECTION.BOTTOM => update_BOTTOM e
  | DIRECTION.TOP => update_TOP e
  | DIRECTION.BACK => update_BACK e
  | DIRECTION.FRONT => update_FRONT e
  end.

(** The packing loop of the source for a face. *)
Definition pack_face (e : process) (d : DIRECTION.t)
  : Field → list floatT → option (list floatT) :=
  match d with
  | DIRECTION.LEFT => pack_LEFT e
  | DIRECTION.RIGHT => pack_RIGHT e
  | DIRECTION.BOTTOM => pack_BOTTOM e
  | DIRECTION.TOP => pack_TOP e
  | DIRECTION.BACK => pack_BACK e
  | DIRECTION.FRONT => pack_FRONT e
  end.

(** The two axes along a face: the outer and the inner loop variable of the
    sweeps over that face. *)
Definition transverse (d : DIRECTION.t) : COORDINATE.t * COORDINATE.t :=
  match axis d with
  | COORDINATE.X => (COORDINATE.Y, COORDINATE.Z)
  | COORDINATE.Y => (COORDINATE.X, COORDINATE.Z)
  | COORDINATE.Z => (COORDINATE.X, COORDINATE.Y)
  end.

(** The position in a halo buffer of direction [d] that belongs to the
    face cell [x]: rows of the inner axis, one after the other. *)
Definition slot (e : process) (d : DIRECTION.t) (x : Z * Z * Z) : Z :=
  (coordinate (transverse d).1 x - 1) * (chunck e (transverse d).2 - 2)
  + (coordinate (transverse d).2 x - 1).

(** The number of cells packed for direction [d]. *)
Definition packed (e : process) (d : DIRECTION.t) : Z :=
  (chunck e (transverse d).1 - 2) * (chunck e (transverse d).2 - 2).

#[global] Instance on_face_dec e d x : Decision (on_face e d x).
Proof. destruct d; unfold on_face; apply _. Defined.

(** The boundary-condition step of the source for a face; the bottom face
    has none. *)
Definition bc_step (e : process) (d : DIRECTION.t) : Field → option Field :=
  match d with
  | DIRECTION.TOP => bc_TOP e
  | DIRECTION.LEFT => bc_LEFT e
  | DIRECTION.RIGHT => bc_RIGHT e
  | DIRECTION.BACK => bc_BACK e
  | DIRECTION.FRONT => bc_FRONT e
  | DIRECTION.BOTTOM => Some
  end.

(** The value that step gives to a cell of its face. *)
Definition bc_value (e : process) (d : DIRECTION.t) (x : Z * Z * Z) : floatT :=
  match d with
  | DIRECTION.TOP => 1%float
  | _ => ramp e x.1.2
  end.

(** The face [d] of the process is a boundary of the domain and [x] lies
    on it. *)
Definition boundary_face (e : process) (d : DIRECTION.t) (x : Z * Z * Z) : Prop :=
  neighbors e d = MPI_PROC_NULL ∧ on_face e d x.

(** The value of a cell when the time loop starts: the last boundary
    condition of the source that covers the cell, or zero. *)
Definition initial_value (e : process) (x : Z * Z * Z) : floatT :=
  if decide (boundary_face e DIRECTION.FRONT x) then ramp e x.1.2
  else if decide (boundary_face e DIRECTION.BACK x) then ramp e x.1.2
  else if decide (boundary_face e DIRECTION.RIGHT x) then ramp e x.1.2
  else if decide (boundary_face e DIRECTION.LEFT x) then ramp e x.1.2
  else if decide (boundary_face e DIRECTION.TOP x) then 1%float
  else 0%float.

(** The vectors of a process have the sizes given to them by the setup. *)
Definition wf_state (e : process) (s : state) : Prop :=
  block e (T s) ∧ block e (T0 s) ∧
  (∀ d, Z.of_nat (length (sendBuffer s d)) = buffer_size e d) ∧
  (∀ d, Z.of_nat (length (receiveBuffer s d)) = buffer_size e d).

(** Every strictly interior cell holds [0.0]. *)
Definition interior_zero (e : process) (U : Field) : Prop :=
  ∀ x, interior e x → cell U x = Some 0%float.

(** The processes form a cartesian grid of equal blocks: the neighbour of a
    process in a direction exists and has a neighbour in the opposite
    direction. *)
Definition cartesian_ok (ps : list process) : Prop :=
  ∀ p e d q, ps !! p = Some e → neighbors e d = Some q →
    ∃ e', ps !! q = Some e' ∧ neighbors e' (opposite d) ≠ MPI_PROC_NULL ∧
          ∀ a, chunck e' a = chunck e a.

(** The states of all processes are well-formed, with zero interiors. *)
Definition world_ok (ps : list process) (w : list state) : Prop :=
  length w = length ps ∧
  ∀ p e s, ps !! p = Some e → w !! p = Some s →
    wf_state e s ∧ interior_zero e (T s).

(** The first [n] iterations of the time loop from iteration [time] on,
    were the loop not to stop. *)
Fixpoint iterations (ps : list process) (eps : floatT) (n : nat) (time : Z) (w : list state)
  : option (list state) :=
  match n with
  | O => Some w
  | S n' => w' ← iteration ps eps time w; iterations ps eps n' (time + 1) w'
  end.

(** What every process holds once an iteration is complete: residual and
    normalisation factors are [numeric_limits_min], and the two flags tell
    whether [1 < eps]. *)
Definition settled (eps : floatT) (s : state) : Prop :=
  res s = numeric_limits_min ∧ norm s = numeric_limits_min ∧
  globalNorm s = numeric_limits_min ∧
  breakCondition s = (if PrimFloat.ltb 1 eps then 1 else 0) ∧
  globalBreakCondition s = (if PrimFloat.ltb 1 eps then 1 else 0).

(** The update of the specification for an interior cell:
    [T0 + Dx (T0[i+1] - 2 T0 + T0[i-1]) + Dy (...) + Dz (...)]. *)
Definition stencil_of_the_spec (e : process) (T0 : Field) (x : Z * Z * Z) : option floatT :=
  let '(i, j, k) := x in
  (get T0 i j k +
   const (Dx e) * (get T0 (i + 1) j k - const 2 * get T0 i j k + get T0 (i - 1) j k) +
   const (Dy e) * (get T0 i (j + 1) k - const 2 * get T0 i j k + get T0 i (j - 1) k) +
   const (Dz e) * (get T0 i j (k + 1) - const 2 * get T0 i j k + get T0 i j (k - 1)))%F.

(** The initial conditions as the specification words them: one boundary
    face at 1.0, three boundary faces at a ramp [f], every cell on none of
    these four faces at 0.0. *)
Definition claimed_initial_conditions (e : process) (U : Field) : Prop :=
  ∃ (one r1 r2 r3 : DIRECTION.t) (f : Z * Z * Z → floatT),
    NoDup [one; r1; r2; r3] ∧
    Forall (λ d, neighbors e d = MPI_PROC_NULL) [one; r1; r2; r3] ∧
    (∀ x, face_cells e one x → cell U x = Some 1%float) ∧
    (∀ d x, d ∈ [r1; r2; r3] → face_cells e d x → cell U x = Some (f x)) ∧
    (∀ x, in_block e x → (∀ d, d ∈ [one; r1; r2; r3] → ¬ on_face e d x) →
          cell U x = Some 0%float).

(** Process [p] has not satisfied its convergence test in any of the first
    [n] iterations of the loop entered at iteration [time] with the states
    [w0]: the test of an iteration reads [res] and [norm] as they are when
    that iteration is complete. *)
Definition never_satisfied (ps : list process) (eps : floatT) (time : Z)
    (w0 : list state) (n p : nat) : Prop :=
  ∀ t, (t < n)%nat →
    ∃ w s, iterations ps eps (S t) time w0 = Some w ∧ w !! p = Some s ∧
           convergence_test eps s = false.


(** The five faces to which the source gives boundary values. *)
Definition bc_faces : list DIRECTION.t :=
  [DIRECTION.TOP; DIRECTION.LEFT; DIRECTION.RIGHT; DIRECTION.BACK; DIRECTION.FRONT].

(** The four faces to which the source gives the ramp. *)
Definition ramp_faces : list DIRECTION.t :=
  [DIRECTION.LEFT; DIRECTION.RIGHT; DIRECTION.BACK; DIRECTION.FRONT].

(** ** Predicates for further properties *)

(** The update of one cell from the six values around it, read with [rd]:
    [rd x + Dx (rd[i+1] - 2 rd x + rd[i-1]) + Dy (...) + Dz (...)]. *)
Definition stencil (e : process) (rd : Z * Z * Z → option floatT) (x : Z * Z * Z)
  : option floatT :=
  let '(i, j, k) := x in
  let c := rd (i, j, k) in
  let xp := rd (i + 1, j, k) in let xm := rd (i - 1, j, k) in
  let yp := rd (i, j + 1, k) in let ym := rd (i, j - 1, k) in
  let zp := rd (i, j, k + 1) in let zm := rd (i, j, k - 1) in
  (c + const (Dx e) * (xp - const 2 * c + xm)
     + const (Dy e) * (yp - const 2 * c + ym)
     + const (Dz e) * (zp - const 2 * c + zm))%F.

(** Reading around the face cell [x] of face [d]: the cell one step outside
    the block is taken from the halo buffer, every other cell from [T0]. *)
Definition with_halo (e : process) (d : DIRECTION.t) (T0 : Field) (THalo : list floatT)
    (x : Z * Z * Z) : Z * Z * Z → option floatT :=
  λ y, if decide (y = inward d (-1) x) then at_ THalo (slot e d x) else cell T0 y.

(** The cells of the block that the time loop assigns: the cells of a face
    with a neighbour that are on no edge, the cells of an edge between two
    such faces, and the corner of three such faces. *)
Definition written (e : process) (x : Z * Z * Z) : Prop :=
  (∃ d, neighbors e d ≠ MPI_PROC_NULL ∧ face_cells e d x) ∨
  (∃ d1 d2, (d1, d2) ∈ edge_order ∧ neighbors e d1 ≠ MPI_PROC_NULL ∧
            neighbors e d2 ≠ MPI_PROC_NULL ∧ on_edge e d1 d2 x) ∨
  (∃ d1 d2 d3, (d1, d2, d3) ∈ corner_order ∧ neighbors e d1 ≠ MPI_PROC_NULL ∧
               neighbors e d2 ≠ MPI_PROC_NULL ∧ neighbors e d3 ≠ MPI_PROC_NULL ∧
               on_corner e d1 d2 d3 x).

(** The flag of a process after its convergence test. *)
Definition flag_after (eps : floatT) (s : state) : Z :=
  if convergence_test eps s then 1 else breakCondition s.

(** The states of all processes have vectors of the allocated sizes. *)
Definition world_wf (ps : list process) (w : list state) : Prop :=
  Forall2 wf_state ps w.

(** The flags of the processes hold [false] or [true]. *)
Definition flags_boolean (w : list state) : Prop :=
  Forall (λ s, breakCondition s = 0 ∨ breakCondition s = 1) w.

(** The cell of the neighbour's block that lies one step outside face [d]
    of this block, at the place of the face cell [x]: the neighbouring
    blocks have the same extent and share the plane of the face. *)
Definition halo_source (e : process) (d : DIRECTION.t) (x : Z * Z * Z) : Z * Z * Z :=
  match d with
  | DIRECTION.LEFT => (chunck e COORDINATE.X - 2, x.1.2, x.2)
  | DIRECTION.RIGHT => (1, x.1.2, x.2)
  | DIRECTION.BOTTOM => (x.1.1, chunck e COORDINATE.Y - 2, x.2)
  | DIRECTION.TOP => (x.1.1, 1, x.2)
  | DIRECTION.BACK => (x.1.1, x.1.2, chunck e COORDINATE.Z - 2)
  | DIRECTION.FRONT => (x.1.1, x.1.2, 1)
  end.

(** Reading around the face cell [x] of face [d] across the boundary of
    the block: the cell one step outside is read in the field [Tq] of the
    neighbour, every other cell in the field [Tp] of the process. *)
Definition with_neighbour (e : process) (d : DIRECTION.t) (Tp Tq : Field)
    (x : Z * Z * Z) : Z * Z * Z → option floatT :=
  λ y, if decide (y = inward d (-1) x) then cell Tq (halo_source e d x) else cell Tp y.

(** Running a body over a list of indices. *)
Fixpoint run_over {St A : Type} (body : A → St → option St) (l : list A) (s : St)
  : option St :=
  match l with
  | [] => Some s
  | a :: l => s' ← body a s; run_over body l s'
  end.

(** The cells of a block in the order of the output: [i] runs fastest,
    then [j], then [k]. *)
Definition cells (e : process) : list (Z * Z * Z) :=
  k ← seqZ 0 (chunck e COORDINATE.Z);
  j ← seqZ 0 (chunck e COORDINATE.Y);
  i ← seqZ 0 (chunck e COORDINATE.X);
  [(i, j, k)].

(** The value of a cell of a field that has the cell. *)
Definition value (T : Field) (x : Z * Z * Z) : floatT := default 0%float (cell T x).

(** The point of the output for a cell. *)
Definition point (e : process) (coordinates : COORDINATE.t → Z) (T : Field)
    (rank : option Z) (x : Z * Z * Z) : line :=
  POINT (position e coordinates COORDINATE.X x.1.1)
        (position e coordinates COORDINATE.Y x.1.2)
        (position e coordinates COORDINATE.Z x.2) (value T x) rank.

(** The zone of the output for the block of the process of rank [r]. *)
Definition zone (e0 : process) (r : nat) (es : process * state) : list line :=
  zone_header e0
  :: (point e0 (coordinates3D es.1) (T es.2) (Some (Z.of_nat r)) <$> cells e0).

(** The output file. *)
Definition output_file (ps : list process) (w : list state) : list line :=
  match ps, w with
  | [e0], [s0] =>
      [TITLE; VARIABLES false; zone_header e0]
      ++ (point e0 (coordinates3D e0) (T s0) None <$> cells e0)
  | e0 :: _, _ => [TITLE; VARIABLES true] ++ concat (imap (zone e0) (zip ps w))
  | _, _ => []
  end.

(** ** Concrete processes and runs *)

Module Example.

(** One process, 3 x 3 x 3 cells. *)
Definition alone : cartesian :=
  {| cart_rank := 0; cart_neighbors := λ _, None; cart_coordinates3D := λ _, 0 |}.

Definition cells333 : COORDINATE.t → Z := λ _, 3.
Definition grid111 : COORDINATE.t → Z := λ _, 1.

(** Two processes side by side along x, 5 x 3 x 3 cells. *)
Definition left_half : cartesian :=
  {| cart_rank := 0;
     cart_neighbors := λ d, match d with DIRECTION.RIGHT => Some 1%nat | _ => None end;
     cart_coordinates3D := λ _, 0 |}.

Definition right_half : cartesian :=
  {| cart_rank := 1;
     cart_neighbors := λ d, match d with DIRECTION.LEFT => Some 0%nat | _ => None end;
     cart_coordinates3D := λ d, match d with COORDINATE.X => 1 | _ => 0 end |}.

Definition cells533 : COORDINATE.t → Z :=
  λ d, match d with COORDINATE.X => 5 | _ => 3 end.
Definition grid211 : COORDINATE.t → Z :=
  λ d, match d with COORDINATE.X => 2 | _ => 1 end.

(** 4 x 3 x 3 cells, which two processes along x cannot share. *)
Definition cells433 : COORDINATE.t → Z :=
  λ d, match d with COORDINATE.X => 4 | _ => 3 end.

(** The processes of the two runs. *)
Definition one_process : list process :=
  [process_of alone cells333 grid111].

Definition two_processes : list process :=
  [process_of left_half cells533 grid211; process_of right_half cells533 grid211].

(** A process with six neighbours and a block of 3 x 3 x 3 cells, as in
    the middle of a grid of 3 x 3 x 3 processes over 7 x 7 x 7 cells. *)
Definition inner : process :=
  {| rank := 13;
     neighbors := λ d, match d with
                       | DIRECTION.LEFT => Some 4%nat | DIRECTION.RIGHT => Some 22%nat
                       | DIRECTION.BOTTOM => Some 10%nat | DIRECTION.TOP => Some 16%nat
                       | DIRECTION.BACK => Some 12%nat | DIRECTION.FRONT => Some 14%nat
                       end;
     coordinates3D := λ _, 1;
     chunck := λ _, 3;
     spacing := λ _, 0x1p-3%float;
     Dx := 0x1p-4%float; Dy := 0x1p-4%float; Dz := 0x1p-4%float |}.

(** A field of 3 x 3 x 3 cells whose value at (i, j, k) is 9 i + 3 j + k. *)
Definition field333 : Field :=
  [ [ [0; 1; 2]; [3; 4; 5]; [6; 7; 8] ];
    [ [9; 10; 11]; [12; 13; 14]; [15; 16; 17] ];
    [ [18; 19; 20]; [21; 22; 23]; [24; 25; 26] ] ]%float.

(** Halo buffers of a process with six neighbours and 3 x 3 x 3 cells. *)
Definition halo333 : DIRECTION.t → list floatT :=
  λ _, [0.5; 1.5; 2.5; 3.5]%float.

(** A state of [inner] in the time loop. *)
Definition state333 : state :=
  {| T := field333; T0 := field333;
     sendBuffer := halo333; receiveBuffer := halo333;
     res := 0%float; norm := 1%float; globalNorm := 1%float;
     breakCondition := 0; globalBreakCondition := 0; finalNumIterations := 0 |}.

(** The middle cell of a face of a block of 3 x 3 x 3 cells. *)
Definition centre (d : DIRECTION.t) : Z * Z * Z :=
  match d with
  | DIRECTION.LEFT => (0, 1, 1) | DIRECTION.RIGHT => (2, 1, 1)
  | DIRECTION.BOTTOM => (1, 0, 1) | DIRECTION.TOP => (1, 2, 1)
  | DIRECTION.BACK => (1, 1, 0) | DIRECTION.FRONT => (1, 1, 2)
  end.

(** A grid of 2 x 2 x 1 processes, and its last process, over 3 x 3 x 3
    cells: blocks of 2 x 2 x 3 cells. *)
Definition grid221 : COORDINATE.t → Z :=
  λ d, match d with COORDINATE.Z => 1 | _ => 2 end.

Definition quarter : cartesian :=
  {| cart_rank := 3;
     cart_neighbors := λ d, match d with
                            | DIRECTION.LEFT => Some 1%nat
                            | DIRECTION.BOTTOM => Some 2%nat
                            | _ => None
                            end;
     cart_coordinates3D := λ d, match d with COORDINATE.Z => 0 | _ => 1 end |}.

(** The four processes of a grid of 2 x 2 x 1 processes, by rank; with
    [quarter] they share 3 x 3 x 3 cells in blocks of 2 x 2 x 3 cells. *)
Definition origin : cartesian :=
  {| cart_rank := 0;
     cart_neighbors := λ d, match d with
                            | DIRECTION.RIGHT => Some 2%nat
                            | DIRECTION.TOP => Some 1%nat
                            | _ => None
                            end;
     cart_coordinates3D := λ _, 0 |}.

Definition above : cartesian :=
  {| cart_rank := 1;
     cart_neighbors := λ d, match d with
                            | DIRECTION.RIGHT => Some 3%nat
                            | DIRECTION.BOTTOM => Some 0%nat
                            | _ => None
                            end;
     cart_coordinates3D := λ d, match d with COORDINATE.Y => 1 | _ => 0 end |}.

Definition beside : cartesian :=
  {| cart_rank := 2;
     cart_neighbors := λ d, match d with
                            | DIRECTION.LEFT => Some 0%nat
                            | DIRECTION.TOP => Some 3%nat
                            | _ => None
                            end;
     cart_coordinates3D := λ d, match d with COORDINATE.X => 1 | _ => 0 end |}.

Definition four_ranks : list cartesian := [origin; above; beside; quarter].


Definition bump333 : Field :=
  [ [ [0; 0; 0]; [0; 0; 0]; [0; 0; 0] ];
    [ [0; 0; 0]; [0; 1; 0]; [0; 0; 0] ];
    [ [0; 0; 0]; [0; 0; 0]; [0; 0; 0] ] ]%float.




End Example.

(** * Properties *)

(** ** Unsigned arithmetic without wrap-around *)

Lemma u32_small z : 0 ≤ z < 2 ^ 32 → u32 z = z.
Proof. intros Hz. unfold u32. by apply Z.mod_small. Qed.

Lemma usub_small a b : 0 ≤ a - b < 2 ^ 32 → usub a b = a - b.
Proof. apply u32_small. Qed.

Lemma uadd_small a b : 0 ≤ a + b < 2 ^ 32 → uadd a b = a + b.
Proof. apply u32_small. Qed.

Lemma umul_small a b : 0 ≤ a * b < 2 ^ 32 → umul a b = a * b.
Proof. apply u32_small. Qed.

Lemma u32_range z : 0 ≤ u32 z < 2 ^ 32.
Proof. unfold u32. apply Z.mod_pos_bound. lia. Qed.

(** Rewrites every unsigned operation whose result provably fits. *)
Ltac unwrap :=
  repeat match goal with
    | |- context [usub ?a ?b] => rewrite (usub_small a b) by lia
    | |- context [uadd ?a ?b] => rewrite (uadd_small a b) by lia
    | |- context [umul ?a ?b] => rewrite (umul_small a b) by nia
    | |- context [u32 ?a] => rewrite (u32_small a) by lia
    end.

(** ** Vectors *)

Lemma at_Some {A} (v : list A) i x :
  at_ v i = Some x ↔ 0 ≤ i < Z.of_nat (length v) ∧ v !! Z.to_nat i = Some x.
Proof. unfold at_. case_decide; intuition congruence. Qed.

Lemma at_is_Some {A} (v : list A) i :
  0 ≤ i < Z.of_nat (length v) → is_Some (at_ v i).
Proof.
  intros Hi. unfold at_. rewrite decide_True by done.
  apply lookup_lt_is_Some. lia.
Qed.

Lemma at_None {A} (v : list A) i :
  ¬ (0 ≤ i < Z.of_nat (length v)) → at_ v i = None.
Proof. intros Hi. unfold at_. by rewrite decide_False. Qed.

Lemma put_spec {A} (v : list A) i x :
  0 ≤ i < Z.of_nat (length v) →
  ∃ v', put v i (Some x) = Some v' ∧ length v' = length v ∧
        at_ v' i = Some x ∧ ∀ j, j ≠ i → at_ v' j = at_ v j.
Proof.
  intros Hi. destruct (at_is_Some v i Hi) as [y Hy].
  exists (<[Z.to_nat i := x]> v). unfold put. simpl. rewrite Hy. simpl.
  split; [done|]. split; [apply length_insert|]. split.
  - unfold at_. rewrite length_insert, decide_True by done.
    apply list_lookup_insert_eq. lia.
  - intros j Hj. unfold at_. rewrite length_insert.
    case_decide; [|done]. apply list_lookup_insert_ne. lia.
Qed.

(** ** The field *)

Lemma shape_plane nx ny nz T i plane :
  shape nx ny nz T → T !! i = Some plane →
  Z.of_nat (length plane) = ny ∧
  Forall (λ row : list floatT, Z.of_nat (length row) = nz) plane.
Proof.
  intros [_ HT] Hi. rewrite Forall_lookup in HT. by apply (HT i).
Qed.

Lemma get_Some nx ny nz T i j k :
  shape nx ny nz T →
  is_Some (get T i j k) ↔ (0 ≤ i < nx ∧ 0 ≤ j < ny ∧ 0 ≤ k < nz).
Proof.
  intros HT. unfold get. split.
  - intros [x Hx].
    destruct (at_ T i) as [plane|] eqn:Hp; [|done]. simpl in Hx.
    destruct (at_ plane j) as [row|] eqn:Hr; [|done]. simpl in Hx.
    apply at_Some in Hp as [Hi Hp], Hr as [Hj Hr], Hx as [Hk _].
    destruct (shape_plane _ _ _ _ _ _ HT Hp) as [Hny Hrows].
    rewrite Forall_lookup in Hrows. specialize (Hrows _ _ Hr).
    destruct HT as [Hnx _]. lia.
  - intros (Hi & Hj & Hk). pose proof HT as [Hnx _].
    destruct (at_is_Some T i) as [plane Hp]; [lia|]. rewrite Hp. simpl.
    pose proof Hp as [_ Hp']%at_Some.
    destruct (shape_plane _ _ _ _ _ _ HT Hp') as [Hny Hrows].
    destruct (at_is_Some plane j) as [row Hr]; [lia|]. rewrite Hr. simpl.
    pose proof Hr as [_ Hr']%at_Some.
    rewrite Forall_lookup in Hrows. specialize (Hrows _ _ Hr').
    apply at_is_Some. lia.
Qed.

Lemma get_None nx ny nz T i j k :
  shape nx ny nz T → ¬ (0 ≤ i < nx ∧ 0 ≤ j < ny ∧ 0 ≤ k < nz) → get T i j k = None.
Proof.
  intros HT Hn. destruct (get T i j k) eqn:Hg; [|done].
  exfalso. apply Hn. eapply get_Some; eauto.
Qed.

Lemma shape_alter nx ny nz T i j k (x : floatT) :
  shape nx ny nz T →
  shape nx ny nz (alter (alter (<[k := x]>) j) i T).
Proof.
  intros [Hnx HT]. split; [by rewrite length_alter|].
  rewrite Forall_lookup in HT. apply Forall_lookup. intros a plane Ha.
  rewrite list_lookup_alter in Ha. case_decide as Hia; [|by eapply HT].
  subst a. destruct (T !! i) as [p|] eqn:Hp; [|done]. simpl in Ha.
  injection Ha as <-. destruct (HT _ _ Hp) as [Hny Hrows].
  split; [by rewrite length_alter|].
  rewrite Forall_lookup in Hrows. apply Forall_lookup. intros b row Hb.
  rewrite list_lookup_alter in Hb. case_decide as Hjb; [|by eapply Hrows].
  subst b. destruct (p !! j) as [r|] eqn:Hr; [|done]. simpl in Hb.
  injection Hb as <-. rewrite length_insert. by eapply Hrows.
Qed.

Lemma get_alter_eq nx ny nz T i j k (x : floatT) :
  shape nx ny nz T → 0 ≤ i < nx → 0 ≤ j < ny → 0 ≤ k < nz →
  get (alter (alter (<[Z.to_nat k := x]>) (Z.to_nat j)) (Z.to_nat i) T) i j k = Some x.
Proof.
  intros HT Hi Hj Hk. pose proof HT as [Hnx _].
  destruct (lookup_lt_is_Some_2 T (Z.to_nat i)) as [plane Hp]; [lia|].
  destruct (shape_plane _ _ _ _ _ _ HT Hp) as [Hny Hrows].
  destruct (lookup_lt_is_Some_2 plane (Z.to_nat j)) as [row Hr]; [lia|].
  rewrite Forall_lookup in Hrows. specialize (Hrows _ _ Hr).
  unfold get, at_. rewrite length_alter, decide_True by lia.
  rewrite list_lookup_alter_eq, Hp. simpl.
  rewrite length_alter, decide_True by lia.
  rewrite list_lookup_alter_eq, Hr. simpl.
  rewrite length_insert, decide_True by lia.
  apply list_lookup_insert_eq. lia.
Qed.

Lemma get_alter_ne T i j k a b c (x : floatT) :
  0 ≤ i → 0 ≤ j → 0 ≤ k →
  (a, b, c) ≠ (i, j, k) →
  get (alter (alter (<[Z.to_nat k := x]>) (Z.to_nat j)) (Z.to_nat i) T) a b c = get T a b c.
Proof.
  intros Hi Hj Hk Hne. unfold get, at_. rewrite length_alter.
  case_decide as Ha; [|done].
  rewrite list_lookup_alter. case_decide as Hia; [|done].
  assert (a = i) as -> by lia.
  destruct (T !! Z.to_nat i) as [plane|] eqn:Hp; [|done]. simpl.
  rewrite length_alter. case_decide as Hb; [|done].
  rewrite list_lookup_alter. case_decide as Hjb; [|done].
  assert (b = j) as -> by lia.
  destruct (plane !! Z.to_nat j) as [row|] eqn:Hr; [|done]. simpl.
  rewrite length_insert. case_decide as Hc; [|done].
  apply list_lookup_insert_ne. intros Hkc.
  assert (c = k) as -> by lia. done.
Qed.

(** The assignment [T[i][j][k] = x] inside the block. *)
Lemma set_spec nx ny nz T i j k x :
  shape nx ny nz T → 0 ≤ i < nx → 0 ≤ j < ny → 0 ≤ k < nz →
  ∃ T', set T i j k (Some x) = Some T' ∧ shape nx ny nz T' ∧
        get T' i j k = Some x ∧
        ∀ a b c, (a, b, c) ≠ (i, j, k) → get T' a b c = get T a b c.
Proof.
  intros HT Hi Hj Hk.
  destruct (proj2 (get_Some _ _ _ _ i j k HT)) as [y Hy]; [done|].
  eexists. unfold set. simpl. rewrite Hy. simpl. split; [done|].
  split; [by apply shape_alter|]. split.
  - by eapply get_alter_eq.
  - intros a b c Hne. apply get_alter_ne; [lia..|done].
Qed.

Lemma shape_resize3 nx ny nz :
  0 ≤ nx → 0 ≤ ny → 0 ≤ nz → shape nx ny nz (resize3 nx ny nz).
Proof.
  intros Hx Hy Hz. unfold resize3. split.
  - rewrite length_replicate. lia.
  - apply Forall_replicate. split; [rewrite length_replicate; lia|].
    apply Forall_replicate. rewrite length_replicate. lia.
Qed.

(** Two fields of the same extent with the same cells are equal. *)
Lemma field_ext nx ny nz (T T' : Field) :
  shape nx ny nz T → shape nx ny nz T' →
  (∀ i j k, get T i j k = get T' i j k) → T = T'.
Proof.
  intros HT HT' Hget. pose proof HT as [Hnx _]. pose proof HT' as [Hnx' _].
  apply list_eq_same_length with (length T); [lia|lia|].
  intros a plane plane' Ha Hp Hp'.
  destruct (shape_plane _ _ _ _ _ _ HT Hp) as [Hny Hrows].
  destruct (shape_plane _ _ _ _ _ _ HT' Hp') as [Hny' Hrows'].
  apply list_eq_same_length with (length plane); [lia|lia|].
  intros b row row' Hb Hr Hr'.
  rewrite Forall_lookup in Hrows, Hrows'.
  specialize (Hrows _ _ Hr). specialize (Hrows' _ _ Hr').
  apply list_eq_same_length with (length row); [lia|lia|].
  intros c x x' Hc Hx Hx'.
  specialize (Hget (Z.of_nat a) (Z.of_nat b) (Z.of_nat c)).
  unfold get, at_ in Hget.
  rewrite !Nat2Z.id in Hget.
  rewrite !decide_True in Hget by lia. rewrite Hp, Hp' in Hget. simpl in Hget.
  rewrite !decide_True in Hget by lia. rewrite Hr, Hr' in Hget. simpl in Hget.
  rewrite !decide_True in Hget by lia. congruence.
Qed.

(** ** Loops *)

Lemma for_loop_inv {St} (I : Z → St → Prop) (body : Z → St → option St) n lo s :
  I lo s →
  (∀ i s, lo ≤ i < lo + Z.of_nat n → I i s → ∃ s', body i s = Some s' ∧ I (i + 1) s') →
  ∃ s', for_loop n lo body s = Some s' ∧ I (lo + Z.of_nat n) s'.
Proof.
  revert lo s. induction n as [|n IH]; intros lo s Hs Hbody.
  - exists s. split; [done|]. by replace (lo + Z.of_nat 0) with lo by lia.
  - destruct (Hbody lo s) as (s1 & Hs1 & HI1); [lia|done|].
    destruct (IH (lo + 1) s1) as (s2 & Hs2 & HI2); [done| |].
    + intros i s' Hi. apply Hbody. lia.
    + exists s2. simpl. rewrite Hs1. simpl. split; [done|].
      by replace (lo + Z.of_nat (S n)) with (lo + 1 + Z.of_nat n) by lia.
Qed.

(** The invariant rule of [for (i = lo; i < hi; ++i)]. *)
Lemma for_range_inv {St} (I : Z → St → Prop) (body : Z → St → option St) lo hi s :
  lo ≤ hi → I lo s →
  (∀ i s, lo ≤ i < hi → I i s → ∃ s', body i s = Some s' ∧ I (i + 1) s') →
  ∃ s', for_range lo hi body s = Some s' ∧ I hi s'.
Proof.
  intros Hle Hs Hbody. unfold for_range.
  destruct (for_loop_inv I body (Z.to_nat (hi - lo)) lo s) as (s' & Hs' & HI);
    [done| |].
  - intros i s1 Hi. apply Hbody. lia.
  - exists s'. split; [done|].
    by replace (lo + Z.of_nat (Z.to_nat (hi - lo))) with hi in HI by lia.
Qed.

Lemma for_range_empty {St} (body : Z → St → option St) lo hi s :
  hi ≤ lo → for_range lo hi body s = Some s.
Proof.
  intros Hle. unfold for_range. by replace (Z.to_nat (hi - lo)) with O by lia.
Qed.

(** A loop whose [t]-th round assigns the locations [W t]. *)
Lemma for_range_assigns {St Idx} (rd : St → Idx → option floatT)
    (P : Z → St → Prop) (W : Z → Idx → Prop) (V : Idx → option floatT)
    (body : Z → St → option St) lo hi s0 :
  lo ≤ hi → P lo s0 →
  (∀ t x, W t x ∨ ¬ W t x) →
  (∀ t s, lo ≤ t < hi → P t s →
     assigns rd (λ x, ∃ t', lo ≤ t' < t ∧ W t' x) V s0 s →
     ∃ s', body t s = Some s' ∧ P (t + 1) s' ∧ assigns rd (W t) V s s') →
  ∃ s', for_range lo hi body s0 = Some s' ∧ P hi s' ∧
        assigns rd (λ x, ∃ t, lo ≤ t < hi ∧ W t x) V s0 s'.
Proof.
  intros Hle HP Hdec Hbody.
  destruct (for_range_inv
              (λ t s, P t s ∧ assigns rd (λ x, ∃ t', lo ≤ t' < t ∧ W t' x) V s0 s)
              body lo hi s0) as (s' & Hs' & HP' & Ha'); [done| | |by eauto].
  - split; [done|]. split; [|done]. intros x (t' & Ht' & _). lia.
  - intros t s Ht [HPs Has].
    destruct (Hbody t s Ht HPs Has) as (s' & Hs' & HP' & [Hw Hf]).
    exists s'. split; [done|]. split; [done|]. destruct Has as [Hw0 Hf0]. split.
    + intros x (t' & Ht' & HW).
      destruct (Hdec t x) as [Hx|Hx]; [by apply Hw|].
      rewrite Hf by done. apply Hw0. exists t'. split; [|done].
      destruct (decide (t' = t)) as [->|]; [done|lia].
    + intros x Hx. rewrite Hf, Hf0; [done| |].
      * intros (t' & Ht' & HW). apply Hx. exists t'. split; [lia|done].
      * intros HW. apply Hx. exists t. split; [lia|done].
Qed.

(** ** Reading and writing the field inside loops *)

Lemma lift2_Some f x y : lift2 f (Some x) (Some y) = Some (f x y).
Proof. done. Qed.

#[global] Arguments lift2 : simpl never.
#[global] Arguments const : simpl never.
#[global] Arguments at_ : simpl never.
#[global] Arguments put : simpl never.
#[global] Arguments get : simpl never.
#[global] Arguments set : simpl never.

(** Evaluates arithmetic on values that have been read. *)
Ltac lift_simpl := unfold const; rewrite ?lift2_Some.

Lemma lift2_is_Some f a b : is_Some a → is_Some b → is_Some (lift2 f a b).
Proof. intros [x ->] [y ->]. by eexists. Qed.

Lemma set_assigns nx ny nz T i j k v (V : Z * Z * Z → option floatT) :
  shape nx ny nz T → 0 ≤ i < nx → 0 ≤ j < ny → 0 ≤ k < nz →
  is_Some v → V (i, j, k) = v →
  ∃ T', set T i j k v = Some T' ∧ shape nx ny nz T' ∧
        assigns cell (λ x, x = (i, j, k)) V T T'.
Proof.
  intros HT Hi Hj Hk [x ->] HV.
  destruct (set_spec nx ny nz T i j k x) as (T' & Hset & HT' & Hget & Hframe);
    [done..|].
  exists T'. split; [done|]. split; [done|]. split.
  - intros y ->. by rewrite HV.
  - intros [[a b] c] Hne. by apply Hframe.
Qed.

(** The extents of a block fit an [unsigned]. *)
Lemma block_ok_unsigned e :
  block_ok e →
  chunck e COORDINATE.X < 2 ^ 32 ∧ chunck e COORDINATE.Y < 2 ^ 32 ∧
  chunck e COORDINATE.Z < 2 ^ 32.
Proof. intros (Hx & Hy & Hz & Hyz & Hxz & Hxy). repeat split; nia. Qed.

(** Destructs [block_ok] and keeps the linear bounds at hand. *)
Ltac block_bounds H :=
  let Hu := fresh "Hu" in
  pose proof (block_ok_unsigned _ H) as Hu;
  destruct Hu as (Hux & Huy & Huz);
  destruct H as (Hx & Hy & Hz & Hyz & Hxz & Hxy).

(** The position of a cell in a packed face, and the size of the face. *)
Lemma slot_bound a b n m :
  1 ≤ a < n - 1 → 1 ≤ b < m - 1 →
  0 ≤ (a - 1) * (m - 1 - 1) + (b - 1) < (n - 1) * (m - 1).
Proof. intros Ha Hb. nia. Qed.

Lemma face_bound n m :
  3 ≤ n → 3 ≤ m → (n - 1) * (m - 1) < 2 ^ 32 →
  0 ≤ (n - 1 - 1) * (m - 1 - 1) < 2 ^ 32.
Proof. intros Hn Hm H. nia. Qed.

(** ** Edge extrapolation *)

(** A loop that sets the cells [p t] to [2 * T[q t] - T[r t]], where no
    cell read is a cell written. *)
Lemma extrapolate_spec nx ny nz (pi pj pk qi qj qk ri rj rk : Z → Z) lo hi (T : Field) :
  shape nx ny nz T → lo ≤ hi →
  (∀ t, lo ≤ t < hi →
     (0 ≤ pi t < nx ∧ 0 ≤ pj t < ny ∧ 0 ≤ pk t < nz) ∧
     (0 ≤ qi t < nx ∧ 0 ≤ qj t < ny ∧ 0 ≤ qk t < nz) ∧
     (0 ≤ ri t < nx ∧ 0 ≤ rj t < ny ∧ 0 ≤ rk t < nz)) →
  (∀ t t', lo ≤ t < hi → lo ≤ t' < hi →
     (pi t, pj t, pk t) ≠ (qi t', qj t', qk t') ∧
     (pi t, pj t, pk t) ≠ (ri t', rj t', rk t')) →
  (∀ t t', lo ≤ t < hi → lo ≤ t' < hi →
     (pi t, pj t, pk t) = (pi t', pj t', pk t') → t = t') →
  ∃ T', for_range lo hi (λ t T,
          set T (pi t) (pj t) (pk t)
            (const 2 * get T (qi t) (qj t) (qk t) - get T (ri t) (rj t) (rk t))%F) T
        = Some T' ∧
        shape nx ny nz T' ∧
        (∀ t, lo ≤ t < hi →
           get T' (pi t) (pj t) (pk t)
           = (const 2 * get T (qi t) (qj t) (qk t) - get T (ri t) (rj t) (rk t))%F) ∧
        (∀ x, (∀ t, lo ≤ t < hi → x ≠ (pi t, pj t, pk t)) → cell T' x = cell T x).
Proof.
  intros HT Hle Hin Hrw Hinj.
  destruct (for_range_inv
    (λ n (U : Field), shape nx ny nz U ∧
       (∀ t, lo ≤ t < n →
          get U (pi t) (pj t) (pk t)
          = (const 2 * get T (qi t) (qj t) (qk t) - get T (ri t) (rj t) (rk t))%F) ∧
       (∀ x, (∀ t, lo ≤ t < n → x ≠ (pi t, pj t, pk t)) → cell U x = cell T x))
    (λ t T, set T (pi t) (pj t) (pk t)
       (const 2 * get T (qi t) (qj t) (qk t) - get T (ri t) (rj t) (rk t))%F)
    lo hi T) as (T' & HT' & Hsh & Hval & Hfr); [done| | |by eauto].
  - split; [done|]. split; [intros; lia|done].
  - intros n U Hn (HU & Hval & Hfr).
    destruct (Hin n Hn) as (Hp & Hq & Hr).
    assert (get U (qi n) (qj n) (qk n) = get T (qi n) (qj n) (qk n)) as Eq.
    { apply (Hfr (qi n, qj n, qk n)). intros t Ht E.
      destruct (Hrw t n) as [Hne _]; [lia|lia|]. by apply Hne. }
    assert (get U (ri n) (rj n) (rk n) = get T (ri n) (rj n) (rk n)) as Er.
    { apply (Hfr (ri n, rj n, rk n)). intros t Ht E.
      destruct (Hrw t n) as [_ Hne]; [lia|lia|]. by apply Hne. }
    destruct (proj2 (get_Some _ _ _ _ (qi n) (qj n) (qk n) HT)) as [vq Hvq]; [done|].
    destruct (proj2 (get_Some _ _ _ _ (ri n) (rj n) (rk n) HT)) as [vr Hvr]; [done|].
    rewrite Eq, Er, Hvq, Hvr. lift_simpl.
    destruct (set_spec nx ny nz U (pi n) (pj n) (pk n) (2 * vq - vr)%float)
      as (U' & Hset & HU' & Hget & Hframe); [done|lia|lia|lia|].
    exists U'. split; [done|]. split; [done|]. split.
    + intros t Ht. destruct (decide (t = n)) as [->|Hne].
      * rewrite Hget, Hvq, Hvr. by lift_simpl.
      * rewrite Hframe; [apply Hval; lia|].
        intros E. apply Hne. apply Hinj; [lia|lia|done].
    + intros [[a b] c] Hx. unfold cell. simpl. rewrite Hframe.
      * apply (Hfr (a, b, c)). intros t Ht. apply Hx. lia.
      * apply Hx. lia.
Qed.

Lemma on_edge_inv e d1 d2 x :
  on_edge e d1 d2 x →
  on_face e d1 x ∧ on_face e d2 x ∧
  (COORDINATE.X ≠ axis d1 → COORDINATE.X ≠ axis d2 → inside e COORDINATE.X x) ∧
  (COORDINATE.Y ≠ axis d1 → COORDINATE.Y ≠ axis d2 → inside e COORDINATE.Y x) ∧
  (COORDINATE.Z ≠ axis d1 → COORDINATE.Z ≠ axis d2 → inside e COORDINATE.Z x).
Proof. intros (H1 & H2 & H3). split; [done|]. split; [done|]. repeat split; intros; by apply H3. Qed.

(** Brings the loop of an edge to the form of [extrapolate_spec]. *)
Ltac use_extrapolate HT :=
  match goal with
  | |- context [for_range ?lo ?hi
                  (λ t U, set U (@?pi t) (@?pj t) (@?pk t)
                            (lift2 PrimFloat.sub
                               (lift2 PrimFloat.mul (const 2) (get U (@?qi t) (@?qj t) (@?qk t)))
                               (get U (@?ri t) (@?rj t) (@?rk t)))) ?T] =>
      destruct (extrapolate_spec _ _ _ pi pj pk qi qj qk ri rj rk lo hi T HT)
        as (T' & -> & HT' & Hval & Hfr);
      [lia | intros; simpl; lia
      | intros; simpl; split; intros [=]; lia
      | intros ? ? ? ? [=]; lia |]
  end.

Lemma edge_loop_spec e d1 d2 (T : Field) :
  (d1, d2) ∈ edge_order → block_ok e → block e T →
  ∃ T', edge_loop e (d1, d2) T = Some T' ∧ block e T' ∧
    (neighbors e d1 ≠ MPI_PROC_NULL → neighbors e d2 ≠ MPI_PROC_NULL →
     ∀ x, on_edge e d1 d2 x →
       cell T' x = (const 2 * cell T (inward d1 1 x) - cell T (inward d1 2 x))%F) ∧
    (∀ x, ¬ (neighbors e d1 ≠ MPI_PROC_NULL ∧ neighbors e d2 ≠ MPI_PROC_NULL ∧
             on_edge e d1 d2 x) →
       cell T' x = cell T x).
Proof.
  intros Hin Hok HT. block_bounds Hok. unfold block in *.
  unfold edge_order in Hin.
  repeat (apply elem_of_cons in Hin as [Hin|Hin]; [injection Hin as -> ->|]);
    try (by apply elem_of_nil in Hin);
    simpl edge_loop;
    unfold edge_LEFT_BOTTOM, edge_LEFT_TOP, edge_LEFT_BACK, edge_LEFT_FRONT,
      edge_RIGHT_BOTTOM, edge_RIGHT_TOP, edge_RIGHT_BACK, edge_RIGHT_FRONT,
      edge_BACK_BOTTOM, edge_BACK_TOP, edge_FRONT_BOTTOM, edge_FRONT_TOP;
    (destruct (decide _) as [Hn1|Hn1];
       [destruct (decide _) as [Hn2|Hn2]|];
       [ | exists T; split; [done|]; split; [done|]; split; [done|done] .. ]);
    cbv zeta; unwrap; use_extrapolate HT;
    (exists T'; split; [done|]; split; [done|]; split;
     [ intros _ _ [[a b] c] Hed%on_edge_inv;
       unfold on_face, inside, cell, inward, axis, coordinate in *; simpl in *;
       destruct Hed as (Ha & Hb & HiX & HiY & HiZ);
       try specialize (HiX ltac:(done) ltac:(done));
       try specialize (HiY ltac:(done) ltac:(done));
       try specialize (HiZ ltac:(done) ltac:(done));
       subst;
       first [ rewrite <- (Hval c) by lia | rewrite <- (Hval b) by lia
             | rewrite <- (Hval a) by lia ];
       repeat f_equal; lia
     | intros [[a b] c] Hno; apply Hfr; intros t Ht [=]; apply Hno;
       split; [done|]; split; [done|];
       unfold on_edge, on_face, inside, axis, coordinate; simpl;
       split; [lia|]; split; [lia|];
       intros [] ? ?; simpl; first [done | lia] ]).
Qed.

(** ** Corner averaging *)

Lemma corner_step_spec e d1 d2 d3 (T : Field) :
  (d1, d2, d3) ∈ corner_order → block_ok e → block e T →
  ∃ T', corner_step e (d1, d2, d3) T = Some T' ∧ block e T' ∧
    (neighbors e d1 ≠ MPI_PROC_NULL → neighbors e d2 ≠ MPI_PROC_NULL →
     neighbors e d3 ≠ MPI_PROC_NULL →
     ∀ x, on_corner e d1 d2 d3 x →
       cell T' x = (const (1 / 3) * (cell T (inward d1 1 x) + cell T (inward d2 1 x)
                                     + cell T (inward d3 1 x)))%F) ∧
    (∀ x, ¬ (neighbors e d1 ≠ MPI_PROC_NULL ∧ neighbors e d2 ≠ MPI_PROC_NULL ∧
             neighbors e d3 ≠ MPI_PROC_NULL ∧ on_corner e d1 d2 d3 x) →
       cell T' x = cell T x).
Proof.
  intros Hin Hok HT. block_bounds Hok. unfold block in *.
  unfold corner_order in Hin.
  repeat (apply elem_of_cons in Hin as [Hin|Hin]; [injection Hin as -> -> ->|]);
    try (by apply elem_of_nil in Hin);
    simpl corner_step;
    unfold corner_LEFT_BOTTOM_BACK, corner_LEFT_BOTTOM_FRONT, corner_LEFT_TOP_BACK,
      corner_LEFT_TOP_FRONT, corner_RIGHT_BOTTOM_BACK, corner_RIGHT_BOTTOM_FRONT,
      corner_RIGHT_TOP_BACK, corner_RIGHT_TOP_FRONT;
    (destruct (decide _) as [(Hn1 & Hn2 & Hn3)|Hn];
     [ | exists T; split; [done|]; split; [done|]; split;
         [intros; exfalso; by apply Hn
         |done] ]);
    cbv zeta; unwrap;
    match goal with
    | |- context [set T ?i ?j ?k (lift2 _ _ (lift2 _ (lift2 _ (get T ?a1 ?b1 ?c1)
                    (get T ?a2 ?b2 ?c2)) (get T ?a3 ?b3 ?c3)))] =>
        destruct (proj2 (get_Some _ _ _ _ a1 b1 c1 HT)) as [v1 Hv1]; [lia|];
        destruct (proj2 (get_Some _ _ _ _ a2 b2 c2 HT)) as [v2 Hv2]; [lia|];
        destruct (proj2 (get_Some _ _ _ _ a3 b3 c3 HT)) as [v3 Hv3]; [lia|];
        rewrite Hv1, Hv2, Hv3; lift_simpl;
        destruct (set_spec _ _ _ T i j k (1 / 3 * (v1 + v2 + v3))%float HT)
          as (T' & -> & HT' & Hget & Hframe); [lia|lia|lia|]
    end;
    (exists T'; split; [done|]; split; [done|]; split;
     [ intros _ _ _ [[a b] c] (Ha & Hb & Hc);
       unfold on_face, cell, inward, axis, coordinate in *; simpl in *; subst;
       rewrite Hget;
       repeat match goal with
         | H : get T ?a ?b ?c = Some _ |- context [get T ?a' ?b' ?c'] =>
             replace (get T a' b' c') with (get T a b c) by (repeat f_equal; lia);
             rewrite H; clear H
         end; by lift_simpl
     | intros [[a b] c] Hno; apply Hframe; intros [=]; apply Hno;
       split; [done|]; split; [done|]; split; [done|];
       unfold on_corner, on_face, axis, coordinate; simpl; lia ]).
Qed.

(** ** Sweeps over a face *)

(** Two nested loops that assign the cells [p a b], counting the cells
    visited; the values assigned do not depend on the field assigned to. *)
Lemma sweep_spec nx ny nz (pi pj pk : Z → Z → Z) (val : Z → Z → Z → option floatT)
    (W : Z * Z * Z → Prop) lo1 hi1 lo2 hi2 (T : Field) :
  shape nx ny nz T → lo1 ≤ hi1 → lo2 ≤ hi2 → (hi1 - lo1) * (hi2 - lo2) < 2 ^ 32 →
  (∀ a b, lo1 ≤ a < hi1 → lo2 ≤ b < hi2 →
     (0 ≤ pi a b < nx ∧ 0 ≤ pj a b < ny ∧ 0 ≤ pk a b < nz) ∧
     W (pi a b, pj a b, pk a b) ∧
     is_Some (val a b ((a - lo1) * (hi2 - lo2) + (b - lo2)))) →
  ∃ T', for_range lo1 hi1 (λ a,
          for_range lo2 hi2 (λ b '(T, counter),
            T ← set T (pi a b) (pj a b) (pk a b) (val a b counter);
            Some (T, uadd counter 1))) (T, 0)
        = Some (T', (hi1 - lo1) * (hi2 - lo2)) ∧
        shape nx ny nz T' ∧
        (∀ x, ¬ W x → cell T' x = cell T x).
Proof.
  intros HT H1 H2 Hsz Hbody.
  set (m := hi2 - lo2).
  destruct (for_range_inv
    (λ a (s : Field * Z), shape nx ny nz s.1 ∧ s.2 = (a - lo1) * m ∧
       ∀ x, ¬ W x → cell s.1 x = cell T x)
    (λ a, for_range lo2 hi2 (λ b '(T, counter),
            T ← set T (pi a b) (pj a b) (pk a b) (val a b counter);
            Some (T, uadd counter 1)))
    lo1 hi1 (T, 0)) as ([T' c] & Hrun & HT' & Hc & Hfr); [done| | |].
  - simpl. split; [done|]. split; [lia|done].
  - intros a [U c] Ha (HU & Hc & Hfr). simpl in *.
    destruct (for_range_inv
      (λ b (s : Field * Z), shape nx ny nz s.1 ∧ s.2 = (a - lo1) * m + (b - lo2) ∧
         ∀ x, ¬ W x → cell s.1 x = cell T x)
      (λ b '(T, counter),
            T ← set T (pi a b) (pj a b) (pk a b) (val a b counter);
            Some (T, uadd counter 1))
      lo2 hi2 (U, c)) as ([U' c'] & Hrun & HU' & Hc' & Hfr'); [done| | |].
    + simpl. split; [done|]. split; [lia|done].
    + intros b [U1 c1] Hb (HU1 & Hc1 & Hfr1). simpl in *.
      destruct (Hbody a b Ha Hb) as (Hp & HW & [v Hv]).
      subst c1. fold m in Hv. rewrite Hv.
      destruct (set_spec nx ny nz U1 (pi a b) (pj a b) (pk a b) v)
        as (U2 & -> & HU2 & _ & Hframe); [done|lia|lia|lia|].
      simpl. eexists (_, _). split; [done|]. simpl. split; [done|]. split.
      * rewrite uadd_small; [lia|]. subst m. nia.
      * intros x Hx. rewrite <- Hfr1 by done. destruct x as [[i j] k].
        apply Hframe. intros [=]. subst. by apply Hx.
    + exists (U', c'). split; [done|]. simpl in *. split; [done|]. split; [|done].
      subst c'. subst m. lia.
  - exists T'. simpl in *. subst c. split; [|done]. rewrite Hrun. do 2 f_equal.
Qed.

(** A face update stays inside its vectors and assigns only the cells of
    its face that are on no edge. *)
Lemma face_update_spec e d (T0 T : Field) (THalo : list floatT) :
  block_ok e → block e T0 → block e T →
  Z.of_nat (length THalo) = buffer_size e d →
  ∃ T', face_update e d T0 THalo T = Some T' ∧ block e T' ∧
    ∀ x, ¬ (neighbors e d ≠ MPI_PROC_NULL ∧ face_cells e d x) → cell T' x = cell T x.
Proof.
  intros Hok HT0 HT Hlen. block_bounds Hok. unfold block in *.
  destruct d; simpl face_update;
    unfold update_LEFT, update_RIGHT, update_BOTTOM, update_TOP, update_BACK,
      update_FRONT, buffer_size in *;
    (destruct (decide _) as [Hn|Hn]; [|by exists T]);
    cbv zeta; revert Hlen; unwrap; intros Hlen;
    (match goal with
    | |- context [for_range ?lo1 ?hi1 (λ a, for_range ?lo2 ?hi2 (λ b '(U, counter),
                     U' ← set U (@?pi a b) (@?pj a b) (@?pk a b) (@?val a b counter);
                     Some (U', uadd counter 1))) (?T, 0)] =>
        match type of Hn with
        | neighbors e ?d ≠ _ =>
            destruct (sweep_spec _ _ _ pi pj pk val
                        (λ x, neighbors e d ≠ MPI_PROC_NULL ∧ face_cells e d x)
                        lo1 hi1 lo2 hi2 T HT)
              as (T' & -> & HT' & Hfr); [lia|lia|apply face_bound; lia| |]
        end
    end;
    [ intros a b Ha Hb; split; [lia|]; split;
      [ split; [done|]; unfold face_cells, on_face, inside, axis, coordinate; simpl;
        split; [lia|]; intros [] ?; simpl; first [done|lia]
      | unwrap; repeat apply lift2_is_Some;
        try (by eexists);
        try (apply (get_Some _ _ _ _ _ _ _ HT0); lia);
        apply at_is_Some; rewrite Hlen; apply slot_bound; lia ]
    | exists T'; split; [done|]; split; [done|]; done ]).
Qed.

Lemma update_faces_spec e (T0 T : Field) (receiveBuffer : DIRECTION.t → list floatT) :
  block_ok e → block e T0 → block e T →
  (∀ d, Z.of_nat (length (receiveBuffer d)) = buffer_size e d) →
  ∃ T', update_faces e T0 receiveBuffer T = Some T' ∧ block e T' ∧
    ∀ x, (∀ d, ¬ (neighbors e d ≠ MPI_PROC_NULL ∧ face_cells e d x)) →
         cell T' x = cell T x.
Proof.
  intros Hok HT0 HT Hlen. unfold update_faces.
  destruct (face_update_spec e DIRECTION.LEFT T0 T _ Hok HT0 HT (Hlen _))
    as (T1 & Hr1 & HT1 & H1).
  destruct (face_update_spec e DIRECTION.RIGHT T0 T1 _ Hok HT0 HT1 (Hlen _))
    as (T2 & Hr2 & HT2 & H2).
  destruct (face_update_spec e DIRECTION.BOTTOM T0 T2 _ Hok HT0 HT2 (Hlen _))
    as (T3 & Hr3 & HT3 & H3).
  destruct (face_update_spec e DIRECTION.TOP T0 T3 _ Hok HT0 HT3 (Hlen _))
    as (T4 & Hr4 & HT4 & H4).
  destruct (face_update_spec e DIRECTION.BACK T0 T4 _ Hok HT0 HT4 (Hlen _))
    as (T5 & Hr5 & HT5 & H5).
  destruct (face_update_spec e DIRECTION.FRONT T0 T5 _ Hok HT0 HT5 (Hlen _))
    as (T6 & Hr6 & HT6 & H6).
  simpl in Hr1, Hr2, Hr3, Hr4, Hr5, Hr6.
  exists T6. rewrite Hr1; simpl. rewrite Hr2; simpl. rewrite Hr3; simpl.
  rewrite Hr4; simpl. rewrite Hr5; simpl. split; [done|]. split; [done|].
  intros x Hx. rewrite H6, H5, H4, H3, H2, H1 by apply Hx. done.
Qed.

(** ** Sequences of edge loops and of corner assignments *)

Lemma run_all_app l1 l2 (T : Field) :
  run_all (l1 ++ l2) T = run_all l1 T ≫= run_all l2.
Proof.
  revert T. induction l1 as [|f l1 IH]; intros T; simpl; [done|].
  destruct (f T) as [T'|]; simpl; [apply IH|done].
Qed.

Lemma update_edges_run e (T : Field) :
  update_edges e T = run_all (edge_loop e <$> edge_order) T.
Proof.
  unfold update_edges, edge_order. simpl.
  repeat match goal with
    | |- (?f ?U ≫= _) = (?f ?U ≫= _) => destruct (f U); simpl; [|done]
    end.
  by destruct (edge_FRONT_TOP e _).
Qed.

Lemma update_corners_run e (T : Field) :
  update_corners e T = run_all (corner_step e <$> corner_order) T.
Proof.
  unfold update_corners, corner_order. simpl.
  repeat match goal with
    | |- (?f ?U ≫= _) = (?f ?U ≫= _) => destruct (f U); simpl; [|done]
    end.
  by destruct (corner_RIGHT_TOP_FRONT e _).
Qed.

Lemma run_edges_spec e l (T : Field) :
  Forall (λ ed, ed ∈ edge_order) l → block_ok e → block e T →
  ∃ T', run_all (edge_loop e <$> l) T = Some T' ∧ block e T' ∧
    ∀ x, (∀ d1 d2, (d1, d2) ∈ l →
            ¬ (neighbors e d1 ≠ MPI_PROC_NULL ∧ neighbors e d2 ≠ MPI_PROC_NULL ∧
               on_edge e d1 d2 x)) →
         cell T' x = cell T x.
Proof.
  intros Hl Hok. revert T. induction Hl as [|[d1 d2] l Hed Hl IH]; intros T HT.
  - by exists T.
  - destruct (edge_loop_spec e d1 d2 T Hed Hok HT) as (T1 & Hrun & HT1 & _ & Hfr).
    destruct (IH T1 HT1) as (T2 & Hrun2 & HT2 & Hfr2).
    exists T2.
    change (run_all (edge_loop e <$> (d1, d2) :: l) T)
      with (edge_loop e (d1, d2) T ≫= run_all (edge_loop e <$> l)).
    rewrite Hrun. simpl. split; [done|]. split; [done|].
    intros x Hx. rewrite Hfr2, Hfr; [done| |].
    + apply Hx. by left.
    + intros a b Hab. apply Hx. by right.
Qed.

Lemma run_corners_spec e l (T : Field) :
  Forall (λ c, c ∈ corner_order) l → block_ok e → block e T →
  ∃ T', run_all (corner_step e <$> l) T = Some T' ∧ block e T' ∧
    ∀ x, (∀ d1 d2 d3, (d1, d2, d3) ∈ l →
            ¬ (neighbors e d1 ≠ MPI_PROC_NULL ∧ neighbors e d2 ≠ MPI_PROC_NULL ∧
               neighbors e d3 ≠ MPI_PROC_NULL ∧ on_corner e d1 d2 d3 x)) →
         cell T' x = cell T x.
Proof.
  intros Hl Hok. revert T. induction Hl as [|[[d1 d2] d3] l Hc Hl IH]; intros T HT.
  - by exists T.
  - destruct (corner_step_spec e d1 d2 d3 T Hc Hok HT) as (T1 & Hrun & HT1 & _ & Hfr).
    destruct (IH T1 HT1) as (T2 & Hrun2 & HT2 & Hfr2).
    exists T2.
    change (run_all (corner_step e <$> (d1, d2, d3) :: l) T)
      with (corner_step e (d1, d2, d3) T ≫= run_all (corner_step e <$> l)).
    rewrite Hrun. simpl. split; [done|]. split; [done|].
    intros x Hx. rewrite Hfr2, Hfr; [done| |].
    + apply Hx. by left.
    + intros a b c Habc. apply Hx. by right.
Qed.

(** Two different edges share no cell, and no cell of an edge is a corner. *)
Lemma on_edge_disjoint e d1 d2 d1' d2' x :
  block_ok e → (d1, d2) ∈ edge_order → (d1', d2') ∈ edge_order →
  on_edge e d1 d2 x → on_edge e d1' d2' x → (d1, d2) = (d1', d2').
Proof.
  intros Hok Hin Hin'. block_bounds Hok.
  intros H%on_edge_inv H'%on_edge_inv. destruct x as [[a b] c].
  unfold edge_order in Hin, Hin'.
  repeat (apply elem_of_cons in Hin as [Hin|Hin]; [injection Hin as -> ->|]);
    try (by apply elem_of_nil in Hin);
    repeat (apply elem_of_cons in Hin' as [Hin'|Hin']; [injection Hin' as -> ->|]);
    try (by apply elem_of_nil in Hin');
    try done;
    exfalso;
    unfold on_face, inside, axis, coordinate in *; simpl in *;
    destruct H as (Ha & Hb & HiX & HiY & HiZ);
    destruct H' as (Ha' & Hb' & HiX' & HiY' & HiZ');
    try specialize (HiX ltac:(done) ltac:(done));
    try specialize (HiY ltac:(done) ltac:(done));
    try specialize (HiZ ltac:(done) ltac:(done));
    try specialize (HiX' ltac:(done) ltac:(done));
    try specialize (HiY' ltac:(done) ltac:(done));
    try specialize (HiZ' ltac:(done) ltac:(done));
    lia.
Qed.

Lemma on_edge_not_corner e d1 d2 c1 c2 c3 x :
  block_ok e → (d1, d2) ∈ edge_order → (c1, c2, c3) ∈ corner_order →
  on_edge e d1 d2 x → ¬ on_corner e c1 c2 c3 x.
Proof.
  intros Hok Hin Hin'. block_bounds Hok.
  intros H%on_edge_inv (H1 & H2 & H3). destruct x as [[a b] c].
  unfold edge_order in Hin. unfold corner_order in Hin'.
  repeat (apply elem_of_cons in Hin as [Hin|Hin]; [injection Hin as -> ->|]);
    try (by apply elem_of_nil in Hin);
    repeat (apply elem_of_cons in Hin' as [Hin'|Hin']; [injection Hin' as -> -> ->|]);
    try (by apply elem_of_nil in Hin');
    unfold on_face, inside, axis, coordinate in *; simpl in *;
    destruct H as (Ha & Hb & HiX & HiY & HiZ);
    try specialize (HiX ltac:(done) ltac:(done));
    try specialize (HiY ltac:(done) ltac:(done));
    try specialize (HiZ ltac:(done) ltac:(done));
    lia.
Qed.

Lemma run_all_middle l1 f l2 (T X Y : Field) :
  run_all l1 T = Some X → f X = Some Y →
  run_all (l1 ++ f :: l2) T = run_all l2 Y.
Proof. intros H1 H2. rewrite run_all_app, H1. simpl. by rewrite H2. Qed.

(** ** Edges and corners of one iteration *)

Lemma edge_order_NoDup : NoDup edge_order.
Proof. apply (bool_decide_unpack _). by vm_compute. Qed.

Lemma corner_order_NoDup : NoDup corner_order.
Proof. apply (bool_decide_unpack _). by vm_compute. Qed.

Lemma on_corner_disjoint e c1 c2 c3 c1' c2' c3' x :
  block_ok e → (c1, c2, c3) ∈ corner_order → (c1', c2', c3') ∈ corner_order →
  on_corner e c1 c2 c3 x → on_corner e c1' c2' c3' x →
  (c1, c2, c3) = (c1', c2', c3').
Proof.
  intros Hok Hin Hin'. block_bounds Hok.
  intros (H1 & H2 & H3) (H1' & H2' & H3'). destruct x as [[a b] c].
  unfold corner_order in Hin, Hin'.
  repeat (apply elem_of_cons in Hin as [Hin|Hin]; [injection Hin as -> -> ->|]);
    try (by apply elem_of_nil in Hin);
    repeat (apply elem_of_cons in Hin' as [Hin'|Hin']; [injection Hin' as -> -> ->|]);
    try (by apply elem_of_nil in Hin');
    try done; exfalso;
    unfold on_face, axis, coordinate in *; simpl in *; lia.
Qed.

(** The neighbours a corner is averaged from are cells of edges. *)
Lemma corner_neighbour_not_corner e d1 d2 d3 c1 c2 c3 d x :
  block_ok e → (d1, d2, d3) ∈ corner_order → (c1, c2, c3) ∈ corner_order →
  on_corner e d1 d2 d3 x → d ∈ [d1; d2; d3] →
  ¬ on_corner e c1 c2 c3 (inward d 1 x).
Proof.
  intros Hok Hin Hin'. block_bounds Hok.
  intros (H1 & H2 & H3) Hd (H1' & H2' & H3'). destruct x as [[a b] c].
  unfold corner_order in Hin, Hin'.
  repeat (apply elem_of_cons in Hin as [Hin|Hin]; [injection Hin as -> -> ->|]);
    try (by apply elem_of_nil in Hin);
    repeat (apply elem_of_cons in Hin' as [Hin'|Hin']; [injection Hin' as -> -> ->|]);
    try (by apply elem_of_nil in Hin');
    repeat (apply elem_of_cons in Hd as [->|Hd]);
    try (by apply elem_of_nil in Hd);
    unfold on_face, inward, axis, coordinate in *; simpl in *; lia.
Qed.

Lemma on_edge_in_block e d1 d2 x :
  block_ok e → (d1, d2) ∈ edge_order → on_edge e d1 d2 x →
  0 ≤ x.1.1 < chunck e COORDINATE.X ∧ 0 ≤ x.1.2 < chunck e COORDINATE.Y ∧
  0 ≤ x.2 < chunck e COORDINATE.Z.
Proof.
  intros Hok Hin H%on_edge_inv. block_bounds Hok. destruct x as [[a b] c].
  unfold edge_order in Hin.
  repeat (apply elem_of_cons in Hin as [Hin|Hin]; [injection Hin as -> ->|]);
    try (by apply elem_of_nil in Hin);
    unfold on_face, inside, axis, coordinate in *; simpl in *;
    destruct H as (Ha & Hb & HiX & HiY & HiZ);
    try specialize (HiX ltac:(done) ltac:(done));
    try specialize (HiY ltac:(done) ltac:(done));
    try specialize (HiZ ltac:(done) ltac:(done));
    lia.
Qed.

Lemma on_corner_in_block e d1 d2 d3 x :
  block_ok e → (d1, d2, d3) ∈ corner_order → on_corner e d1 d2 d3 x →
  0 ≤ x.1.1 < chunck e COORDINATE.X ∧ 0 ≤ x.1.2 < chunck e COORDINATE.Y ∧
  0 ≤ x.2 < chunck e COORDINATE.Z.
Proof.
  intros Hok Hin (H1 & H2 & H3). block_bounds Hok. destruct x as [[a b] c].
  unfold corner_order in Hin.
  repeat (apply elem_of_cons in Hin as [Hin|Hin]; [injection Hin as -> -> ->|]);
    try (by apply elem_of_nil in Hin);
    unfold on_face, axis, coordinate in *; simpl in *; lia.
Qed.

Lemma cell_is_Some e (T : Field) x :
  block e T →
  0 ≤ x.1.1 < chunck e COORDINATE.X ∧ 0 ≤ x.1.2 < chunck e COORDINATE.Y ∧
  0 ≤ x.2 < chunck e COORDINATE.Z →
  is_Some (cell T x).
Proof. intros HT Hx. unfold cell. by apply (get_Some _ _ _ _ _ _ _ HT). Qed.

(** The edge loops, then the corner assignments, from the field [T1] left
    by the six face updates. *)
Lemma edges_then_corners e (T1 : Field) :
  block_ok e → block e T1 →
  ∃ T2 T3,
    update_edges e T1 = Some T2 ∧ update_corners e T2 = Some T3 ∧
    block e T3 ∧
    (∀ n d1 d2, edge_order !! n = Some (d1, d2) →
       neighbors e d1 ≠ MPI_PROC_NULL → neighbors e d2 ≠ MPI_PROC_NULL →
       ∃ X, edges_before e n T1 = Some X ∧
         ∀ x, on_edge e d1 d2 x →
           is_Some (cell T3 x) ∧
           cell T3 x = (const 2 * cell X (inward d1 1 x) - cell X (inward d1 2 x))%F) ∧
    (∀ d1 d2 d3, (d1, d2, d3) ∈ corner_order →
       neighbors e d1 ≠ MPI_PROC_NULL → neighbors e d2 ≠ MPI_PROC_NULL →
       neighbors e d3 ≠ MPI_PROC_NULL →
       ∀ x, on_corner e d1 d2 d3 x →
         is_Some (cell T3 x) ∧
         cell T3 x = (const (1 / 3) * (cell T2 (inward d1 1 x) + cell T2 (inward d2 1 x)
                                       + cell T2 (inward d3 1 x)))%F ∧
         ∀ d, d ∈ [d1; d2; d3] → cell T3 (inward d 1 x) = cell T2 (inward d 1 x)) ∧
    (∀ x, (∀ d1 d2, ¬ on_edge e d1 d2 x) → (∀ d1 d2 d3, ¬ on_corner e d1 d2 d3 x) →
          cell T3 x = cell T1 x).
Proof.
  intros Hok HT1.
  assert (Forall (λ ed, ed ∈ edge_order) edge_order) as Hall
    by (apply Forall_forall; auto).
  assert (Forall (λ c, c ∈ corner_order) corner_order) as Hallc
    by (apply Forall_forall; auto).
  destruct (run_edges_spec e edge_order T1 Hall Hok HT1) as (T2 & Hr2 & HT2 & Hf2).
  destruct (run_corners_spec e corner_order T2 Hallc Hok HT2) as (T3 & Hr3 & HT3 & Hf3).
  exists T2, T3. rewrite update_edges_run, update_corners_run.
  split; [done|]. split; [done|]. split; [done|]. split; [|split].
  - (* edges *)
    intros n d1 d2 Hn Hn1 Hn2.
    pose proof (take_drop_middle _ _ _ Hn) as Hsplit.
    assert ((d1, d2) ∈ edge_order) as Hin by (by eapply list_elem_of_lookup_2).
    pose proof edge_order_NoDup as Hnd. rewrite <- Hsplit in Hnd.
    apply NoDup_app in Hnd as (_ & _ & Hnd). apply NoDup_cons in Hnd as [Hnot _].
    assert (Forall (λ ed, ed ∈ edge_order) (take n edge_order)) as Hpre.
    { apply Forall_forall. intros ed Hed. rewrite <- Hsplit.
      apply elem_of_app. by left. }
    assert (Forall (λ ed, ed ∈ edge_order) (drop (S n) edge_order)) as Hpost.
    { apply Forall_forall. intros ed Hed. rewrite <- Hsplit.
      apply elem_of_app. right. by right. }
    destruct (run_edges_spec e _ T1 Hpre Hok HT1) as (X & HrX & HX & _).
    destruct (edge_loop_spec e d1 d2 X Hin Hok HX) as (Y & HrY & HY & Hval & _).
    destruct (run_edges_spec e _ Y Hpost Hok HY) as (T2' & HrT2 & _ & HfY).
    assert (T2' = T2) as ->.
    { rewrite <- Hsplit, fmap_app, fmap_cons in Hr2.
      rewrite (run_all_middle _ _ _ _ _ _ HrX HrY) in Hr2. congruence. }
    exists X. split; [done|]. intros x Hx.
    split; [apply (cell_is_Some e); [done|exact (on_edge_in_block e d1 d2 x Hok Hin Hx)]|].
    rewrite Hf3, HfY; [by apply Hval| |].
    + intros a b Hab (_ & _ & Hx'). apply Hnot.
      assert ((a, b) ∈ edge_order) as Hab'.
      { rewrite <- Hsplit. apply elem_of_app. right. by right. }
      by rewrite (on_edge_disjoint e d1 d2 a b x Hok Hin Hab' Hx Hx').
    + intros a b c Habc (_ & _ & _ & Hx').
      by eapply (on_edge_not_corner e d1 d2 a b c x).
  - (* corners *)
    intros d1 d2 d3 Hin Hn1 Hn2 Hn3 x Hx.
    destruct (list_elem_of_split _ _ Hin) as (l1 & l2 & Hsplit).
    pose proof corner_order_NoDup as Hnd. rewrite Hsplit in Hnd.
    apply NoDup_app in Hnd as (_ & _ & Hnd). apply NoDup_cons in Hnd as [Hnot _].
    assert (Forall (λ c, c ∈ corner_order) l1) as Hpre.
    { apply Forall_forall. intros c Hc. rewrite Hsplit. apply elem_of_app. by left. }
    assert (Forall (λ c, c ∈ corner_order) l2) as Hpost.
    { apply Forall_forall. intros c Hc. rewrite Hsplit.
      apply elem_of_app. right. by right. }
    destruct (run_corners_spec e _ T2 Hpre Hok HT2) as (X & HrX & HX & HfX).
    destruct (corner_step_spec e d1 d2 d3 X Hin Hok HX) as (Y & HrY & HY & Hval & _).
    destruct (run_corners_spec e _ Y Hpost Hok HY) as (T3' & HrT3 & _ & HfY).
    assert (T3' = T3) as ->.
    { rewrite Hsplit, fmap_app, fmap_cons in Hr3.
      rewrite (run_all_middle _ _ _ _ _ _ HrX HrY) in Hr3. congruence. }
    assert (∀ d, d ∈ [d1; d2; d3] → ∀ a b c, (a, b, c) ∈ corner_order →
              ¬ on_corner e a b c (inward d 1 x)) as Hnb.
    { intros d Hd a b c Habc.
      exact (corner_neighbour_not_corner e d1 d2 d3 a b c d x Hok Hin Habc Hx Hd). }
    split; [apply (cell_is_Some e); [done|exact (on_corner_in_block e d1 d2 d3 x Hok Hin Hx)]|]. split.
    + rewrite HfY.
      * rewrite (Hval Hn1 Hn2 Hn3 x Hx).
        rewrite !HfX; [done|..];
          intros a b c Habc (_ & _ & _ & Hc);
          (eapply Hnb; [|rewrite Hsplit; apply elem_of_app; left; exact Habc|exact Hc]);
          repeat constructor.
      * intros a b c Habc (_ & _ & _ & Hx'). apply Hnot.
        assert ((a, b, c) ∈ corner_order) as Habc'.
        { rewrite Hsplit. apply elem_of_app. right. by right. }
        by rewrite (on_corner_disjoint e d1 d2 d3 a b c x Hok Hin Habc' Hx Hx').
    + intros d Hd. apply Hf3. intros a b c Habc (_ & _ & _ & Hc).
      by eapply (Hnb d Hd a b c).
  - (* frame *)
    intros x Hne Hnc. rewrite Hf3, Hf2; [done| |].
    + intros a b _ (_ & _ & H). by eapply Hne.
    + intros a b c _ (_ & _ & _ & H). by eapply Hnc.
Qed.

(** ** Packing the send buffers *)

Lemma slot_lt a a' b b' m :
  a' < a → 0 ≤ b' < m → 0 ≤ b → a' * m + b' < a * m + b.
Proof. intros. nia. Qed.

(** Two nested loops that write the values [val a b] one after the other
    into a buffer. *)
Lemma pack_sweep_spec (val : Z → Z → option floatT) lo1 hi1 lo2 hi2 (buf : list floatT) :
  lo1 ≤ hi1 → lo2 ≤ hi2 →
  (hi1 - lo1) * (hi2 - lo2) ≤ Z.of_nat (length buf) →
  (hi1 - lo1) * (hi2 - lo2) < 2 ^ 32 →
  (∀ a b, lo1 ≤ a < hi1 → lo2 ≤ b < hi2 → is_Some (val a b)) →
  ∃ buf', for_range lo1 hi1 (λ a,
            for_range lo2 hi2 (λ b '(buffer, counter),
              buffer ← put buffer counter (val a b);
              Some (buffer, uadd counter 1))) (buf, 0)
          = Some (buf', (hi1 - lo1) * (hi2 - lo2)) ∧
          length buf' = length buf ∧
          (∀ a b, lo1 ≤ a < hi1 → lo2 ≤ b < hi2 →
             at_ buf' ((a - lo1) * (hi2 - lo2) + (b - lo2)) = val a b) ∧
          (∀ i, (hi1 - lo1) * (hi2 - lo2) ≤ i → at_ buf' i = at_ buf i).
Proof.
  intros H1 H2 Hlen Hsz Hval.
  set (m := hi2 - lo2) in *.
  destruct (for_range_inv
    (λ a (s : list floatT * Z), length s.1 = length buf ∧ s.2 = (a - lo1) * m ∧
       (∀ a' b', lo1 ≤ a' < a → lo2 ≤ b' < hi2 →
          at_ s.1 ((a' - lo1) * m + (b' - lo2)) = val a' b') ∧
       (∀ i, s.2 ≤ i → at_ s.1 i = at_ buf i))
    (λ a, for_range lo2 hi2 (λ b '(buffer, counter),
              buffer ← put buffer counter (val a b);
              Some (buffer, uadd counter 1)))
    lo1 hi1 (buf, 0)) as ([buf' c] & Hrun & Hl & Hc & Hv & Hfr); [done| | |].
  - simpl. split; [done|]. split; [lia|]. split; [intros; lia|done].
  - intros a [u c] Ha (Hl & Hc & Hv & Hfr). simpl in *.
    destruct (for_range_inv
      (λ b (s : list floatT * Z), length s.1 = length buf ∧
         s.2 = (a - lo1) * m + (b - lo2) ∧
         (∀ a' b', lo1 ≤ a' → lo2 ≤ b' < hi2 → a' < a ∨ (a' = a ∧ b' < b) →
            at_ s.1 ((a' - lo1) * m + (b' - lo2)) = val a' b') ∧
         (∀ i, s.2 ≤ i → at_ s.1 i = at_ buf i))
      (λ b '(buffer, counter),
              buffer ← put buffer counter (val a b);
              Some (buffer, uadd counter 1))
      lo2 hi2 (u, c)) as ([u' c'] & Hrun & Hl' & Hc' & Hv' & Hfr'); [done| | |].
    + simpl. split; [done|]. split; [lia|]. split; [|done].
      intros a' b' Ha' Hb' [Hlt|[_ Hlt]]; [apply Hv; lia|lia].
    + intros b [u1 c1] Hb (Hl1 & Hc1 & Hv1 & Hfr1). simpl in *.
      destruct (Hval a b Ha Hb) as [v Hv0]. rewrite Hv0.
      assert (0 ≤ c1 < (hi1 - lo1) * m) as Hc1r.
      { subst c1. split; [nia|]. 
        replace ((hi1 - lo1) * m) with ((hi1 - lo1 - 1) * m + m) by lia.
        assert (a - lo1 ≤ hi1 - lo1 - 1) by lia. nia. }
      destruct (put_spec u1 c1 v) as (u2 & -> & Hl2 & Hat & Hoth); [lia|].
      simpl. eexists (_, _). split; [done|]. simpl. rewrite uadd_small by lia.
      split; [congruence|]. split.
      * lia.
      * split.
        -- intros a' b' Ha' Hb' Hlt.
           destruct (decide (a' = a ∧ b' = b)) as [[-> ->]|Hne].
           ++ by rewrite <- Hc1, Hat.
           ++ rewrite Hoth; [apply Hv1; [done|done|lia]|].
              subst c1. destruct Hlt as [Hlt|[-> Hlt]]; [|lia].
              pose proof (slot_lt (a - lo1) (a' - lo1) (b - lo2) (b' - lo2) m). lia.
        -- intros i Hi. rewrite Hoth by lia. apply Hfr1. lia.
    + exists (u', c'). split; [done|]. simpl in *. split; [done|]. split; [lia|].
      split; [|done]. intros a' b' Ha' Hb'. apply Hv'; lia.
  - exists buf'. simpl in *. subst c. rewrite Hrun. split; [done|].
    split; [done|]. by split.
Qed.

Lemma slot_surj n m i :
  0 < m → 0 ≤ i < n * m → ∃ a b, 0 ≤ a < n ∧ 0 ≤ b < m ∧ a * m + b = i.
Proof.
  intros Hm Hi. exists (i / m), (i mod m).
  pose proof (Z.mod_pos_bound i m Hm). pose proof (Z.div_mod i m ltac:(lia)).
  assert (0 ≤ i / m) by (apply Z.div_pos; lia).
  assert (i / m < n) by (apply Z.div_lt_upper_bound; lia).
  lia.
Qed.

Lemma face_le n m :
  3 ≤ n → 3 ≤ m → (n - 1 - 1) * (m - 1 - 1) ≤ (n - 1) * (m - 1).
Proof. intros. nia. Qed.

Lemma slot_range a b n m :
  1 ≤ a ≤ n - 2 → 1 ≤ b ≤ m - 2 →
  0 ≤ (a - 1) * (m - 2) + (b - 1) < (n - 2) * (m - 2).
Proof. intros. nia. Qed.

(** Packing a face: the cells of the layer next to the face, rows of the
    inner axis one after the other. *)
Lemma pack_face_spec e d (T0 : Field) (buf : list floatT) :
  block_ok e → block e T0 → Z.of_nat (length buf) = buffer_size e d →
  ∃ buf', pack_face e d T0 buf = Some buf' ∧ length buf' = length buf ∧
    (neighbors e d = MPI_PROC_NULL → buf' = buf) ∧
    (neighbors e d ≠ MPI_PROC_NULL →
       (∀ x, face_cells e d x →
          0 ≤ slot e d x < packed e d ∧
          is_Some (cell T0 (inward d 1 x)) ∧
          at_ buf' (slot e d x) = cell T0 (inward d 1 x)) ∧
       (∀ i, 0 ≤ i < packed e d → ∃ x, face_cells e d x ∧ slot e d x = i) ∧
       (∀ i, packed e d ≤ i → at_ buf' i = at_ buf i)).
Proof.
  intros Hok HT0 Hlen. block_bounds Hok. unfold block in *.
  destruct d; simpl pack_face;
    unfold pack_LEFT, pack_RIGHT, pack_BOTTOM, pack_TOP, pack_BACK, pack_FRONT,
      buffer_size in *;
    (destruct (decide _) as [Hn|Hn];
     [|exists buf; split; [done|]; split; [done|]; split; [done|]; intros; done]);
    revert Hlen; unwrap; intros Hlen;
    (match goal with
     | |- context [for_range ?lo1 ?hi1 (λ a, for_range ?lo2 ?hi2 (λ b '(u, counter),
                      u' ← put u counter (@?val a b);
                      Some (u', uadd counter 1))) (?buf, 0)] =>
         destruct (pack_sweep_spec val lo1 hi1 lo2 hi2 buf)
           as (buf' & -> & Hl & Hv & Hfr);
         [lia|lia|rewrite Hlen; apply face_le; lia|apply face_bound; lia
         |intros a b Ha Hb; apply (get_Some _ _ _ _ _ _ _ HT0); lia|]
     end);
    (exists buf'; split; [done|]; split; [done|]; split; [intros; done|];
     intros _; unfold packed, slot, transverse, axis; simpl; split; [|split];
     [ intros [[a b] c] [Hf Hin];
       pose proof (Hin COORDINATE.X) as HiX;
       pose proof (Hin COORDINATE.Y) as HiY;
       pose proof (Hin COORDINATE.Z) as HiZ;
       unfold on_face, inside, cell, inward, axis, coordinate in *; simpl in *;
       try specialize (HiX ltac:(done));
       try specialize (HiY ltac:(done));
       try specialize (HiZ ltac:(done));
       subst;
       split; [apply slot_range; lia|];
       split; [apply (get_Some _ _ _ _ _ _ _ HT0); lia|];
       first
         [ solve [etrans; [|etrans; [apply (Hv b c); lia|]]; f_equal; lia]
         | solve [etrans; [|etrans; [apply (Hv a c); lia|]]; f_equal; lia]
         | solve [etrans; [|etrans; [apply (Hv a b); lia|]]; f_equal; lia] ]
     | intros i Hi;
       match type of Hi with
       | _ ≤ _ < ?n * ?m =>
           destruct (slot_surj n m i) as (a & b & Ha & Hb & Hab); [lia|lia|]
       end;
       first
         [ exists (0, a + 1, b + 1);
           unfold face_cells, on_face, inside, axis, coordinate; simpl;
           split; [split; [lia|intros []; simpl; intros; first [done|lia]]|lia]
         | exists (chunck e COORDINATE.X - 1, a + 1, b + 1);
           unfold face_cells, on_face, inside, axis, coordinate; simpl;
           split; [split; [lia|intros []; simpl; intros; first [done|lia]]|lia]
         | exists (a + 1, 0, b + 1);
           unfold face_cells, on_face, inside, axis, coordinate; simpl;
           split; [split; [lia|intros []; simpl; intros; first [done|lia]]|lia]
         | exists (a + 1, chunck e COORDINATE.Y - 1, b + 1);
           unfold face_cells, on_face, inside, axis, coordinate; simpl;
           split; [split; [lia|intros []; simpl; intros; first [done|lia]]|lia]
         | exists (a + 1, b + 1, 0);
           unfold face_cells, on_face, inside, axis, coordinate; simpl;
           split; [split; [lia|intros []; simpl; intros; first [done|lia]]|lia]
         | exists (a + 1, b + 1, chunck e COORDINATE.Z - 1);
           unfold face_cells, on_face, inside, axis, coordinate; simpl;
           split; [split; [lia|intros []; simpl; intros; first [done|lia]]|lia] ]
     | intros i Hi; apply Hfr; lia ]).
Qed.

(** ** Loops over whole faces and over the whole block *)

Lemma bounded_exists_dec (P : Z → Prop) lo hi :
  (∀ b, P b ∨ ¬ P b) →
  (∃ b, lo ≤ b < hi ∧ P b) ∨ ¬ (∃ b, lo ≤ b < hi ∧ P b).
Proof.
  intros Hdec.
  assert (∀ n, (∃ b, lo ≤ b < lo + Z.of_nat n ∧ P b) ∨
               ¬ (∃ b, lo ≤ b < lo + Z.of_nat n ∧ P b)) as H.
  { induction n as [|n [IH|IH]].
    - right. intros (b & Hb & _). lia.
    - left. destruct IH as (b & Hb & HP). exists b. split; [lia|done].
    - destruct (Hdec (lo + Z.of_nat n)) as [HP|HP].
      + left. exists (lo + Z.of_nat n). split; [lia|done].
      + right. intros (b & Hb & HPb).
        destruct (decide (b = lo + Z.of_nat n)) as [->|Hne]; [done|].
        apply IH. exists b. split; [lia|done]. }
  destruct (decide (lo ≤ hi)) as [Hle|Hgt].
  - specialize (H (Z.to_nat (hi - lo))).
    by replace (lo + Z.of_nat (Z.to_nat (hi - lo))) with hi in H by lia.
  - right. intros (b & Hb & _). lia.
Qed.

Lemma triple_eq_dec (x y : Z * Z * Z) : x = y ∨ x ≠ y.
Proof. destruct (decide (x = y)); auto. Qed.

(** Two nested loops that assign the cells [p a b]. *)
Lemma sweep2_assigns nx ny nz (pi pj pk : Z → Z → Z) (val : Z → Z → option floatT)
    (V : Z * Z * Z → option floatT) lo1 hi1 lo2 hi2 (T : Field) :
  shape nx ny nz T → lo1 ≤ hi1 → lo2 ≤ hi2 →
  (∀ a b, lo1 ≤ a < hi1 → lo2 ≤ b < hi2 →
     (0 ≤ pi a b < nx ∧ 0 ≤ pj a b < ny ∧ 0 ≤ pk a b < nz) ∧
     is_Some (val a b) ∧ V (pi a b, pj a b, pk a b) = val a b) →
  ∃ T', for_range lo1 hi1 (λ a,
          for_range lo2 hi2 (λ b T,
            set T (pi a b) (pj a b) (pk a b) (val a b))) T = Some T' ∧
        shape nx ny nz T' ∧
        assigns cell
          (λ x, ∃ a, lo1 ≤ a < hi1 ∧ ∃ b, lo2 ≤ b < hi2 ∧ x = (pi a b, pj a b, pk a b))
          V T T'.
Proof.
  intros HT H1 H2 Hbody.
  destruct (for_range_assigns cell (λ _ U, shape nx ny nz U)
              (λ a x, ∃ b, lo2 ≤ b < hi2 ∧ x = (pi a b, pj a b, pk a b)) V
              (λ a, for_range lo2 hi2 (λ b T, set T (pi a b) (pj a b) (pk a b) (val a b)))
              lo1 hi1 T) as (T' & Hrun & HT' & Ha); [done|done| | |by eauto].
  - intros a x. apply bounded_exists_dec. intros b. apply triple_eq_dec.
  - intros a U Ha HU _.
    destruct (for_range_assigns cell (λ _ U, shape nx ny nz U)
                (λ b x, x = (pi a b, pj a b, pk a b)) V
                (λ b T, set T (pi a b) (pj a b) (pk a b) (val a b))
                lo2 hi2 U) as (U' & Hrun & HU' & Ha'); [done|done| | |by eauto].
    + intros b x. apply triple_eq_dec.
    + intros b U1 Hb HU1 _. destruct (Hbody a b Ha Hb) as (Hp & Hv & HV).
      apply (set_assigns nx ny nz); [done|lia|lia|lia|done|done].
Qed.

(** Three nested loops that assign every cell of the block. *)
Lemma sweep3_assigns nx ny nz (val : Z → Z → Z → option floatT) (T : Field) :
  shape nx ny nz T → 0 ≤ nx → 0 ≤ ny → 0 ≤ nz →
  (∀ i j k, 0 ≤ i < nx → 0 ≤ j < ny → 0 ≤ k < nz → is_Some (val i j k)) →
  ∃ T', for_range 0 nx (λ i,
          for_range 0 ny (λ j,
            for_range 0 nz (λ k T, set T i j k (val i j k)))) T = Some T' ∧
        shape nx ny nz T' ∧
        ∀ i j k, 0 ≤ i < nx → 0 ≤ j < ny → 0 ≤ k < nz → get T' i j k = val i j k.
Proof.
  intros HT Hx Hy Hz Hval.
  set (V := λ x : Z * Z * Z, val x.1.1 x.1.2 x.2).
  destruct (for_range_assigns cell (λ _ U, shape nx ny nz U)
      (λ i x, x.1.1 = i ∧ 0 ≤ x.1.2 < ny ∧ 0 ≤ x.2 < nz) V
      (λ i, for_range 0 ny (λ j, for_range 0 nz (λ k T, set T i j k (val i j k))))
      0 nx T) as (T' & Hrun & HT' & [Hw _]); [done|done| | |].
  - intros i [[a b] c]. simpl. lia.
  - intros i U Hi HU _.
    destruct (for_range_assigns cell (λ _ U, shape nx ny nz U)
        (λ j x, x.1.1 = i ∧ x.1.2 = j ∧ 0 ≤ x.2 < nz) V
        (λ j, for_range 0 nz (λ k T, set T i j k (val i j k)))
        0 ny U) as (U' & Hrun & HU' & [Hw Hf]); [done|done| | |].
    + intros j [[a b] c]. simpl. lia.
    + intros j U1 Hj HU1 _.
      destruct (for_range_assigns cell (λ _ U, shape nx ny nz U)
          (λ k x, x = (i, j, k)) V
          (λ k T, set T i j k (val i j k))
          0 nz U1) as (U2 & Hrun & HU2 & [Hw Hf]); [done|done| | |].
      * intros k x. apply triple_eq_dec.
      * intros k U2 Hk HU2 _.
        apply (set_assigns nx ny nz); [done|lia|lia|lia|by apply Hval|done].
      * exists U2. split; [done|]. split; [done|]. split.
        -- intros [[a b] c] (Ha & Hb & Hc). simpl in Ha, Hb, Hc. subst a b.
           apply (Hw (i, j, c)). exists c. split; [lia|done].
        -- intros [[a b] c] Hn. apply (Hf (a, b, c)).
           intros (k & Hk & [=]). subst. apply Hn. simpl. lia.
    + exists U'. split; [done|]. split; [done|]. split.
      * intros [[a b] c] (Ha & Hb & Hc). simpl in Ha, Hb, Hc. subst a.
        apply (Hw (i, b, c)). exists b. simpl. split; [lia|]. split; [done|]. split; [done|lia].
      * intros [[a b] c] Hn. apply (Hf (a, b, c)).
        intros (j & Hj & Ha & Hb & Hc). simpl in *. subst. apply Hn. lia.
  - exists T'. split; [done|]. split; [done|].
    intros i j k Hi Hj Hk. apply (Hw (i, j, k)). exists i. simpl. lia.
Qed.

(** ** Initial and boundary conditions *)

Lemma in_block_iff e x :
  in_block e x ↔
  0 ≤ x.1.1 < chunck e COORDINATE.X ∧ 0 ≤ x.1.2 < chunck e COORDINATE.Y ∧
  0 ≤ x.2 < chunck e COORDINATE.Z.
Proof.
  unfold in_block. split.
  - intros H. split; [apply (H COORDINATE.X)|].
    split; [apply (H COORDINATE.Y)|apply (H COORDINATE.Z)].
  - intros (Hx & Hy & Hz) []; done.
Qed.

Lemma bc_step_spec e d (T : Field) :
  d ≠ DIRECTION.BOTTOM → extent_ok e → block e T →
  ∃ T', bc_step e d T = Some T' ∧ block e T' ∧
    ∀ x, in_block e x →
      cell T' x = if decide (boundary_face e d x) then Some (bc_value e d x)
                  else cell T x.
Proof.
  intros Hd Hok HT. unfold block, boundary_face in *.
  pose proof (Hok COORDINATE.X) as Hx. pose proof (Hok COORDINATE.Y) as Hy.
  pose proof (Hok COORDINATE.Z) as Hz.
  destruct d; try done; simpl bc_step;
    unfold bc_TOP, bc_LEFT, bc_RIGHT, bc_BACK, bc_FRONT;
    (destruct (decide _) as [Hn|Hn];
     [|exists T; split; [done|]; split; [done|]; intros x _;
       by rewrite decide_False by (by intros [? _])]);
    unwrap;
    (match goal with
     | |- context [for_range ?lo1 ?hi1 (λ a, for_range ?lo2 ?hi2 (λ b U,
                      set U (@?pi a b) (@?pj a b) (@?pk a b) (@?val a b))) ?T] =>
         match goal with
         | |- context [bc_value e ?d] =>
             destruct (sweep2_assigns _ _ _ pi pj pk val (λ x, Some (bc_value e d x))
                         lo1 hi1 lo2 hi2 T HT)
               as (T' & -> & HT' & Hw & Hf);
             [lia|lia|intros a b Ha Hb; split; [lia|]; split; [by eexists|done]|]
         end
     end);
    (exists T'; split; [done|]; split; [done|];
     intros [[a b] c] (Ha & Hb & Hc)%in_block_iff; simpl in Ha, Hb, Hc;
     destruct (decide _) as [[_ Hon]|Hno];
     [ apply Hw; unfold on_face, axis, coordinate in Hon; simpl in Hon; subst;
       first [ exists b; split; [lia|]; exists c; split; [lia|done]
             | exists a; split; [lia|]; exists c; split; [lia|done]
             | exists a; split; [lia|]; exists b; split; [lia|done] ]
     | apply Hf; intros (u & Hu & v & Hv & [=]); apply Hno; split; [done|];
       unfold on_face, axis, coordinate; simpl; lia ]).
Qed.

(** The field with which the time loop starts. *)
Lemma initial_conditions_spec e :
  extent_ok e →
  ∃ T, initial_conditions e = Some T ∧ block e T ∧
    ∀ x, in_block e x → cell T x = Some (initial_value e x).
Proof.
  intros Hok. unfold initial_conditions.
  pose proof (Hok COORDINATE.X) as Hx. pose proof (Hok COORDINATE.Y) as Hy.
  pose proof (Hok COORDINATE.Z) as Hz.
  destruct (sweep3_assigns (chunck e COORDINATE.X) (chunck e COORDINATE.Y)
              (chunck e COORDINATE.Z) (λ _ _ _, const 0)
              (resize3 (chunck e COORDINATE.X) (chunck e COORDINATE.Y) (chunck e COORDINATE.Z)))
    as (Tz & Hz0 & HTz & Hzero);
    [apply shape_resize3; lia|lia|lia|lia|by eexists|].
  unfold init_zero. rewrite Hz0. simpl.
  destruct (bc_step_spec e DIRECTION.TOP Tz ltac:(done) Hok HTz) as (T1 & H1 & HT1 & Hv1).
  destruct (bc_step_spec e DIRECTION.LEFT T1 ltac:(done) Hok HT1) as (T2 & H2 & HT2 & Hv2).
  destruct (bc_step_spec e DIRECTION.RIGHT T2 ltac:(done) Hok HT2) as (T3 & H3 & HT3 & Hv3).
  destruct (bc_step_spec e DIRECTION.BACK T3 ltac:(done) Hok HT3) as (T4 & H4 & HT4 & Hv4).
  destruct (bc_step_spec e DIRECTION.FRONT T4 ltac:(done) Hok HT4) as (T5 & H5 & HT5 & Hv5).
  simpl in H1, H2, H3, H4, H5.
  rewrite H1; simpl. rewrite H2; simpl. rewrite H3; simpl. rewrite H4; simpl.
  exists T5. split; [done|]. split; [done|].
  intros x Hin. rewrite Hv5, Hv4, Hv3, Hv2, Hv1 by done.
  unfold initial_value, bc_value.
  repeat (destruct (decide _); [done|]).
  apply in_block_iff in Hin. unfold cell. by rewrite Hzero by lia.
Qed.

(** ** Order of doubles *)

Lemma SFcompare_lt_le_trans (m r d : spec_float) :
  SFleb m r = true → SFltb r d = true → SFleb m d = true.
Proof.
  unfold SFleb, SFltb, SFcompare.
  destruct m as [sm|sm| |sm mm em], r as [sr|sr| |sr mr er], d as [sd|sd| |sd md ed];
    try done;
    repeat match goal with
      | s : bool |- _ => destruct s
      end; try done.
  all: rewrite ?Pos.compare_cont_spec; simpl;
    destruct (Z.compare_spec em er), (Z.compare_spec er ed); try done;
    destruct (Pos.compare_spec mm mr), (Pos.compare_spec mr md); simpl; try done;
    subst;
    repeat match goal with
      | |- context [(?a ?= ?b)%Z] => destruct (Z.compare_spec a b)
      | |- context [(?a ?= ?b)%positive] => destruct (Pos.compare_spec a b)
      end; simpl; try done; lia.
Qed.

(** [m <= r] and [r < d] give [m <= d]; in particular none of them is a
    NaN. *)
Lemma float_le_lt_trans (m r d : floatT) :
  PrimFloat.leb m r = true → PrimFloat.ltb r d = true → PrimFloat.leb m d = true.
Proof.
  rewrite !FloatAxioms.leb_spec, FloatAxioms.ltb_spec.
  apply SFcompare_lt_le_trans.
Qed.

Lemma SF_min_le_nonzero (r : spec_float) :
  SFleb (Prim2SF numeric_limits_min) r = true → SFeqb r (Prim2SF 0%float) = false.
Proof.
  vm_compute Prim2SF. unfold SFleb, SFeqb, SFcompare.
  destruct r as [s|s| |s m e]; try done; destruct s; done.
Qed.

(** A double at least [numeric_limits_min] is different from [0.0]. *)
Lemma min_le_nonzero (r : floatT) :
  PrimFloat.leb numeric_limits_min r = true → PrimFloat.eqb r 0 = false.
Proof. rewrite FloatAxioms.leb_spec, FloatAxioms.eqb_spec. apply SF_min_le_nonzero. Qed.

(** ** Copy and residual *)

(** The copy loop makes [T0] equal to [T]. *)
Lemma copy_solution_spec e (T T0 : Field) :
  block_ok e → block e T → block e T0 → copy_solution e T T0 = Some T.
Proof.
  intros Hok HT HT0. block_bounds Hok. unfold block in *.
  destruct (sweep3_assigns (chunck e COORDINATE.X) (chunck e COORDINATE.Y)
              (chunck e COORDINATE.Z) (λ i j k, get T i j k) T0 HT0)
    as (T' & Hrun & HT' & Hval); [lia|lia|lia| |].
  - intros i j k Hi Hj Hk. by apply (get_Some _ _ _ _ _ _ _ HT).
  - unfold copy_solution. rewrite Hrun. f_equal.
    apply (field_ext _ _ _ _ _ HT' HT). intros i j k.
    destruct (decide (0 ≤ i < chunck e COORDINATE.X ∧ 0 ≤ j < chunck e COORDINATE.Y ∧
                      0 ≤ k < chunck e COORDINATE.Z)) as [(Hi & Hj & Hk)|Hout].
    + by apply Hval.
    + by rewrite (get_None _ _ _ _ _ _ _ HT'), (get_None _ _ _ _ _ _ _ HT).
Qed.

(** The loop nest of the residual with an invariant on [res]. *)
Lemma residual_inv e (T T0 : Field) (I : floatT → Prop) :
  block_ok e → block e T → block e T0 →
  I numeric_limits_min →
  (∀ x v v0 r, interior e x → cell T x = Some v → cell T0 x = Some v0 → I r →
     I (if PrimFloat.ltb r (fabs (v - v0)) then fabs (v - v0) else r)) →
  ∃ r, residual e T T0 = Some r ∧ I r.
Proof.
  intros Hok HT HT0 H0 Hstep. block_bounds Hok. unfold block in *.
  unfold residual. cbv zeta. unwrap.
  apply (for_range_inv (λ _ r, I r)); [lia|done|].
  intros i r Hi Hr.
  apply (for_range_inv (λ _ r, I r)); [lia|done|].
  intros j r1 Hj Hr1.
  apply (for_range_inv (λ _ r, I r)); [lia|done|].
  intros k r2 Hk Hr2.
  destruct (proj2 (get_Some _ _ _ _ i j k HT)) as [v Hv]; [lia|].
  destruct (proj2 (get_Some _ _ _ _ i j k HT0)) as [v0 Hv0]; [lia|].
  rewrite Hv, Hv0. lift_simpl. simpl.
  assert (interior e (i, j, k)) as Hint
    by (unfold interior, inside, coordinate; simpl; lia).
  pose proof (Hstep (i, j, k) v v0 r2 Hint Hv Hv0 Hr2) as Hnew.
  destruct (PrimFloat.ltb r2 (fabs (v - v0))); eauto.
Qed.

(** The residual is never below [numeric_limits_min]. *)
Lemma residual_ge_min e (T T0 : Field) :
  block_ok e → block e T → block e T0 →
  ∃ r, residual e T T0 = Some r ∧ PrimFloat.leb numeric_limits_min r = true.
Proof.
  intros Hok HT HT0.
  apply (residual_inv e T T0 (λ r, PrimFloat.leb numeric_limits_min r = true));
    [done..| |].
  - by vm_compute.
  - intros x v v0 r _ _ _ Hr.
    destruct (PrimFloat.ltb r (fabs (v - v0))) eqn:Hlt; [|done].
    by apply (float_le_lt_trans _ r).
Qed.

(** Where no interior cell has changed from zero the residual is
    [numeric_limits_min] itself. *)
Lemma residual_zero_interior e (T T0 : Field) :
  block_ok e → block e T → block e T0 →
  interior_zero e T → interior_zero e T0 →
  residual e T T0 = Some numeric_limits_min.
Proof.
  intros Hok HT HT0 Hz Hz0.
  destruct (residual_inv e T T0 (λ r, r = numeric_limits_min)) as (r & Hr & ->);
    [done..| |done].
  intros x v v0 r Hx Hv Hv0 ->.
  rewrite (Hz x Hx) in Hv. rewrite (Hz0 x Hx) in Hv0.
  injection Hv as <-. injection Hv0 as <-. by vm_compute.
Qed.

(** ** One process in one iteration *)

Lemma interior_not_face e d x : block_ok e → interior e x → ¬ on_face e d x.
Proof.
  intros Hok (HX & HY & HZ) Hf. block_bounds Hok. destruct x as [[a b] c].
  destruct d; unfold on_face, inside, axis, coordinate in *; simpl in *; lia.
Qed.

(** Faces, edges and corners leave every cell that is on no face plane as
    it was. *)
Lemma updates_frame e (T0 T : Field) (receiveBuffer : DIRECTION.t → list floatT) :
  block_ok e → block e T0 → block e T →
  (∀ d, Z.of_nat (length (receiveBuffer d)) = buffer_size e d) →
  ∃ T1 T2 T3,
    update_faces e T0 receiveBuffer T = Some T1 ∧ update_edges e T1 = Some T2 ∧
    update_corners e T2 = Some T3 ∧ block e T3 ∧
    ∀ x, ¬ on_boundary e x → cell T3 x = cell T x.
Proof.
  intros Hok HT0 HT Hlen.
  destruct (update_faces_spec e T0 T receiveBuffer Hok HT0 HT Hlen)
    as (T1 & Hr1 & HT1 & Hf1).
  destruct (edges_then_corners e T1 Hok HT1) as (T2 & T3 & Hr2 & Hr3 & HT3 & _ & _ & Hf).
  exists T1, T2, T3. do 4 (split; [done|]).
  intros x Hx. rewrite Hf, Hf1; [done|..].
  - intros d (_ & Hon & _). apply Hx. by exists d.
  - intros d1 d2 (Hon & _). apply Hx. by exists d1.
  - intros d1 d2 d3 (Hon & _). apply Hx. by exists d1.
Qed.

(** ** The phases of an iteration on one process *)

Lemma pack_spec e (T0 : Field) (sb : DIRECTION.t → list floatT) :
  block_ok e → block e T0 →
  (∀ d, Z.of_nat (length (sb d)) = buffer_size e d) →
  ∃ sb', pack e T0 sb = Some sb' ∧
    (∀ d, pack_face e d T0 (sb d) = Some (sb' d)) ∧
    (∀ d, Z.of_nat (length (sb' d)) = buffer_size e d).
Proof.
  intros Hok HT0 Hlen. unfold pack.
  destruct (pack_face_spec e DIRECTION.LEFT T0 _ Hok HT0 (Hlen _)) as (bL & HL & LL & _).
  destruct (pack_face_spec e DIRECTION.RIGHT T0 _ Hok HT0 (Hlen _)) as (bR & HR & LR & _).
  destruct (pack_face_spec e DIRECTION.BOTTOM T0 _ Hok HT0 (Hlen _)) as (bB & HB & LB & _).
  destruct (pack_face_spec e DIRECTION.TOP T0 _ Hok HT0 (Hlen _)) as (bT & HT & LT & _).
  destruct (pack_face_spec e DIRECTION.BACK T0 _ Hok HT0 (Hlen _)) as (bK & HK & LK & _).
  destruct (pack_face_spec e DIRECTION.FRONT T0 _ Hok HT0 (Hlen _)) as (bF & HF & LF & _).
  simpl in HL, HR, HB, HT, HK, HF.
  rewrite HL; simpl. rewrite HR; simpl. rewrite HB; simpl. rewrite HT; simpl.
  rewrite HK; simpl. rewrite HF; simpl.
  eexists. split; [done|]. split.
  - by intros [].
  - intros []; rewrite <- Hlen; congruence.
Qed.

Lemma copy_and_pack_spec e s :
  block_ok e → wf_state e s →
  ∃ sb, copy_and_pack e s =
          Some {| T := T s; T0 := T s; sendBuffer := sb;
                  receiveBuffer := receiveBuffer s;
                  res := res s; norm := norm s; globalNorm := globalNorm s;
                  breakCondition := breakCondition s;
                  globalBreakCondition := globalBreakCondition s;
                  finalNumIterations := finalNumIterations s |} ∧
        (∀ d, pack_face e d (T s) (sendBuffer s d) = Some (sb d)) ∧
        (∀ d, Z.of_nat (length (sb d)) = buffer_size e d).
Proof.
  intros Hok (HT & HT0 & Hsb & Hrb). unfold copy_and_pack.
  rewrite (copy_solution_spec e _ _ Hok HT HT0). simpl.
  destruct (pack_spec e (T s) (sendBuffer s) Hok HT Hsb) as (sb & -> & Hp & Hl).
  simpl. by exists sb.
Qed.

Lemma buffer_size_opposite e e' d :
  (∀ a, chunck e' a = chunck e a) →
  neighbors e d ≠ MPI_PROC_NULL → neighbors e' (opposite d) ≠ MPI_PROC_NULL →
  buffer_size e' (opposite d) = buffer_size e d.
Proof.
  intros Hc Hn Hn'. unfold buffer_size.
  rewrite !decide_True by done. destruct d; simpl; by rewrite !Hc.
Qed.

Lemma halo_exchange_spec w e s :
  wf_state e s →
  (∀ d q, neighbors e d = Some q →
     ∃ sq, w !! q = Some sq ∧
           Z.of_nat (length (sendBuffer sq (opposite d))) = buffer_size e d) →
  ∃ rb, halo_exchange w e s = Some (set_receiveBuffer rb s) ∧
        (∀ d, Z.of_nat (length (rb d)) = buffer_size e d) ∧
        (∀ d, receive w e s d = Some (rb d)).
Proof.
  intros (HT & HT0 & Hsb & Hrb) Hw.
  assert (∀ d, ∃ b, receive w e s d = Some b ∧ Z.of_nat (length b) = buffer_size e d)
    as Hrecv.
  { intros d. unfold receive. destruct (neighbors e d) as [q|] eqn:Hq.
    - destruct (Hw d q Hq) as (sq & -> & Hl). simpl. eauto.
    - eauto. }
  unfold halo_exchange.
  destruct (Hrecv DIRECTION.LEFT) as (bL & HL & LL).
  destruct (Hrecv DIRECTION.RIGHT) as (bR & HR & LR).
  destruct (Hrecv DIRECTION.BOTTOM) as (bB & HB & LB).
  destruct (Hrecv DIRECTION.TOP) as (bT & HT' & LT).
  destruct (Hrecv DIRECTION.BACK) as (bK & HK & LK).
  destruct (Hrecv DIRECTION.FRONT) as (bF & HF & LF).
  rewrite HL, HR, HB, HT', HK, HF. simpl.
  eexists. split; [done|]. split; by intros [].
Qed.

Lemma update_and_residual_spec e time s :
  block_ok e → wf_state e s →
  interior_zero e (T s) → interior_zero e (T0 s) →
  ∃ T', update_and_residual e time s =
          Some {| T := T'; T0 := T0 s; sendBuffer := sendBuffer s;
                  receiveBuffer := receiveBuffer s;
                  res := numeric_limits_min;
                  norm := if decide (time = 0) then numeric_limits_min else norm s;
                  globalNorm := globalNorm s;
                  breakCondition := breakCondition s;
                  globalBreakCondition := globalBreakCondition s;
                  finalNumIterations := finalNumIterations s |} ∧
        block e T' ∧ interior_zero e T' ∧
        ∀ x, ¬ on_boundary e x → cell T' x = cell (T s) x.
Proof.
  intros Hok (HT & HT0 & Hsb & Hrb) Hz Hz0. unfold update_and_residual.
  destruct (updates_frame e (T0 s) (T s) (receiveBuffer s) Hok HT0 HT Hrb)
    as (T1 & T2 & T3 & -> & Hr2 & Hr3 & HT3 & Hfr).
  simpl. rewrite Hr2. simpl. rewrite Hr3. simpl.
  assert (interior_zero e T3) as Hz3.
  { intros x Hx. rewrite Hfr; [by apply Hz|].
    intros [d Hd]. by eapply interior_not_face. }
  rewrite (residual_zero_interior e T3 (T0 s) Hok HT3 HT0 Hz3 Hz0). simpl.
  exists T3. split; [reflexivity|done].
Qed.

(** At any time step the residual is at least [numeric_limits_min], hence
    not zero, and at the first one it becomes the normalisation factor. *)
Lemma update_and_residual_norm e time s :
  block_ok e → wf_state e s →
  ∃ s', update_and_residual e time s = Some s' ∧
        PrimFloat.leb numeric_limits_min (res s') = true ∧
        PrimFloat.eqb (res s') 0 = false ∧
        (time = 0 → norm s' = res s') ∧
        (time ≠ 0 → norm s' = norm s).
Proof.
  intros Hok (HT & HT0 & Hsb & Hrb). unfold update_and_residual.
  destruct (updates_frame e (T0 s) (T s) (receiveBuffer s) Hok HT0 HT Hrb)
    as (T1 & T2 & T3 & -> & Hr2 & Hr3 & HT3 & _).
  simpl. rewrite Hr2. simpl. rewrite Hr3. simpl.
  destruct (residual_ge_min e T3 (T0 s) Hok HT3 HT0) as (r & -> & Hr).
  simpl. eexists. split; [done|]. simpl.
  pose proof (min_le_nonzero r Hr) as Hnz.
  split; [done|]. split; [done|]. rewrite Hnz. simpl.
  split; intros Ht; [by rewrite decide_True|by rewrite decide_False].
Qed.

(** ** All processes in one iteration *)

Lemma each_spec (f : process → state → option state) ps w
    (Q : process → state → state → Prop) :
  length w = length ps →
  (∀ p e s, ps !! p = Some e → w !! p = Some s → ∃ s', f e s = Some s' ∧ Q e s s') →
  ∃ w', each f ps w = Some w' ∧ length w' = length ps ∧
    ∀ p e s, ps !! p = Some e → w !! p = Some s →
      ∃ s', w' !! p = Some s' ∧ f e s = Some s' ∧ Q e s s'.
Proof.
  revert w. induction ps as [|e ps IH]; intros [|s w] Hlen Hf; try done.
  - exists []. split; [done|]. split; [done|]. intros p e s Hp. done.
  - destruct (Hf 0%nat e s) as (s' & Hs' & HQ); [done|done|].
    destruct (IH w) as (w' & Hw' & Hl' & Hall).
    { simpl in Hlen. lia. }
    { intros p e' s0 Hp Hs0. by apply (Hf (S p)). }
    unfold each in *. simpl. rewrite Hs'. simpl. rewrite Hw'. simpl.
    exists (s' :: w'). split; [done|]. split; [simpl; lia|].
    intros [|p] e' s0 Hp Hs0; simpl in *.
    + injection Hp as <-. injection Hs0 as <-. eauto.
    + by apply Hall.
Qed.

Lemma foldl_fmin_const x l :
  Forall (λ y, y = x) l → PrimFloat.ltb x x = false → foldl fmin x l = x.
Proof.
  intros Hl Hx. induction Hl as [|y l -> _ IH]; [done|].
  simpl. unfold fmin at 2. by rewrite Hx.
Qed.

Lemma MPI_MIN_const x l :
  l ≠ [] → Forall (λ y, y = x) l → PrimFloat.ltb x x = false → MPI_MIN l = Some x.
Proof.
  intros Hne Hl Hx. destruct l as [|y l]; [done|].
  apply Forall_cons in Hl as [-> Hl]. simpl. f_equal. by apply foldl_fmin_const.
Qed.

Lemma foldl_max_const (x : Z) l :
  Forall (λ y, y = x) l → foldl Z.max x l = x.
Proof.
  intros Hl. induction Hl as [|y l -> _ IH]; [done|].
  simpl. by rewrite Z.max_id.
Qed.

Lemma MPI_MAX_const (x : Z) l :
  l ≠ [] → Forall (λ y, y = x) l → MPI_MAX l = Some x.
Proof.
  intros Hne Hl. destruct l as [|y l]; [done|].
  apply Forall_cons in Hl as [-> Hl]. simpl. f_equal. by apply foldl_max_const.
Qed.

(** The reduction is a maximum: it is zero exactly when every flag is. *)
Lemma MPI_MAX_spec l g :
  Forall (λ y, 0 ≤ y) l → MPI_MAX l = Some g →
  (g = 0 ↔ Forall (λ y, y = 0) l) ∧ (∀ y, y ∈ l → y ≤ g) ∧ g ∈ l.
Proof.
  destruct l as [|x l]; [done|]. simpl. intros Hl [= <-].
  apply Forall_cons in Hl as [Hx Hl].
  revert x Hx. induction Hl as [|y l Hy Hl IH]; intros x Hx; simpl.
  - split; [|split].
    + split; [by intros ->; repeat constructor|by intros [-> _]%Forall_cons].
    + by intros y ->%list_elem_of_singleton.
    + by left.
  - destruct (IH (Z.max x y) ltac:(lia)) as (Hz & Hle & Hin). split; [|split].
    + rewrite Hz. rewrite !Forall_cons. intuition lia.
    + intros z Hz'. apply elem_of_cons in Hz' as [->|Hz'].
      * etrans; [|apply Hle; by left]. lia.
      * apply elem_of_cons in Hz' as [->|Hz'].
        -- etrans; [|apply Hle; by left]. lia.
        -- apply Hle. by right.
    + apply elem_of_cons in Hin as [Hin|Hin].
      * rewrite Hin. destruct (Z.max_spec x y) as [[_ ->]|[_ ->]];
          [right; by left|by left].
      * right. by right.
Qed.

Lemma lookup_same_length {A B} (l : list A) (k : list B) i x :
  length k = length l → l !! i = Some x → ∃ y, k !! i = Some y.
Proof.
  intros Hlen Hx. apply lookup_lt_is_Some. rewrite Hlen.
  by eapply lookup_lt_Some.
Qed.

Lemma min_over_min :
  (numeric_limits_min / numeric_limits_min)%float = 1%float.
Proof. by vm_compute. Qed.

(** One iteration of all processes, from a world whose interiors are zero. *)
Lemma iteration_spec ps eps time w :
  cartesian_ok ps → Forall block_ok ps → ps ≠ [] → world_ok ps w →
  (time = 0 → Forall (λ s, breakCondition s = 0) w) →
  (time ≠ 0 → Forall (settled eps) w) →
  ∃ w', iteration ps eps time w = Some w' ∧ world_ok ps w' ∧
    Forall (settled eps) w' ∧
    ∀ p e s s', ps !! p = Some e → w !! p = Some s → w' !! p = Some s' →
      ∀ x, ¬ on_boundary e x → cell (T s') x = cell (T s) x.
Proof.
  intros Hcart Hok Hne [Hlen Hw] Hfirst Hlater.
  rewrite Forall_lookup in Hok.
  unfold iteration, update_and_reduce.
  (* copy and pack *)
  destruct (each_spec copy_and_pack ps w
    (λ e s s1, wf_state e s1 ∧ T s1 = T s ∧ T0 s1 = T s ∧ norm s1 = norm s ∧
               globalNorm s1 = globalNorm s ∧ breakCondition s1 = breakCondition s ∧
               res s1 = res s)
    Hlen) as (w1 & -> & Hlen1 & H1).
  { intros p e s Hp Hs. destruct (Hw p e s Hp Hs) as [Hwf Hz].
    destruct (copy_and_pack_spec e s (Hok p e Hp) Hwf) as (sb & -> & _ & Hl).
    eexists. split; [done|]. simpl. destruct Hwf as (HT & HT0 & Hsb & Hrb).
    split; [by unfold wf_state|by repeat split]. }
  simpl.
  (* halo exchange *)
  destruct (each_spec (halo_exchange w1) ps w1
    (λ e s1 s2, wf_state e s2 ∧ T s2 = T s1 ∧ T0 s2 = T0 s1 ∧ norm s2 = norm s1 ∧
                globalNorm s2 = globalNorm s1 ∧ breakCondition s2 = breakCondition s1 ∧
                res s2 = res s1)
    Hlen1) as (w2 & -> & Hlen2 & H2).
  { intros p e s1 Hp Hs1.
    destruct (lookup_same_length ps w p e Hlen Hp) as [s Hs].
    destruct (H1 p e s Hp Hs) as (s1' & Hs1' & _ & Hwf1 & _).
    assert (s1' = s1) as -> by congruence.
    destruct (halo_exchange_spec w1 e s1 Hwf1) as (rb & -> & Hl & _).
    { intros d q Hq. destruct (Hcart p e d q Hp Hq) as (e' & Hq' & Hn' & Hc).
      destruct (lookup_same_length ps w q e' Hlen Hq') as [sq0 Hsq0].
      destruct (H1 q e' sq0 Hq' Hsq0) as (sq & Hsq & _ & (_ & _ & Hsb & _) & _).
      exists sq. split; [done|]. rewrite Hsb.
      apply buffer_size_opposite; [done| |done]. by rewrite Hq. }
    eexists. split; [done|]. simpl. destruct Hwf1 as (HT & HT0 & Hsb & Hrb).
    split; [by unfold wf_state|by repeat split]. }
  simpl.
  (* faces, edges, corners, residual *)
  destruct (each_spec (λ e, update_and_residual e time) ps w2
    (λ e s2 s3, wf_state e s3 ∧ interior_zero e (T s3) ∧
                (∀ x, ¬ on_boundary e x → cell (T s3) x = cell (T s2) x) ∧
                res s3 = numeric_limits_min ∧
                norm s3 = (if decide (time = 0) then numeric_limits_min else norm s2) ∧
                globalNorm s3 = globalNorm s2 ∧ breakCondition s3 = breakCondition s2)
    Hlen2) as (w3 & -> & Hlen3 & H3).
  { intros p e s2 Hp Hs2.
    destruct (lookup_same_length ps w p e Hlen Hp) as [s Hs].
    destruct (Hw p e s Hp Hs) as [_ Hz].
    destruct (H1 p e s Hp Hs) as (s1 & Hs1 & _ & _ & HT1 & HT01 & _).
    destruct (H2 p e s1 Hp Hs1) as (s2' & Hs2' & _ & Hwf2 & HT2 & HT02 & _).
    assert (s2' = s2) as -> by congruence.
    destruct (update_and_residual_spec e time s2 (Hok p e Hp) Hwf2)
      as (T' & -> & HT' & Hz' & Hfr).
    { by rewrite HT2, HT1. }
    { by rewrite HT02, HT01. }
    eexists. split; [done|]. simpl. destruct Hwf2 as (HT & HT0 & Hsb & Hrb).
    split; [by unfold wf_state|by repeat split]. }
  simpl.
  (* what every process holds before the reductions *)
  assert (∀ p e s3, ps !! p = Some e → w3 !! p = Some s3 →
            ∃ s, w !! p = Some s ∧
              wf_state e s3 ∧ interior_zero e (T s3) ∧
              (∀ x, ¬ on_boundary e x → cell (T s3) x = cell (T s) x) ∧
              res s3 = numeric_limits_min ∧
              norm s3 = (if decide (time = 0) then numeric_limits_min else norm s) ∧
              globalNorm s3 = globalNorm s ∧ breakCondition s3 = breakCondition s) as H3'.
  { intros p e s3 Hp Hs3.
    destruct (lookup_same_length ps w p e Hlen Hp) as [s Hs].
    destruct (H1 p e s Hp Hs) as (s1 & Hs1 & _ & _ & HT1 & _ & Hn1 & Hg1 & Hb1 & _).
    destruct (H2 p e s1 Hp Hs1) as (s2 & Hs2 & _ & _ & HT2 & _ & Hn2 & Hg2 & Hb2 & _).
    destruct (H3 p e s2 Hp Hs2) as (s3' & Hs3' & _ & Hwf3 & Hz3 & Hfr & Hr3 & Hn3 & Hg3 & Hb3).
    assert (s3' = s3) as -> by congruence.
    exists s. split; [done|]. split; [done|]. split; [done|]. split.
    { intros x Hx. by rewrite Hfr, HT2, HT1. }
    split; [done|]. split; [by rewrite Hn3, Hn2, Hn1|].
    split; [by rewrite Hg3, Hg2, Hg1|by rewrite Hb3, Hb2, Hb1]. }
  clear H1 H2 H3 Hlen1 Hlen2 w1 w2.
  assert (w3 ≠ []) as Hne3.
  { intros ->. destruct ps; [done|discriminate]. }
  (* the norms *)
  assert (Forall (λ s3, norm s3 = numeric_limits_min) w3) as Hnorm.
  { apply Forall_lookup. intros p s3 Hs3.
    destruct (lookup_same_length w3 ps p s3 (eq_sym Hlen3) Hs3) as [e Hp].
    destruct (H3' p e s3 Hp Hs3) as (s & Hs & _ & _ & _ & _ & Hn & _).
    rewrite Hn. destruct (decide (time = 0)) as [Ht|Ht]; [done|].
    specialize (Hlater Ht). rewrite Forall_lookup in Hlater.
    by destruct (Hlater p s Hs) as (_ & ? & _). }
  set (w4 := if decide (time = 0) then _ else _).
  assert (∃ w4', w4 = Some w4' ∧ length w4' = length ps ∧
     ∀ p s4, w4' !! p = Some s4 → ∃ s3, w3 !! p = Some s3 ∧
       T s4 = T s3 ∧ T0 s4 = T0 s3 ∧ sendBuffer s4 = sendBuffer s3 ∧
       receiveBuffer s4 = receiveBuffer s3 ∧ res s4 = res s3 ∧ norm s4 = norm s3 ∧
       breakCondition s4 = breakCondition s3 ∧
       globalNorm s4 = numeric_limits_min) as (w4' & -> & Hlen4 & H4).
  { unfold w4. destruct (decide (time = 0)) as [Ht|Ht].
    - rewrite (MPI_MIN_const numeric_limits_min); [|by destruct w3| |by vm_compute].
      + simpl. eexists. split; [done|]. split; [by rewrite length_fmap|].
        intros p s4 Hs4. rewrite list_lookup_fmap in Hs4.
        destruct (w3 !! p) as [s3|] eqn:Hs3; [|done]. injection Hs4 as <-.
        exists s3. done.
      + apply Forall_fmap. by eapply Forall_impl.
    - exists w3. split; [done|]. split; [done|]. intros p s3 Hs3. exists s3.
      repeat split; try done.
      destruct (lookup_same_length w3 ps p s3 (eq_sym Hlen3) Hs3) as [e Hp].
      destruct (H3' p e s3 Hp Hs3) as (s & Hs & _ & _ & _ & _ & _ & Hg & _).
      rewrite Hg. specialize (Hlater Ht). rewrite Forall_lookup in Hlater.
      by destruct (Hlater p s Hs) as (_ & _ & ? & _). }
  simpl.
  (* the convergence test gives the same flag everywhere *)
  set (b := if PrimFloat.ltb 1 eps then 1 else 0).
  assert (Forall (λ s5, breakCondition s5 = b) (check_convergence eps <$> w4')) as Hflag.
  { apply Forall_fmap, Forall_lookup. intros p s4 Hs4. simpl.
    destruct (H4 p s4 Hs4) as (s3 & Hs3 & _ & _ & _ & _ & Hr & Hn & Hb & _).
    destruct (lookup_same_length w3 ps p s3 (eq_sym Hlen3) Hs3) as [e Hp].
    destruct (H3' p e s3 Hp Hs3) as (s & Hs & _ & _ & _ & Hr3 & _ & _ & Hb3).
    rewrite Forall_lookup in Hnorm. specialize (Hnorm p s3 Hs3). simpl in Hnorm.
    unfold convergence_test. rewrite Hr, Hn, Hr3, Hnorm, min_over_min. fold b.
    destruct (PrimFloat.ltb 1 eps) eqn:Hlt; [done|].
    rewrite Hb, Hb3. destruct (decide (time = 0)) as [Ht|Ht].
    - specialize (Hfirst Ht). rewrite Forall_lookup in Hfirst. by apply (Hfirst p s).
    - specialize (Hlater Ht). rewrite Forall_lookup in Hlater.
      destruct (Hlater p s Hs) as (_ & _ & _ & Hbs & _). by rewrite Hlt in Hbs. }
  rewrite (MPI_MAX_const b).
  2: { destruct w4'; [by destruct ps|done]. }
  2: { by apply Forall_fmap. }
  simpl. eexists. split; [done|].
  (* the world after the iteration *)
  assert (∀ p s', (set_globalBreakCondition b <$> (check_convergence eps <$> w4')) !! p
                  = Some s' →
            ∃ s3, w3 !! p = Some s3 ∧ T s' = T s3 ∧ T0 s' = T0 s3 ∧
              sendBuffer s' = sendBuffer s3 ∧ receiveBuffer s' = receiveBuffer s3 ∧
              settled eps s') as Hfinal.
  { intros p s' Hs'. rewrite !list_lookup_fmap in Hs'.
    destruct (w4' !! p) as [s4|] eqn:Hs4; [|done]. injection Hs' as <-.
    destruct (H4 p s4 Hs4) as (s3 & Hs3 & HT & HT0 & Hsb & Hrb & Hr & Hn & Hb & Hg).
    exists s3. split; [done|]. simpl. do 4 (split; [done|]).
    rewrite Forall_lookup in Hnorm. specialize (Hnorm p s3 Hs3). simpl in Hnorm.
    destruct (lookup_same_length w3 ps p s3 (eq_sym Hlen3) Hs3) as [e Hp].
    destruct (H3' p e s3 Hp Hs3) as (s & Hs & _ & _ & _ & Hr3 & _).
    unfold settled. simpl. split; [by rewrite Hr|]. split; [by rewrite Hn|].
    split; [done|]. split; [|done].
    rewrite Forall_lookup in Hflag.
    apply (Hflag p (check_convergence eps s4)).
    by rewrite list_lookup_fmap, Hs4. }
  split; [|split].
  - split; [by rewrite !length_fmap|].
    intros p e s' Hp Hs'. destruct (Hfinal p s' Hs') as (s3 & Hs3 & HT & HT0 & Hsb & Hrb & _).
    destruct (H3' p e s3 Hp Hs3) as (s & Hs & (HT3 & HT03 & Hsb3 & Hrb3) & Hz & _).
    split; [|by rewrite HT].
    unfold wf_state. by rewrite HT, HT0, Hsb, Hrb.
  - apply Forall_lookup. intros p s' Hs'. by destruct (Hfinal p s' Hs') as (_ & _ & _ & _ & _ & _ & ?).
  - intros p e s s' Hp Hs Hs' x Hx.
    destruct (Hfinal p s' Hs') as (s3 & Hs3 & HT & _).
    destruct (H3' p e s3 Hp Hs3) as (s0 & Hs0 & _ & _ & Hfr & _).
    assert (s0 = s) as -> by congruence. rewrite HT. by apply Hfr.
Qed.

(** ** The state at the start of the time loop *)

Lemma block_ok_extent e : block_ok e → extent_ok e.
Proof. intros Hok. block_bounds Hok. intros []; lia. Qed.

Lemma buffer_size_nonneg e d : 0 ≤ buffer_size e d.
Proof.
  unfold buffer_size. destruct (decide _); [|lia].
  destruct d; unfold umul; apply u32_range.
Qed.

Lemma allocate_buffer_length e d :
  Z.of_nat (length (allocate_buffer e d)) = buffer_size e d.
Proof.
  unfold allocate_buffer. rewrite length_replicate.
  pose proof (buffer_size_nonneg e d). lia.
Qed.

Lemma initial_value_interior e x :
  block_ok e → interior e x → initial_value e x = 0%float.
Proof.
  intros Hok Hx. unfold initial_value, boundary_face.
  repeat (destruct (decide _) as [[_ Hf]|_];
          [by apply (interior_not_face e _ x Hok) in Hf|]).
  done.
Qed.

Lemma interior_in_block e x : interior e x → in_block e x.
Proof.
  intros (HX & HY & HZ) []; unfold inside in *; simpl in *; lia.
Qed.

Lemma initial_state_spec e :
  extent_ok e →
  ∃ s, initial_state e = Some s ∧ wf_state e s ∧
       norm s = 1%float ∧ breakCondition s = 0 ∧
       ∀ x, in_block e x → cell (T s) x = Some (initial_value e x).
Proof.
  intros Hok. unfold initial_state.
  destruct (initial_conditions_spec e Hok) as (T & -> & HT & Hv). simpl.
  eexists. split; [done|]. simpl. split; [|done].
  split; [done|]. split.
  - apply shape_resize3; pose proof (Hok COORDINATE.X); pose proof (Hok COORDINATE.Y);
      pose proof (Hok COORDINATE.Z); lia.
  - split; intros d; simpl; apply allocate_buffer_length.
Qed.

Lemma initial_world_spec ps :
  Forall block_ok ps →
  ∃ w, mapM initial_state ps = Some w ∧ world_ok ps w ∧
       Forall (λ s, breakCondition s = 0) w ∧
       ∀ p e s, ps !! p = Some e → w !! p = Some s →
         norm s = 1%float ∧
         ∀ x, in_block e x → cell (T s) x = Some (initial_value e x).
Proof.
  induction 1 as [|e ps He Hps (w & Hw & [Hlen Hok] & Hb & Hv)].
  - exists []. split; [done|]. split; [by split|]. split; [done|]. by intros [].
  - destruct (initial_state_spec e (block_ok_extent e He)) as (s & Hs & Hwf & Hn & Hb0 & Hv0).
    exists (s :: w). simpl. rewrite Hs. simpl. rewrite Hw. simpl.
    split; [done|]. split; [|split].
    + split; [simpl; lia|]. intros [|p] e' s' Hp Hs'; simpl in *.
      * injection Hp as <-. injection Hs' as <-. split; [done|].
        intros x Hx. rewrite (Hv0 x (interior_in_block e x Hx)).
        by rewrite initial_value_interior.
      * by apply (Hok p).
    + by constructor.
    + intros [|p] e' s' Hp Hs'; simpl in *.
      * injection Hp as <-. injection Hs' as <-. done.
      * by apply (Hv p).
Qed.

(** ** Several iterations *)

Lemma iterations_snoc ps eps n time w :
  iterations ps eps (S n) time w
  = iterations ps eps n time w ≫= iteration ps eps (time + Z.of_nat n).
Proof.
  revert time w. induction n as [|n IH]; intros time w.
  - simpl. replace (time + Z.of_nat 0) with time by lia.
    by destruct (iteration ps eps time w).
  - change (iterations ps eps (S (S n)) time w)
      with (iteration ps eps time w ≫= iterations ps eps (S n) (time + 1)).
    change (iterations ps eps (S n) time w)
      with (iteration ps eps time w ≫= iterations ps eps n (time + 1)).
    destruct (iteration ps eps time w) as [w'|]; [|done].
    change (iterations ps eps (S n) (time + 1) w'
            = iterations ps eps n (time + 1) w' ≫= iteration ps eps (time + Z.of_nat (S n))).
    rewrite IH. by replace (time + 1 + Z.of_nat n) with (time + Z.of_nat (S n)) by lia.
Qed.

(** Any number of iterations from the initial world: the interiors stay
    zero, and from the first iteration on every process is settled. *)
Lemma iterations_spec ps eps w0 n :
  cartesian_ok ps → Forall block_ok ps → ps ≠ [] →
  world_ok ps w0 → Forall (λ s, breakCondition s = 0) w0 →
  ∃ w, iterations ps eps n 0 w0 = Some w ∧ world_ok ps w ∧
       (n ≠ O → Forall (settled eps) w).
Proof.
  intros Hcart Hok Hne Hw0 Hb0. induction n as [|n (w & Hrun & Hw & Hs)].
  - exists w0. done.
  - rewrite iterations_snoc, Hrun. simpl.
    destruct (iteration_spec ps eps (Z.of_nat n) w Hcart Hok Hne Hw)
      as (w' & Hit & Hw' & Hs' & _).
    + intros Hn. assert (n = O) as -> by lia. simpl in Hrun. by injection Hrun as <-.
    + intros Hn. apply Hs. lia.
    + exists w'. done.
Qed.

(** ** The time loop *)

Lemma settled_stops (ps : list process) eps (w : list state) :
  ps ≠ [] → length w = length ps → Forall (settled eps) w →
  stops w = PrimFloat.ltb 1 eps.
Proof.
  intros Hne Hlen Hs. unfold stops.
  destruct (PrimFloat.ltb 1 eps) eqn:Hlt.
  - apply bool_decide_eq_true. destruct w as [|s w]; [by destruct ps|].
    apply Forall_cons in Hs as [(_ & _ & _ & _ & Hg) _].
    apply Exists_cons_hd. rewrite Hg, Hlt. done.
  - apply bool_decide_eq_false. intros Hex. apply Exists_exists in Hex as (s & Hin & Hg).
    rewrite Forall_forall in Hs. destruct (Hs s Hin) as (_ & _ & _ & _ & Hg').
    rewrite Hlt in Hg'. done.
Qed.

(** Once the processes are settled with [1 < eps] false, the loop runs to
    its cap. *)
Lemma time_loop_runs_on ps eps n time w :
  cartesian_ok ps → Forall block_ok ps → ps ≠ [] →
  PrimFloat.ltb 1 eps = false → time ≠ 0 → 0 ≤ time →
  world_ok ps w → Forall (settled eps) w →
  time_loop ps eps n time w = iterations ps eps n time w.
Proof.
  intros Hcart Hok Hne Hlt. revert time w.
  induction n as [|n IH]; intros time w Ht Ht' Hw Hs; [done|].
  simpl.
  destruct (iteration_spec ps eps time w Hcart Hok Hne Hw) as (w' & -> & Hw' & Hs' & _);
    [done|done|].
  simpl. rewrite (settled_stops ps eps w' Hne (proj1 Hw') Hs'), Hlt.
  apply IH; [lia|lia|done|done].
Qed.

(** The whole time loop: it stops when the first iteration is complete if
    [1 < eps], and runs to the cap otherwise. *)
Lemma time_loop_spec ps eps w0 n :
  cartesian_ok ps → Forall block_ok ps → ps ≠ [] →
  world_ok ps w0 → Forall (λ s, breakCondition s = 0) w0 →
  ∃ w1, iterations ps eps 1 0 w0 = Some w1 ∧
    time_loop ps eps n 0 w0 =
      if decide (n = O) then Some w0
      else if PrimFloat.ltb 1 eps then Some (set_finalNumIterations 0 <$> w1)
      else iterations ps eps n 0 w0.
Proof.
  intros Hcart Hok Hne Hw0 Hb0.
  destruct (iteration_spec ps eps 0 w0 Hcart Hok Hne Hw0) as (w1 & Hit & Hw1 & Hs1 & _);
    [done|done|].
  exists w1. split; [simpl; by rewrite Hit|].
  destruct n as [|n]; [done|]. rewrite decide_False by done.
  simpl. rewrite Hit. simpl.
  rewrite (settled_stops ps eps w1 Hne (proj1 Hw1) Hs1).
  destruct (PrimFloat.ltb 1 eps) eqn:Hlt; [done|].
  by apply time_loop_runs_on.
Qed.

(** * The claims *)

Lemma two_processes_cartesian : cartesian_ok Example.two_processes.
Proof.
  intros p e d q Hp Hq.
  destruct p as [|[|p]]; simpl in Hp; [| |done]; injection Hp as <-;
    destruct d; simpl in Hq; try done; injection Hq as <-;
    (eexists; split; [reflexivity|]; split; [done|by intros []]).
Qed.

Lemma two_processes_block_ok : Forall block_ok Example.two_processes.
Proof. repeat constructor; by vm_compute. Qed.

Lemma settled_test eps s :
  settled eps s → convergence_test eps s = PrimFloat.ltb 1 eps.
Proof.
  intros (Hr & Hn & _). unfold convergence_test. by rewrite Hr, Hn, min_over_min.
Qed.

(** C9. Whatever the number of completed iterations, every strictly
    interior cell of every process still holds its initial value 0.0, and
    an iteration changes no cell that is on none of the six face planes of
    the block. *)
Theorem interior_never_changes ps eps w0 n :
  cartesian_ok ps → Forall block_ok ps → ps ≠ [] →
  mapM initial_state ps = Some w0 →
  ∃ w w', iterations ps eps n 0 w0 = Some w ∧
          iteration ps eps (Z.of_nat n) w = Some w' ∧
    ∀ p e s0 s s', ps !! p = Some e →
      w0 !! p = Some s0 → w !! p = Some s → w' !! p = Some s' →
      (∀ x, interior e x →
         cell (T s0) x = Some 0%float ∧ cell (T s) x = Some 0%float ∧
         cell (T s') x = Some 0%float) ∧
      (∀ x, ¬ on_boundary e x → cell (T s') x = cell (T s) x).
Proof.
  intros Hcart Hok Hne Hinit.
  destruct (initial_world_spec ps Hok) as (w0' & Hinit' & Hw0 & Hb0 & Hn0).
  assert (w0' = w0) as -> by congruence.
  destruct (iterations_spec ps eps w0 n Hcart Hok Hne Hw0 Hb0) as (w & Hrun & Hw & Hs).
  destruct (iteration_spec ps eps (Z.of_nat n) w Hcart Hok Hne Hw)
    as (w' & Hit & Hw' & _ & Hfr).
  { intros Hn. assert (n = O) as -> by lia. simpl in Hrun. by injection Hrun as <-. }
  { intros Hn. apply Hs. lia. }
  exists w, w'. split; [done|]. split; [done|].
  intros p e s0 s s' He Hs0 Hsp Hs'. split.
  - intros x Hx.
    destruct (proj2 Hw0 p e s0 He Hs0) as [_ Hz0].
    destruct (proj2 Hw p e s He Hsp) as [_ Hz].
    destruct (proj2 Hw' p e s' He Hs') as [_ Hz'].
    split; [by apply Hz0|]. split; [by apply Hz|by apply Hz'].
  - by apply (Hfr p e s s').
Qed.

Lemma interior_never_changes_witness :
  cartesian_ok Example.two_processes ∧ Forall block_ok Example.two_processes ∧
  Example.two_processes ≠ [] ∧
  ∃ w0, mapM initial_state Example.two_processes = Some w0 ∧
  ∃ w w', iterations Example.two_processes 0x1p-20 3 0 w0 = Some w ∧
          iteration Example.two_processes 0x1p-20 (Z.of_nat 3) w = Some w' ∧
    ∀ p e s0 s s', Example.two_processes !! p = Some e →
      w0 !! p = Some s0 → w !! p = Some s → w' !! p = Some s' →
      (∀ x, interior e x →
         cell (T s0) x = Some 0%float ∧ cell (T s) x = Some 0%float ∧
         cell (T s') x = Some 0%float) ∧
      (∀ x, ¬ on_boundary e x → cell (T s') x = cell (T s) x).
Proof.
  split; [exact two_processes_cartesian|]. split; [exact two_processes_block_ok|].
  split; [done|].
  destruct (mapM initial_state Example.two_processes) as [w0|] eqn:Hinit;
    [|by vm_compute in Hinit].
  exists w0. split; [done|].
  exact (interior_never_changes Example.two_processes 0x1p-20 w0 3
           two_processes_cartesian two_processes_block_ok ltac:(done) Hinit).
Defined.

Lemma inner_block_ok : block_ok Example.inner.
Proof. by vm_compute. Qed.

Lemma field333_block : block Example.inner Example.field333.
Proof. split; [done|]. repeat constructor. Qed.

Lemma state333_wf : wf_state Example.inner Example.state333.
Proof.
  split; [exact field333_block|]. split; [exact field333_block|].
  split; by intros [].
Qed.

(** C10. In every iteration the residual of a process is at least
    [std::numeric_limits<double>::min()] and therefore not 0.0; at
    iteration 0 the guard [res != 0.0] succeeds and [norm] becomes that
    residual, whatever it was before. *)
Theorem residual_never_zero e time s :
  block_ok e → wf_state e s →
  ∃ s', update_and_residual e time s = Some s' ∧
        PrimFloat.leb numeric_limits_min (res s') = true ∧
        PrimFloat.eqb (res s') 0 = false ∧
        (time = 0 → norm s' = res s').
Proof.
  intros Hok Hwf.
  destruct (update_and_residual_norm e time s Hok Hwf) as (s' & Hs' & Hle & Hnz & Hn & _).
  by exists s'.
Qed.

Lemma residual_never_zero_witness :
  block_ok Example.inner ∧ wf_state Example.inner Example.state333 ∧
  ∃ s', update_and_residual Example.inner 0 Example.state333 = Some s' ∧
        PrimFloat.leb numeric_limits_min (res s') = true ∧
        PrimFloat.eqb (res s') 0 = false ∧
        (0 = 0 → norm s' = res s').
Proof.
  split; [exact inner_block_ok|]. split; [exact state333_wf|].
  exact (residual_never_zero Example.inner 0 Example.state333 inner_block_ok state333_wf).
Defined.

(** Every pair of faces that meet in an edge is in [edge_order], in one
    order or the other, and every triple of faces that meet in a corner is
    in [corner_order]. *)
Lemma edge_order_complete d1 d2 :
  axis d1 ≠ axis d2 → (d1, d2) ∈ edge_order ∨ (d2, d1) ∈ edge_order.
Proof.
  intros Hax. unfold edge_order.
  destruct d1, d2; simpl in Hax; try done;
    first [left; repeat constructor; fail | right; repeat constructor].
Qed.

Lemma corner_order_complete d1 d2 d3 :
  axis d1 = COORDINATE.X → axis d2 = COORDINATE.Y → axis d3 = COORDINATE.Z →
  (d1, d2, d3) ∈ corner_order.
Proof.
  intros H1 H2 H3. unfold corner_order.
  destruct d1, d2, d3; simpl in *; try done; repeat constructor.
Qed.

(** C8. In an iteration [T0] becomes the copy of [T]; then, for every
    direction with a neighbour, the send buffer holds at position
    [slot e d x] (rows of the inner transverse axis, one after the other)
    the value of [T0] on the layer next to the face, for every cell [x] of
    the face with both transverse indices in [1, chunck - 2]; these
    positions are all the positions below [packed e d], and the rest of the
    buffer is as it was. *)
Theorem send_buffers_packed e s :
  block_ok e → wf_state e s →
  ∃ s', copy_and_pack e s = Some s' ∧ T0 s' = T s ∧
    ∀ d, neighbors e d ≠ MPI_PROC_NULL →
      (∀ x, face_cells e d x →
         0 ≤ slot e d x < packed e d ∧
         is_Some (cell (T0 s') (inward d 1 x)) ∧
         at_ (sendBuffer s' d) (slot e d x) = cell (T0 s') (inward d 1 x)) ∧
      (∀ i, 0 ≤ i < packed e d → ∃ x, face_cells e d x ∧ slot e d x = i) ∧
      (∀ i, packed e d ≤ i → at_ (sendBuffer s' d) i = at_ (sendBuffer s d) i).
Proof.
  intros Hok Hwf. pose proof Hwf as (HT & HT0 & Hsb & Hrb).
  destruct (copy_and_pack_spec e s Hok Hwf) as (sb & -> & Hpack & Hlen).
  eexists. split; [done|]. simpl. split; [done|].
  intros d Hd.
  destruct (pack_face_spec e d (T s) (sendBuffer s d) Hok HT (Hsb d))
    as (buf' & Hrun & _ & _ & Hspec).
  rewrite Hpack in Hrun. injection Hrun as <-. by apply Hspec.
Qed.

Lemma send_buffers_packed_witness :
  block_ok Example.inner ∧ wf_state Example.inner Example.state333 ∧
  ∃ s', copy_and_pack Example.inner Example.state333 = Some s' ∧
    T0 s' = T Example.state333 ∧
    ∀ d, neighbors Example.inner d ≠ MPI_PROC_NULL →
      (∀ x, face_cells Example.inner d x →
         0 ≤ slot Example.inner d x < packed Example.inner d ∧
         is_Some (cell (T0 s') (inward d 1 x)) ∧
         at_ (sendBuffer s' d) (slot Example.inner d x) = cell (T0 s') (inward d 1 x)) ∧
      (∀ i, 0 ≤ i < packed Example.inner d →
         ∃ x, face_cells Example.inner d x ∧ slot Example.inner d x = i) ∧
      (∀ i, packed Example.inner d ≤ i →
         at_ (sendBuffer s' d) i = at_ (sendBuffer Example.state333 d) i).
Proof.
  split; [exact inner_block_ok|]. split; [exact state333_wf|].
  exact (send_buffers_packed Example.inner Example.state333 inner_block_ok state333_wf).
Defined.

(** ** Setup *)

Lemma partition_remainder_spec numCells dimension3D d :
  1 ≤ numCells d < 2 ^ 32 → 0 < dimension3D d < 2 ^ 32 →
  partition_remainder numCells dimension3D d
  = Some ((numCells d - 1) mod dimension3D d).
Proof.
  intros Hn Hd. unfold partition_remainder.
  rewrite (u32_small (dimension3D d)) by lia.
  rewrite decide_False by lia. by rewrite usub_small by lia.
Qed.

Lemma chunck_of_spec numCells dimension3D d :
  1 ≤ numCells d < 2 ^ 32 → 0 < dimension3D d < 2 ^ 32 →
  chunck_of numCells dimension3D d = (numCells d - 1) / dimension3D d + 1 ∧
  1 ≤ chunck_of numCells dimension3D d < 2 ^ 32.
Proof.
  intros Hn Hd. unfold chunck_of.
  rewrite (u32_small (dimension3D d)), usub_small by lia.
  assert (0 ≤ (numCells d - 1) / dimension3D d ≤ numCells d - 1) as Hq.
  { split; [apply Z.div_pos; lia|]. apply Z.div_le_upper_bound; [lia|]. nia. }
  rewrite uadd_small; lia.
Qed.

Lemma process_of_extent c numCells dimension3D :
  (∀ d, 1 ≤ numCells d < 2 ^ 32) → (∀ d, 0 < dimension3D d < 2 ^ 32) →
  extent_ok (process_of c numCells dimension3D).
Proof. intros Hn Hd a. simpl. by apply chunck_of_spec. Qed.

Lemma assert_partition_spec numCells dimension3D :
  (∀ d, 1 ≤ numCells d < 2 ^ 32) → (∀ d, 0 < dimension3D d < 2 ^ 32) →
  ((∀ d, (numCells d - 1) mod dimension3D d = 0) ∧
   assert_partition numCells dimension3D = Some (Done ())) ∨
  (∃ d, (numCells d - 1) mod dimension3D d ≠ 0 ∧
        assert_partition numCells dimension3D = Some (AssertionFailed d)).
Proof.
  intros Hn Hd. unfold assert_partition.
  rewrite !partition_remainder_spec by done. simpl.
  case_decide as Hx; [right; by exists COORDINATE.X|].
  case_decide as Hy; [right; by exists COORDINATE.Y|].
  case_decide as Hz; [right; by exists COORDINATE.Z|].
  left. split; [|done]. intros []; lia.
Qed.

(** C6. When [(numCells[d] - 1) % dimension3D[d]] is not 0 for some axis,
    the process ends in a failed [assert] on such an axis, with no field
    allocated and no iteration run; when it is 0 on the three axes, the
    setup goes on and allocates [T] and [T0] with
    [(numCells[d] - 1) / dimension3D[d] + 1] cells along every axis [d]. *)
Theorem partition_checked_before_allocation c numCells dimension3D :
  (∀ d, 1 ≤ numCells d < 2 ^ 32) → (∀ d, 0 < dimension3D d < 2 ^ 32) →
  ((∃ d, (numCells d - 1) mod dimension3D d ≠ 0) →
     ∃ d, (numCells d - 1) mod dimension3D d ≠ 0 ∧
          setup c numCells dimension3D = Some (AssertionFailed d) ∧
          ∀ cs iterMax eps,
            main cs numCells dimension3D iterMax eps = Some (AssertionFailed d)) ∧
  ((∀ d, (numCells d - 1) mod dimension3D d = 0) →
     ∃ e s, setup c numCells dimension3D = Some (Done (e, s)) ∧
            (∀ d, chunck e d = (numCells d - 1) / dimension3D d + 1) ∧
            block e (T s) ∧ block e (T0 s)).
Proof.
  intros Hn Hd.
  destruct (assert_partition_spec numCells dimension3D Hn Hd)
    as [[Hall Ha]|(d & Hbad & Ha)]; split.
  - intros (d & Hbad). destruct (Hbad (Hall d)).
  - intros _. unfold setup. rewrite Ha. simpl.
    destruct (initial_state_spec _ (process_of_extent c numCells dimension3D Hn Hd))
      as (s & -> & (HT & HT0 & _) & _).
    simpl. eexists _, s. split; [done|]. split; [|done].
    intros a. simpl. by apply chunck_of_spec.
  - intros _. exists d. split; [done|]. unfold setup, main. rewrite Ha. by simpl.
  - intros Hall. destruct (Hbad (Hall d)).
Qed.

Lemma partition_checked_witness :
  ((∀ d, 1 ≤ Example.cells533 d < 2 ^ 32) ∧ (∀ d, 0 < Example.grid211 d < 2 ^ 32) ∧
   (∀ d, (Example.cells533 d - 1) mod Example.grid211 d = 0) ∧
   ∃ e s, setup Example.left_half Example.cells533 Example.grid211 = Some (Done (e, s)) ∧
          (∀ d, chunck e d = (Example.cells533 d - 1) / Example.grid211 d + 1) ∧
          block e (T s) ∧ block e (T0 s)) ∧
  ((∀ d, 1 ≤ Example.cells433 d < 2 ^ 32) ∧ (∀ d, 0 < Example.grid211 d < 2 ^ 32) ∧
   (∃ d, (Example.cells433 d - 1) mod Example.grid211 d ≠ 0) ∧
   ∃ d, (Example.cells433 d - 1) mod Example.grid211 d ≠ 0 ∧
        setup Example.left_half Example.cells433 Example.grid211 = Some (AssertionFailed d) ∧
        ∀ cs iterMax eps,
          main cs Example.cells433 Example.grid211 iterMax eps = Some (AssertionFailed d)).
Proof.
  assert (∀ d, 1 ≤ Example.cells533 d < 2 ^ 32) as H5
    by (intros []; unfold Example.cells533; lia).
  assert (∀ d, 1 ≤ Example.cells433 d < 2 ^ 32) as H3
    by (intros []; unfold Example.cells433; lia).
  assert (∀ d, 0 < Example.grid211 d < 2 ^ 32) as H2
    by (intros []; unfold Example.grid211; lia).
  assert (∀ d, (Example.cells533 d - 1) mod Example.grid211 d = 0) as Hgood
    by (intros []; reflexivity).
  assert (∃ d, (Example.cells433 d - 1) mod Example.grid211 d ≠ 0) as Hbad
    by (exists COORDINATE.X; intros [=]).
  split.
  - do 3 (split; [done|]).
    exact (proj2 (partition_checked_before_allocation Example.left_half
                    Example.cells533 Example.grid211 H5 H2) Hgood).
  - do 3 (split; [done|]).
    exact (proj1 (partition_checked_before_allocation Example.left_half
                    Example.cells433 Example.grid211 H3 H2) Hbad).
Defined.

(** ** Initial conditions *)

Lemma four_of_five (l : list DIRECTION.t) :
  length l = 4%nat → ∃ d, d ∈ bc_faces ∧ d ∉ l.
Proof.
  intros Hl.
  destruct (decide (Exists (λ d, d ∉ l) bc_faces)) as [Hex|Hno].
  - apply Exists_exists in Hex. exact Hex.
  - apply not_Exists_Forall in Hno; [|intros d; apply _].
    assert (bc_faces ⊆+ l) as Hsub.
    { apply NoDup_submseteq.
      - apply (bool_decide_unpack _). by vm_compute.
      - intros d Hd. rewrite Forall_forall in Hno.
        destruct (decide (d ∈ l)) as [|Hn]; [done|]. destruct (Hno d Hd Hn). }
    apply submseteq_length in Hsub. simpl in Hsub. lia.
Qed.

Lemma float_Some_ne (a b : floatT) :
  PrimFloat.eqb a b = false → PrimFloat.eqb a a = true → Some a ≠ Some b.
Proof. intros Hab Haa [= ->]. congruence. Qed.

(** C4, against the claim.  One process with 3 x 3 x 3 cells has no
    neighbour on any face; the source gives it five faces with boundary
    values, the top face at 1.0 and the left, right, back and front faces at
    the ramp, so no choice of one face at 1.0 and three faces at a ramp
    leaves every other cell at 0.0. *)
Lemma initial_conditions_not_three_ramps :
  ∃ T, initial_conditions (process_of Example.alone Example.cells333 Example.grid111)
       = Some T ∧
       ¬ claimed_initial_conditions
           (process_of Example.alone Example.cells333 Example.grid111) T.
Proof.
  eexists. split; [by vm_compute|].
  intros (one & r1 & r2 & r3 & f & _ & _ & _ & _ & Hzero).
  destruct (four_of_five [one; r1; r2; r3] eq_refl) as (d & Hd & Hnot).
  specialize (Hzero (Example.centre d)).
  assert (∀ d', d' ∈ [one; r1; r2; r3] →
            ¬ on_face (process_of Example.alone Example.cells333 Example.grid111) d'
                (Example.centre d)) as Hoff.
  { intros d' Hd' Hon. assert (d' ≠ d) as Hne by (intros ->; done).
    destruct d, d'; try done; vm_compute in Hon; discriminate. }
  unfold bc_faces in Hd.
  repeat (apply elem_of_cons in Hd as [->|Hd]);
    [..|by apply elem_of_nil in Hd];
    (revert Hzero; vm_compute; intros Hzero;
     refine (float_Some_ne _ _ _ _ (Hzero _ Hoff)); [by vm_compute|by vm_compute|];
     intros []; vm_compute; split; congruence).
Qed.

(** C4, amended.  Before the time loop every cell of the block is 0.0
    except on faces without a neighbour: a cell on the left, right, back or
    front such face (four faces) holds the ramp
    [(coordinates3D[Y] * (chunck[Y] - 1) + j) * spacing[Y]] of its index [j];
    a cell on the top face without neighbour and on none of those holds 1.0;
    the bottom face is given no value. *)
Theorem initial_conditions_four_ramps e :
  extent_ok e →
  ∃ T, initial_conditions e = Some T ∧ block e T ∧
    ∀ x, in_block e x →
      ((∃ d, d ∈ ramp_faces ∧ boundary_face e d x) →
         cell T x = Some (ramp e x.1.2)) ∧
      ((∀ d, d ∈ ramp_faces → ¬ boundary_face e d x) →
         boundary_face e DIRECTION.TOP x → cell T x = Some 1%float) ∧
      ((∀ d, d ≠ DIRECTION.BOTTOM → ¬ boundary_face e d x) →
         cell T x = Some 0%float).
Proof.
  intros Hok.
  destruct (initial_conditions_spec e Hok) as (T & HT & Hb & Hv).
  exists T. split; [done|]. split; [done|].
  intros x Hx. rewrite (Hv x Hx). unfold initial_value, ramp_faces.
  split; [|split].
  - intros (d & Hd & Hf).
    repeat (apply elem_of_cons in Hd as [->|Hd]);
      [..|by apply elem_of_nil in Hd]; by repeat case_decide.
  - intros Hno Htop.
    repeat (rewrite decide_False by (apply Hno; repeat constructor)).
    by rewrite decide_True.
  - intros Hno. by rewrite !decide_False by (by apply Hno).
Qed.

Lemma initial_conditions_four_ramps_witness :
  extent_ok (process_of Example.left_half Example.cells533 Example.grid211) ∧
  ∃ T, initial_conditions (process_of Example.left_half Example.cells533 Example.grid211)
       = Some T ∧
    block (process_of Example.left_half Example.cells533 Example.grid211) T ∧
    ∀ x, in_block (process_of Example.left_half Example.cells533 Example.grid211) x →
      ((∃ d, d ∈ ramp_faces ∧
             boundary_face (process_of Example.left_half Example.cells533 Example.grid211) d x) →
         cell T x
         = Some (ramp (process_of Example.left_half Example.cells533 Example.grid211) x.1.2)) ∧
      ((∀ d, d ∈ ramp_faces →
             ¬ boundary_face (process_of Example.left_half Example.cells533 Example.grid211) d x) →
         boundary_face (process_of Example.left_half Example.cells533 Example.grid211)
           DIRECTION.TOP x →
         cell T x = Some 1%float) ∧
      ((∀ d, d ≠ DIRECTION.BOTTOM →
             ¬ boundary_face (process_of Example.left_half Example.cells533 Example.grid211) d x) →
         cell T x = Some 0%float).
Proof.
  assert (extent_ok (process_of Example.left_half Example.cells533 Example.grid211)) as Hok
    by (intros []; vm_compute; split; congruence).
  split; [exact Hok|].
  exact (initial_conditions_four_ramps _ Hok).
Defined.

(** ** The interior of the block *)

(** C1, against the source.  One process, 3 x 3 x 3 cells, one iteration:
    the cell (1, 1, 1) is strictly interior and still holds 0.0 when the
    iteration is complete, whereas the update of the specification, read on
    the copy [T0] of that iteration, gives it a value other than 0.0.  The
    time loop has no statement that assigns an interior cell. *)
Theorem interior_update_missing :
  ∃ s v,
    main [Example.alone] Example.cells333 Example.grid111 1 0.5 = Some (Done [s]) ∧
    interior (process_of Example.alone Example.cells333 Example.grid111) (1, 1, 1) ∧
    cell (T s) (1, 1, 1) = Some 0%float ∧
    stencil_of_the_spec (process_of Example.alone Example.cells333 Example.grid111)
      (T0 s) (1, 1, 1) = Some v ∧
    PrimFloat.eqb v 0 = false.
Proof.
  eexists _, _. split; [by vm_compute|].
  split; [by vm_compute|]. split; [by vm_compute|].
  split; by vm_compute.
Qed.

(** C5, against the source.  One process, 3 x 3 x 3 cells, one iteration:
    [T] and [T0] agree on every strictly interior cell, and the residual is
    [std::numeric_limits<double>::min()], the value with which the source
    starts the maximum, not 0.0. *)
Theorem residual_not_zero_on_equal_fields :
  ∃ s,
    main [Example.alone] Example.cells333 Example.grid111 1 0.5 = Some (Done [s]) ∧
    (∀ x, interior (process_of Example.alone Example.cells333 Example.grid111) x →
          cell (T s) x = cell (T0 s) x) ∧
    res s = numeric_limits_min ∧
    PrimFloat.eqb (res s) 0 = false.
Proof.
  eexists. split; [by vm_compute|].
  split; [|split; by vm_compute].
  intros [[i j] k] (Hi & Hj & Hk).
  assert (∀ a, chunck (process_of Example.alone Example.cells333 Example.grid111) a = 3)
    as Hc by (by intros []).
  unfold inside in Hi, Hj, Hk. rewrite Hc in Hi, Hj, Hk. simpl in Hi, Hj, Hk.
  assert (i = 1) as -> by lia. assert (j = 1) as -> by lia. assert (k = 1) as -> by lia.
  by vm_compute.
Qed.

(** * Further properties of the code *)

Lemma stencil_cell e T0 x : stencil e (cell T0) x = stencil_of_the_spec e T0 x.
Proof. by destruct x as [[i j] k]. Qed.

(** Two nested loops that assign the cells [p a b], counting the cells
    visited: the cell [p a b] ends with the value computed when the counter
    is the number of cells visited before it. *)
Lemma sweep_values nx ny nz (pi pj pk : Z → Z → Z) (val : Z → Z → Z → option floatT)
    lo1 hi1 lo2 hi2 (T : Field) :
  shape nx ny nz T → lo1 ≤ hi1 → lo2 ≤ hi2 → (hi1 - lo1) * (hi2 - lo2) < 2 ^ 32 →
  (∀ a b, lo1 ≤ a < hi1 → lo2 ≤ b < hi2 →
     (0 ≤ pi a b < nx ∧ 0 ≤ pj a b < ny ∧ 0 ≤ pk a b < nz) ∧
     is_Some (val a b ((a - lo1) * (hi2 - lo2) + (b - lo2)))) →
  (∀ a b a' b', lo1 ≤ a < hi1 → lo2 ≤ b < hi2 → lo1 ≤ a' < hi1 → lo2 ≤ b' < hi2 →
     (pi a b, pj a b, pk a b) = (pi a' b', pj a' b', pk a' b') → a = a' ∧ b = b') →
  ∃ T', for_range lo1 hi1 (λ a,
          for_range lo2 hi2 (λ b '(T, counter),
            T ← set T (pi a b) (pj a b) (pk a b) (val a b counter);
            Some (T, uadd counter 1))) (T, 0)
        = Some (T', (hi1 - lo1) * (hi2 - lo2)) ∧
        ∀ a b, lo1 ≤ a < hi1 → lo2 ≤ b < hi2 →
          cell T' (pi a b, pj a b, pk a b)
          = val a b ((a - lo1) * (hi2 - lo2) + (b - lo2)).
Proof.
  intros HT H1 H2 Hsz Hbody Hinj.
  set (m := hi2 - lo2).
  destruct (for_range_inv
    (λ a (s : Field * Z), shape nx ny nz s.1 ∧ s.2 = (a - lo1) * m ∧
       ∀ a' b', lo1 ≤ a' < a → lo2 ≤ b' < hi2 →
         cell s.1 (pi a' b', pj a' b', pk a' b') = val a' b' ((a' - lo1) * m + (b' - lo2)))
    (λ a, for_range lo2 hi2 (λ b '(T, counter),
            T ← set T (pi a b) (pj a b) (pk a b) (val a b counter);
            Some (T, uadd counter 1)))
    lo1 hi1 (T, 0)) as ([T' c] & Hrun & HT' & Hc & Hv); [done| | |].
  - simpl. split; [done|]. split; [lia|]. intros; lia.
  - intros a [U c] Ha (HU & Hc & Hv). simpl in *.
    destruct (for_range_inv
      (λ b (s : Field * Z), shape nx ny nz s.1 ∧ s.2 = (a - lo1) * m + (b - lo2) ∧
         ∀ a' b', lo1 ≤ a' → lo2 ≤ b' < hi2 → a' < a ∨ (a' = a ∧ b' < b) →
           cell s.1 (pi a' b', pj a' b', pk a' b')
           = val a' b' ((a' - lo1) * m + (b' - lo2)))
      (λ b '(T, counter),
            T ← set T (pi a b) (pj a b) (pk a b) (val a b counter);
            Some (T, uadd counter 1))
      lo2 hi2 (U, c)) as ([U' c'] & Hrun & HU' & Hc' & Hv'); [done| | |].
    + simpl. split; [done|]. split; [lia|].
      intros a' b' Ha' Hb' [Hlt|[_ Hlt]]; [apply Hv; lia|lia].
    + intros b [U1 c1] Hb (HU1 & Hc1 & Hv1). simpl in *.
      destruct (Hbody a b Ha Hb) as (Hp & [v Hv0]).
      subst c1. fold m in Hv0. rewrite Hv0.
      destruct (set_spec nx ny nz U1 (pi a b) (pj a b) (pk a b) v)
        as (U2 & -> & HU2 & Hget & Hframe); [done|lia|lia|lia|].
      simpl. eexists (_, _). split; [done|]. simpl. split; [done|]. split.
      * rewrite uadd_small; [lia|]. subst m. nia.
      * intros a' b' Ha' Hb' Hlt.
        destruct (decide (a' = a ∧ b' = b)) as [[-> ->]|Hne].
        -- rewrite Hv0. exact Hget.
        -- unfold cell. simpl. rewrite Hframe.
           ++ apply (Hv1 a' b'); [done|done|lia].
           ++ intros Heq. apply Hne. apply (Hinj a' b' a b); [lia|lia|lia|lia|done].
    + exists (U', c'). split; [done|]. simpl in *. split; [done|]. split; [lia|].
      intros a' b' Ha' Hb'. apply Hv'; lia.
  - exists T'. simpl in *. subst c. split; [by rewrite Hrun|].
    intros a b Ha Hb. by apply Hv.
Qed.

(** Equality of two float expressions of the source up to the arithmetic
    of their subscripts. *)
Ltac same_reads :=
  repeat first
    [ reflexivity
    | match goal with
      | |- lift2 _ _ _ = lift2 _ _ _ => f_equal
      | |- get _ _ _ _ = get _ _ _ _ => f_equal; lia
      | |- at_ _ _ = at_ _ _ => f_equal; lia
      end ].

Ltac halo_reads :=
  repeat match goal with
    | |- context [decide (?y = ?z)] =>
        first [ rewrite (decide_True (P := y = z)) by (repeat f_equal; lia)
              | rewrite (decide_False (P := y = z)) by (intros [=]; lia) ]
    end.

Lemma face_update_values e d (T0 T : Field) (THalo : list floatT) :
  block_ok e → block e T0 → block e T →
  Z.of_nat (length THalo) = buffer_size e d →
  neighbors e d ≠ MPI_PROC_NULL →
  ∃ T', face_update e d T0 THalo T = Some T' ∧
    ∀ x, face_cells e d x →
      is_Some (cell T' x) ∧ cell T' x = stencil e (with_halo e d T0 THalo x) x.
Proof.
  intros Hok HT0 HT Hlen Hnb. block_bounds Hok. unfold block in *.
  destruct d; simpl face_update;
    unfold update_LEFT, update_RIGHT, update_BOTTOM, update_TOP, update_BACK,
      update_FRONT, buffer_size in *;
    cbv zeta; revert Hlen; rewrite !decide_True by done; unwrap; intros Hlen;
    (match goal with
    | |- context [for_range ?lo1 ?hi1 (λ a, for_range ?lo2 ?hi2 (λ b '(U, counter),
                     U' ← set U (@?pi a b) (@?pj a b) (@?pk a b) (@?val a b counter);
                     Some (U', uadd counter 1))) (?T, 0)] =>
        destruct (sweep_values _ _ _ pi pj pk val lo1 hi1 lo2 hi2 T HT)
          as (T' & -> & Hv); [lia|lia|apply face_bound; lia| | |]
    end;
    [ intros a b Ha Hb; split; [lia|];
      unwrap; repeat apply lift2_is_Some;
        try (by eexists);
        try (apply (get_Some _ _ _ _ _ _ _ HT0); lia);
        apply at_is_Some; rewrite Hlen; apply slot_bound; lia
    | intros a b a' b' _ _ _ _ [=]; lia
    | exists T'; split; [done|];
      intros [[i j] k] [Hf Hin];
      pose proof (Hin COORDINATE.X) as HiX;
      pose proof (Hin COORDINATE.Y) as HiY;
      pose proof (Hin COORDINATE.Z) as HiZ;
      unfold on_face, inside, axis, coordinate in *; simpl in *;
      try specialize (HiX ltac:(done));
      try specialize (HiY ltac:(done));
      try specialize (HiZ ltac:(done));
      subst ]).
  all: match goal with
       | |- is_Some (cell _ (?i, ?j, ?k)) ∧ _ =>
           first [ specialize (Hv j k ltac:(lia) ltac:(lia))
                 | specialize (Hv i k ltac:(lia) ltac:(lia))
                 | specialize (Hv i j ltac:(lia) ltac:(lia)) ]
       end.
  all: simpl in Hv; rewrite Hv.
  all: (split;
    [ unwrap; repeat apply lift2_is_Some;
        try (by eexists);
        try (apply (get_Some _ _ _ _ _ _ _ HT0); lia);
        apply at_is_Some; rewrite Hlen; apply slot_bound; lia
    | unfold stencil, with_halo, inward, slot, transverse, axis, coordinate, cell;
      simpl; halo_reads; unwrap; same_reads ]).
Qed.

Lemma face_cells_disjoint e d d' x :
  block_ok e → face_cells e d x → face_cells e d' x → d = d'.
Proof.
  intros Hok [Hf Hin] [Hf' Hin']. block_bounds Hok.
  destruct x as [[i j] k].
  pose proof (Hin COORDINATE.X) as HiX. pose proof (Hin COORDINATE.Y) as HiY.
  pose proof (Hin COORDINATE.Z) as HiZ.
  pose proof (Hin' COORDINATE.X) as HiX'. pose proof (Hin' COORDINATE.Y) as HiY'.
  pose proof (Hin' COORDINATE.Z) as HiZ'.
  destruct d, d'; try done;
    unfold on_face, inside, axis, coordinate in *; simpl in *;
    try specialize (HiX ltac:(done)); try specialize (HiY ltac:(done));
    try specialize (HiZ ltac:(done)); try specialize (HiX' ltac:(done));
    try specialize (HiY' ltac:(done)); try specialize (HiZ' ltac:(done)); lia.
Qed.

Lemma update_faces_values e (T0 T : Field) (receiveBuffer : DIRECTION.t → list floatT) :
  block_ok e → block e T0 → block e T →
  (∀ d, Z.of_nat (length (receiveBuffer d)) = buffer_size e d) →
  ∃ T', update_faces e T0 receiveBuffer T = Some T' ∧ block e T' ∧
    (∀ d x, neighbors e d ≠ MPI_PROC_NULL → face_cells e d x →
       is_Some (cell T' x) ∧
       cell T' x = stencil e (with_halo e d T0 (receiveBuffer d) x) x) ∧
    (∀ x, (∀ d, ¬ (neighbors e d ≠ MPI_PROC_NULL ∧ face_cells e d x)) →
       cell T' x = cell T x).
Proof.
  intros Hok HT0 HT Hlen.
  destruct (update_faces_spec e T0 T receiveBuffer Hok HT0 HT Hlen) as (T6 & Hrun & HT6 & Hfr).
  exists T6. split; [done|]. split; [done|]. split; [|done].
  intros d x Hd Hx. revert Hrun. unfold update_faces.
  destruct (face_update_spec e DIRECTION.LEFT T0 T _ Hok HT0 HT (Hlen _))
    as (T1 & Hr1 & HT1 & H1).
  destruct (face_update_spec e DIRECTION.RIGHT T0 T1 _ Hok HT0 HT1 (Hlen _))
    as (T2 & Hr2 & HT2 & H2).
  destruct (face_update_spec e DIRECTION.BOTTOM T0 T2 _ Hok HT0 HT2 (Hlen _))
    as (T3 & Hr3 & HT3 & H3).
  destruct (face_update_spec e DIRECTION.TOP T0 T3 _ Hok HT0 HT3 (Hlen _))
    as (T4 & Hr4 & HT4 & H4).
  destruct (face_update_spec e DIRECTION.BACK T0 T4 _ Hok HT0 HT4 (Hlen _))
    as (T5 & Hr5 & HT5 & H5).
  destruct (face_update_spec e DIRECTION.FRONT T0 T5 _ Hok HT0 HT5 (Hlen _))
    as (T6' & Hr6 & HT6' & H6).
  simpl in Hr1, Hr2, Hr3, Hr4, Hr5, Hr6.
  rewrite Hr1; simpl. rewrite Hr2; simpl. rewrite Hr3; simpl.
  rewrite Hr4; simpl. rewrite Hr5; simpl. rewrite Hr6. intros [= <-].
  assert (∀ d', d' ≠ d → ¬ (neighbors e d' ≠ MPI_PROC_NULL ∧ face_cells e d' x)) as Hoth.
  { intros d' Hne [_ Hx']. apply Hne. by apply (face_cells_disjoint e d' d x). }
  destruct d.
  - destruct (face_update_values e DIRECTION.LEFT T0 T _ Hok HT0 HT (Hlen _) Hd)
      as (U & HU & HV). simpl in HU. rewrite Hr1 in HU. injection HU as <-.
    rewrite H6, H5, H4, H3, H2 by (by apply Hoth). by apply HV.
  - destruct (face_update_values e DIRECTION.RIGHT T0 T1 _ Hok HT0 HT1 (Hlen _) Hd)
      as (U & HU & HV). simpl in HU. rewrite Hr2 in HU. injection HU as <-.
    rewrite H6, H5, H4, H3 by (by apply Hoth). by apply HV.
  - destruct (face_update_values e DIRECTION.BOTTOM T0 T2 _ Hok HT0 HT2 (Hlen _) Hd)
      as (U & HU & HV). simpl in HU. rewrite Hr3 in HU. injection HU as <-.
    rewrite H6, H5, H4 by (by apply Hoth). by apply HV.
  - destruct (face_update_values e DIRECTION.TOP T0 T3 _ Hok HT0 HT3 (Hlen _) Hd)
      as (U & HU & HV). simpl in HU. rewrite Hr4 in HU. injection HU as <-.
    rewrite H6, H5 by (by apply Hoth). by apply HV.
  - destruct (face_update_values e DIRECTION.BACK T0 T4 _ Hok HT0 HT4 (Hlen _) Hd)
      as (U & HU & HV). simpl in HU. rewrite Hr5 in HU. injection HU as <-.
    rewrite H6 by (by apply Hoth). by apply HV.
  - destruct (face_update_values e DIRECTION.FRONT T0 T5 _ Hok HT0 HT5 (Hlen _) Hd)
      as (U & HU & HV). simpl in HU. rewrite Hr6 in HU. injection HU as <-.
    by apply HV.
Qed.

Lemma updates_frame_written e (T0 T : Field) (receiveBuffer : DIRECTION.t → list floatT) :
  block_ok e → block e T0 → block e T →
  (∀ d, Z.of_nat (length (receiveBuffer d)) = buffer_size e d) →
  ∃ T1 T2 T3,
    update_faces e T0 receiveBuffer T = Some T1 ∧ update_edges e T1 = Some T2 ∧
    update_corners e T2 = Some T3 ∧ block e T3 ∧
    ∀ x, ¬ written e x → cell T3 x = cell T x.
Proof.
  intros Hok HT0 HT Hlen.
  destruct (update_faces_spec e T0 T receiveBuffer Hok HT0 HT Hlen)
    as (T1 & Hr1 & HT1 & Hf1).
  assert (Forall (λ ed, ed ∈ edge_order) edge_order) as Hall
    by (apply Forall_forall; auto).
  assert (Forall (λ c, c ∈ corner_order) corner_order) as Hallc
    by (apply Forall_forall; auto).
  destruct (run_edges_spec e edge_order T1 Hall Hok HT1) as (T2 & Hr2 & HT2 & Hf2).
  destruct (run_corners_spec e corner_order T2 Hallc Hok HT2) as (T3 & Hr3 & HT3 & Hf3).
  exists T1, T2, T3. rewrite update_edges_run, update_corners_run.
  do 4 (split; [done|]).
  intros x Hx. rewrite Hf3, Hf2, Hf1; [done|..].
  - intros d Hd. apply Hx. left. by exists d.
  - intros d1 d2 Hin (H1 & H2 & Hon). apply Hx. right. left. by exists d1, d2.
  - intros d1 d2 d3 Hin (H1 & H2 & H3 & Hon). apply Hx. right. right.
    by exists d1, d2, d3.
Qed.

(** A cell on a face without neighbour is never assigned. *)
Lemma boundary_not_written e d x :
  block_ok e → boundary_face e d x → ¬ written e x.
Proof.
  intros Hok [Hnone Hon] Hw. block_bounds Hok. destruct x as [[i j] k].
  destruct Hw as [(d' & Hd' & Hf & Hin)|[(d1 & d2 & Hmem & H1 & H2 & Hf1 & Hf2 & Hin)
                 |(d1 & d2 & d3 & Hmem & H1 & H2 & H3 & Hf1 & Hf2 & Hf3)]].
  - pose proof (Hin COORDINATE.X) as HiX. pose proof (Hin COORDINATE.Y) as HiY.
    pose proof (Hin COORDINATE.Z) as HiZ.
    destruct d, d'; try done;
      unfold on_face, inside, axis, coordinate in *; simpl in *;
      try specialize (HiX ltac:(done)); try specialize (HiY ltac:(done));
      try specialize (HiZ ltac:(done)); lia.
  - pose proof (Hin COORDINATE.X) as HiX. pose proof (Hin COORDINATE.Y) as HiY.
    pose proof (Hin COORDINATE.Z) as HiZ.
    unfold edge_order in Hmem.
    repeat (apply elem_of_cons in Hmem as [[= -> ->]|Hmem]);
      [..|by apply elem_of_nil in Hmem];
      destruct d; try done;
      unfold on_face, inside, axis, coordinate in *; simpl in *;
      try specialize (HiX ltac:(done) ltac:(done));
      try specialize (HiY ltac:(done) ltac:(done));
      try specialize (HiZ ltac:(done) ltac:(done)); lia.
  - unfold corner_order in Hmem.
    repeat (apply elem_of_cons in Hmem as [[= -> -> ->]|Hmem]);
      [..|by apply elem_of_nil in Hmem];
      destruct d; try done;
      unfold on_face, axis, coordinate in *; simpl in *; lia.
Qed.

Lemma interior_not_written e x : block_ok e → interior e x → ¬ written e x.
Proof.
  intros Hok Hint [(d & _ & Hf & _)|[(d1 & d2 & _ & _ & _ & Hf & _)
                  |(d1 & d2 & d3 & _ & _ & _ & _ & Hf & _)]];
    by eapply interior_not_face.
Qed.

Lemma on_edge_not_face_cells e d d1 d2 x :
  block_ok e → (d1, d2) ∈ edge_order → face_cells e d x → ¬ on_edge e d1 d2 x.
Proof.
  intros Hok Hmem [Hf Hin] (Hf1 & Hf2 & _). block_bounds Hok. destruct x as [[i j] k].
  pose proof (Hin COORDINATE.X) as HiX. pose proof (Hin COORDINATE.Y) as HiY.
  pose proof (Hin COORDINATE.Z) as HiZ.
  unfold edge_order in Hmem.
  repeat (apply elem_of_cons in Hmem as [[= -> ->]|Hmem]);
    [..|by apply elem_of_nil in Hmem];
    destruct d;
    unfold on_face, inside, axis, coordinate in *; simpl in *;
    try specialize (HiX ltac:(done)); try specialize (HiY ltac:(done));
    try specialize (HiZ ltac:(done)); lia.
Qed.

Lemma on_corner_not_face_cells e d d1 d2 d3 x :
  block_ok e → (d1, d2, d3) ∈ corner_order → face_cells e d x →
  ¬ on_corner e d1 d2 d3 x.
Proof.
  intros Hok Hmem [Hf Hin] (Hf1 & Hf2 & Hf3). block_bounds Hok. destruct x as [[i j] k].
  pose proof (Hin COORDINATE.X) as HiX. pose proof (Hin COORDINATE.Y) as HiY.
  pose proof (Hin COORDINATE.Z) as HiZ.
  unfold corner_order in Hmem.
  repeat (apply elem_of_cons in Hmem as [[= -> -> ->]|Hmem]);
    [..|by apply elem_of_nil in Hmem];
    destruct d;
    unfold on_face, inside, axis, coordinate in *; simpl in *;
    try specialize (HiX ltac:(done)); try specialize (HiY ltac:(done));
    try specialize (HiZ ltac:(done)); lia.
Qed.

(** ** One process in one iteration, from any well-formed state *)

Lemma update_and_residual_general e time s :
  block_ok e → wf_state e s →
  ∃ T1 T2 T3 r,
    update_faces e (T0 s) (receiveBuffer s) (T s) = Some T1 ∧
    update_edges e T1 = Some T2 ∧ update_corners e T2 = Some T3 ∧
    residual e T3 (T0 s) = Some r ∧ block e T3 ∧
    PrimFloat.leb numeric_limits_min r = true ∧
    update_and_residual e time s =
      Some {| T := T3; T0 := T0 s; sendBuffer := sendBuffer s;
              receiveBuffer := receiveBuffer s; res := r;
              norm := if decide (time = 0) then r else norm s;
              globalNorm := globalNorm s;
              breakCondition := breakCondition s;
              globalBreakCondition := globalBreakCondition s;
              finalNumIterations := finalNumIterations s |} ∧
    (∀ x, ¬ written e x → cell T3 x = cell (T s) x) ∧
    (∀ d x, neighbors e d ≠ MPI_PROC_NULL → face_cells e d x →
       is_Some (cell T3 x) ∧
       cell T3 x = stencil e (with_halo e d (T0 s) (receiveBuffer s d) x) x).
Proof.
  intros Hok (HT & HT0 & Hsb & Hrb). unfold update_and_residual.
  destruct (update_faces_values e (T0 s) (T s) (receiveBuffer s) Hok HT0 HT Hrb)
    as (T1 & Hr1 & HT1 & Hval & _).
  destruct (updates_frame_written e (T0 s) (T s) (receiveBuffer s) Hok HT0 HT Hrb)
    as (T1' & T2 & T3 & Hr1' & Hr2 & Hr3 & HT3 & Hfr).
  assert (T1' = T1) as -> by congruence.
  destruct (residual_ge_min e T3 (T0 s) Hok HT3 HT0) as (r & Hr & Hle).
  exists T1, T2, T3, r. rewrite Hr1. simpl. rewrite Hr2. simpl. rewrite Hr3. simpl.
  rewrite Hr. simpl. rewrite (min_le_nonzero r Hle). simpl.
  do 6 (split; [done|]). split; [done|]. split; [done|].
  intros d x Hd Hx.
  assert (Forall (λ ed, ed ∈ edge_order) edge_order) as Hall
    by (apply Forall_forall; auto).
  assert (Forall (λ c, c ∈ corner_order) corner_order) as Hallc
    by (apply Forall_forall; auto).
  destruct (run_edges_spec e edge_order T1 Hall Hok HT1) as (T2' & Hr2' & HT2 & Hf2).
  destruct (run_corners_spec e corner_order T2' Hallc Hok HT2) as (T3' & Hr3' & _ & Hf3).
  rewrite <- update_edges_run in Hr2'. rewrite <- update_corners_run in Hr3'.
  assert (T2' = T2) as -> by congruence. assert (T3' = T3) as -> by congruence.
  rewrite Hf3, Hf2; [by apply Hval|..].
  - intros d1 d2 Hmem (_ & _ & Hon). 
    apply (on_edge_not_face_cells e d d1 d2 x Hok Hmem Hx Hon).
  - intros d1 d2 d3 Hmem (_ & _ & _ & Hon).
    apply (on_corner_not_face_cells e d d1 d2 d3 x Hok Hmem Hx Hon).
Qed.

(** ** All processes in one iteration, from any well-formed states *)

Lemma MPI_MAX_is_Some l : l ≠ [] → is_Some (MPI_MAX l).
Proof. destruct l; [done|]. by eexists. Qed.

Lemma MPI_MIN_is_Some l : l ≠ [] → is_Some (MPI_MIN l).
Proof. destruct l; [done|]. by eexists. Qed.

Lemma iteration_general ps eps time w :
  cartesian_ok ps → Forall block_ok ps → ps ≠ [] →
  length w = length ps →
  (∀ p e s, ps !! p = Some e → w !! p = Some s → wf_state e s) →
  ∃ w1 w2 w3 gn g w',
    each copy_and_pack ps w = Some w1 ∧
    each (halo_exchange w1) ps w1 = Some w2 ∧
    each (λ e, update_and_residual e time) ps w2 = Some w3 ∧
    MPI_MIN (norm <$> w3) = Some gn ∧
    MPI_MAX (flag_after eps <$> w3) = Some g ∧
    iteration ps eps time w = Some w' ∧
    length w1 = length ps ∧ length w3 = length ps ∧ length w' = length ps ∧
    ∀ p e s, ps !! p = Some e → w !! p = Some s →
      ∃ s1 s2 s3,
        w1 !! p = Some s1 ∧ w2 !! p = Some s2 ∧ w3 !! p = Some s3 ∧
        copy_and_pack e s = Some s1 ∧ halo_exchange w1 e s1 = Some s2 ∧
        update_and_residual e time s2 = Some s3 ∧
        wf_state e s1 ∧ wf_state e s2 ∧ wf_state e s3 ∧
        w' !! p = Some
          {| T := T s3; T0 := T0 s3; sendBuffer := sendBuffer s3;
             receiveBuffer := receiveBuffer s3; res := res s3; norm := norm s3;
             globalNorm := if decide (time = 0) then gn else globalNorm s3;
             breakCondition := flag_after eps s3;
             globalBreakCondition := g;
             finalNumIterations := finalNumIterations s3 |}.
Proof.
  intros Hcart Hok Hne Hlen Hw.
  rewrite Forall_lookup in Hok.
  unfold iteration, update_and_reduce.
  destruct (each_spec copy_and_pack ps w (λ e s s1, wf_state e s1) Hlen)
    as (w1 & Hw1 & Hlen1 & H1).
  { intros p e s Hp Hs. pose proof (Hw p e s Hp Hs) as Hwf.
    destruct (copy_and_pack_spec e s (Hok p e Hp) Hwf) as (sb & -> & _ & Hl).
    eexists. split; [done|]. destruct Hwf as (HT & HT0 & Hsb & Hrb).
    split; [done|]. split; [done|]. by split. }
  assert (∀ p e s1, ps !! p = Some e → w1 !! p = Some s1 → wf_state e s1) as Hwf1.
  { intros p e s1 Hp Hs1.
    destruct (lookup_same_length ps w p e Hlen Hp) as [s Hs].
    destruct (H1 p e s Hp Hs) as (s1' & Hs1' & _ & Hwf). congruence. }
  destruct (each_spec (halo_exchange w1) ps w1 (λ e s1 s2, wf_state e s2) Hlen1)
    as (w2 & Hw2 & Hlen2 & H2).
  { intros p e s1 Hp Hs1. pose proof (Hwf1 p e s1 Hp Hs1) as Hwf.
    destruct (halo_exchange_spec w1 e s1 Hwf) as (rb & -> & Hl & _).
    { intros d q Hq. destruct (Hcart p e d q Hp Hq) as (e' & Hq' & Hn' & Hc).
      destruct (lookup_same_length ps w1 q e' Hlen1 Hq') as [sq Hsq].
      destruct (Hwf1 q e' sq Hq' Hsq) as (_ & _ & Hsb & _).
      exists sq. split; [done|]. rewrite Hsb.
      apply buffer_size_opposite; [done| |done]. by rewrite Hq. }
    eexists. split; [done|]. destruct Hwf as (HT & HT0 & Hsb & Hrb).
    split; [done|]. split; [done|]. by split. }
  assert (∀ p e s2, ps !! p = Some e → w2 !! p = Some s2 → wf_state e s2) as Hwf2.
  { intros p e s2 Hp Hs2.
    destruct (lookup_same_length ps w1 p e Hlen1 Hp) as [s1 Hs1].
    destruct (H2 p e s1 Hp Hs1) as (s2' & Hs2' & _ & Hwf). congruence. }
  destruct (each_spec (λ e, update_and_residual e time) ps w2
              (λ e s2 s3, wf_state e s3) Hlen2)
    as (w3 & Hw3 & Hlen3 & H3).
  { intros p e s2 Hp Hs2. pose proof (Hwf2 p e s2 Hp Hs2) as Hwf.
    destruct (update_and_residual_general e time s2 (Hok p e Hp) Hwf)
      as (T1 & T2 & T3 & r & _ & _ & _ & _ & HT3 & _ & -> & _).
    eexists. split; [done|]. destruct Hwf as (HT & HT0 & Hsb & Hrb).
    split; [done|]. split; [done|]. by split. }
  assert (w3 ≠ []) as Hne3.
  { intros ->. destruct ps; [done|discriminate]. }
  destruct (MPI_MIN_is_Some (norm <$> w3)) as [gn Hgn]; [by destruct w3|].
  destruct (MPI_MAX_is_Some (flag_after eps <$> w3)) as [g Hg]; [by destruct w3|].
  exists w1, w2, w3, gn, g.
  set (f := λ s3 : state, if decide (time = 0) then set_globalNorm gn s3 else s3).
  exists (set_globalBreakCondition g <$> (check_convergence eps <$> (f <$> w3))).
  rewrite Hw1. simpl. rewrite Hw2. simpl. rewrite Hw3. simpl.
  do 5 (split; [done|]). split.
  { assert ((if decide (time = 0)
             then g ← MPI_MIN (norm <$> w3); Some (set_globalNorm g <$> w3)
             else Some w3) = Some (f <$> w3)) as ->.
    { unfold f. destruct (decide (time = 0)).
      - by rewrite Hgn.
      - by rewrite list_fmap_id. }
    simpl.
    assert (breakCondition <$> (check_convergence eps <$> (f <$> w3))
            = flag_after eps <$> w3) as ->.
    { rewrite <- !list_fmap_compose. apply list_fmap_ext.
      intros i s3 _. unfold f. simpl. by destruct (decide (time = 0)). }
    by rewrite Hg. }
  split; [done|]. split; [done|]. split; [by rewrite !length_fmap|].
  intros p e s Hp Hs.
  destruct (H1 p e s Hp Hs) as (s1 & Hs1 & Hc1 & Hwfs1).
  destruct (H2 p e s1 Hp Hs1) as (s2 & Hs2 & Hc2 & Hwfs2).
  destruct (H3 p e s2 Hp Hs2) as (s3 & Hs3 & Hc3 & Hwfs3).
  exists s1, s2, s3. do 9 (split; [done|]).
  rewrite !list_lookup_fmap, Hs3. simpl. unfold f.
  by destruct (decide (time = 0)).
Qed.

Lemma world_wf_lookup ps w :
  world_wf ps w ↔
  length w = length ps ∧ ∀ p e s, ps !! p = Some e → w !! p = Some s → wf_state e s.
Proof.
  unfold world_wf. rewrite Forall2_same_length_lookup. intuition.
Qed.

Lemma foldl_max_spec (v : Z) l :
  v ≤ foldl Z.max v l ∧ (∀ y, y ∈ l → y ≤ foldl Z.max v l) ∧
  (foldl Z.max v l = v ∨ foldl Z.max v l ∈ l).
Proof.
  revert v. induction l as [|z l IH]; intros v; simpl.
  - split; [lia|]. split; [|by left]. intros y Hy. by apply elem_of_nil in Hy.
  - destruct (IH (v `max` z)) as (Hge & Hall & Hin). split; [lia|]. split.
    + intros y [->|Hy]%elem_of_cons; [lia|by apply Hall].
    + destruct Hin as [Heq|Hin]; [|by right; right].
      rewrite Heq. destruct (Z.max_spec v z) as [[_ ->]|[_ ->]]; [right; left|by left].
Qed.

(** The maximum reduction returns the largest of the values. *)
Lemma MPI_MAX_max l g :
  MPI_MAX l = Some g → (∀ y, y ∈ l → y ≤ g) ∧ g ∈ l.
Proof.
  destruct l as [|v l]; [done|]. simpl. intros [= <-].
  destruct (foldl_max_spec v l) as (Hge & Hall & Hin). split.
  - intros y [->|Hy]%elem_of_cons; [done|by apply Hall].
  - destruct Hin as [->|Hin]; [left|by right].
Qed.

(** What one iteration does to the state of every process. *)
Lemma iteration_states ps eps time w :
  cartesian_ok ps → Forall block_ok ps → ps ≠ [] → world_wf ps w →
  ∃ g w', iteration ps eps time w = Some w' ∧ world_wf ps w' ∧
    (∀ y, y ∈ breakCondition <$> w' → y ≤ g) ∧ g ∈ breakCondition <$> w' ∧
    ∀ p e s s', ps !! p = Some e → w !! p = Some s → w' !! p = Some s' →
      T0 s' = T s ∧
      (∀ x, ¬ written e x → cell (T s') x = cell (T s) x) ∧
      PrimFloat.leb numeric_limits_min (res s') = true ∧
      norm s' = (if decide (time = 0) then res s' else norm s) ∧
      (time ≠ 0 → globalNorm s' = globalNorm s) ∧
      breakCondition s' = (if convergence_test eps s' then 1 else breakCondition s) ∧
      globalBreakCondition s' = g ∧
      finalNumIterations s' = finalNumIterations s.
Proof.
  intros Hcart Hok Hne Hwf. apply world_wf_lookup in Hwf as [Hlen Hwf].
  destruct (iteration_general ps eps time w Hcart Hok Hne Hlen Hwf)
    as (w1 & w2 & w3 & gn & g & w' & _ & _ & _ & _ & Hg & Hrun & _ & Hlen3 & Hlen' & Hall).
  assert (flag_after eps <$> w3 = breakCondition <$> w') as Hflags.
  { apply list_eq_same_length with (length ps);
      [by rewrite length_fmap|by rewrite length_fmap|].
    intros p a b Hp Ha Hb. rewrite list_lookup_fmap in Ha, Hb.
    destruct (w3 !! p) as [s3|] eqn:Hs3; [|done].
    destruct (w' !! p) as [s'|] eqn:Hs'; [|done]. simpl in Ha, Hb.
    destruct (lookup_same_length w3 ps p s3 (eq_sym Hlen3) Hs3) as [e He].
    destruct (lookup_same_length ps w p e Hlen He) as [s Hs].
    destruct (Hall p e s He Hs) as (s1 & s2 & s3' & _ & _ & Hs3' & _ & _ & _ & _ & _ & _ & Hs'').
    assert (s3' = s3) as -> by congruence.
    rewrite Hs' in Hs''. injection Hs'' as ->. simpl in Hb. congruence. }
  exists g, w'. split; [done|]. split; [|split; [|split]].
  - apply world_wf_lookup. split; [done|]. intros p e s' He Hs'.
    destruct (lookup_same_length ps w p e Hlen He) as [s Hs].
    destruct (Hall p e s He Hs)
      as (s1 & s2 & s3 & _ & _ & _ & _ & _ & _ & _ & _ & (HT & HT0 & Hsb & Hrb) & Hs'').
    rewrite Hs' in Hs''. injection Hs'' as ->. split; [done|]. split; [done|]. by split.
  - rewrite <- Hflags. intros y Hy. by apply (MPI_MAX_max _ _ Hg).
  - rewrite <- Hflags. by apply (MPI_MAX_max _ _ Hg).
  - intros p e s s' He Hs Hs'.
    destruct (Hall p e s He Hs)
      as (s1 & s2 & s3 & _ & _ & _ & Hc1 & Hc2 & Hc3 & Hwf1 & Hwf2 & _ & Hs'').
    rewrite Hs' in Hs''. injection Hs'' as ->. simpl.
    pose proof (Hwf p e s He Hs) as Hwfs.
    rewrite Forall_lookup in Hok. pose proof (Hok p e He) as Hoke.
    destruct (copy_and_pack_spec e s Hoke Hwfs) as (sb & Hc1' & _).
    rewrite Hc1 in Hc1'. injection Hc1' as ->.
    destruct (halo_exchange_spec w1 e _ Hwf1) as (rb & Hc2' & _).
    { intros d q Hq. destruct (Hcart p e d q He Hq) as (e' & Hq' & Hn' & Hc).
      destruct (lookup_same_length ps w q e' Hlen Hq') as [sq Hsq].
      destruct (Hall q e' sq Hq' Hsq)
        as (sq1 & _ & _ & Hsq1 & _ & _ & _ & _ & _ & (_ & _ & Hsb1 & _) & _).
      exists sq1. split; [done|]. rewrite Hsb1.
      apply buffer_size_opposite; [done| |done]. by rewrite Hq. }
    rewrite Hc2 in Hc2'. injection Hc2' as ->.
    destruct (update_and_residual_general e time _ Hoke Hwf2)
      as (T1 & T2 & T3 & r & _ & _ & _ & _ & _ & Hle & Hc3' & Hfr & _).
    rewrite Hc3 in Hc3'. injection Hc3' as ->. simpl in *.
    split; [done|]. split; [done|]. split; [done|]. split; [done|].
    split; [by intros; rewrite decide_False|]. done.
Qed.

Lemma initial_world_wf ps w0 :
  Forall block_ok ps → mapM initial_state ps = Some w0 →
  world_wf ps w0 ∧ flags_boolean w0 ∧
  ∀ p e s, ps !! p = Some e → w0 !! p = Some s →
    ∀ x, in_block e x → cell (T s) x = Some (initial_value e x).
Proof.
  intros Hok Hinit.
  destruct (initial_world_spec ps Hok) as (w0' & Hinit' & [Hlen Hw0] & Hb0 & Hv).
  assert (w0' = w0) as -> by congruence.
  split; [|split].
  - apply world_wf_lookup. split; [done|]. intros p e s He Hs. by destruct (Hw0 p e s He Hs).
  - eapply Forall_impl; [exact Hb0|]. intros s Hs. by left.
  - intros p e s He Hs. by destruct (Hv p e s He Hs).
Qed.

(** X6. On a cartesian grid of blocks with at least three cells along
    every axis, an iteration started with vectors of the allocated sizes
    completes with every subscript inside its vector, leaves vectors of the
    same sizes, and leaves in [T0] the field [T] with which it started. *)
Theorem iteration_stays_in_bounds ps eps time w :
  cartesian_ok ps → Forall block_ok ps → ps ≠ [] → world_wf ps w →
  ∃ w', iteration ps eps time w = Some w' ∧ world_wf ps w' ∧
    ∀ p s s', w !! p = Some s → w' !! p = Some s' → T0 s' = T s.
Proof.
  intros Hcart Hok Hne Hwf.
  destruct (iteration_states ps eps time w Hcart Hok Hne Hwf)
    as (g & w' & Hrun & Hwf' & _ & _ & Hall).
  exists w'. split; [done|]. split; [done|].
  intros p s s' Hs Hs'. apply world_wf_lookup in Hwf as [Hlen _].
  destruct (lookup_same_length w ps p s (eq_sym Hlen) Hs) as [e He].
  by destruct (Hall p e s s' He Hs Hs') as (? & _).
Qed.

Lemma iteration_stays_in_bounds_witness :
  cartesian_ok Example.two_processes ∧ Forall block_ok Example.two_processes ∧
  Example.two_processes ≠ [] ∧
  ∃ w0, mapM initial_state Example.two_processes = Some w0 ∧
    world_wf Example.two_processes w0 ∧
    ∃ w', iteration Example.two_processes 0.5 0 w0 = Some w' ∧
      world_wf Example.two_processes w' ∧
      ∀ p s s', w0 !! p = Some s → w' !! p = Some s' → T0 s' = T s.
Proof.
  split; [exact two_processes_cartesian|]. split; [exact two_processes_block_ok|].
  split; [done|].
  destruct (mapM initial_state Example.two_processes) as [w0|] eqn:Hinit;
    [|by vm_compute in Hinit].
  exists w0. split; [done|].
  destruct (initial_world_wf _ _ two_processes_block_ok Hinit) as (Hwf & _).
  split; [done|].
  exact (iteration_stays_in_bounds Example.two_processes 0.5 0 w0
           two_processes_cartesian two_processes_block_ok ltac:(done) Hwf).
Defined.

(** X5. After an iteration [globalBreakCondition] has the same value on
    every process: it is 1 as soon as the flag of one process is 1, and 0
    only when all flags are 0, and the loop stops exactly when it is 1.
    The flag of a process is set by its own test [res / norm < eps] and is
    never cleared. *)
Theorem one_flag_stops_all ps eps time w :
  cartesian_ok ps → Forall block_ok ps → ps ≠ [] → world_wf ps w →
  flags_boolean w →
  ∃ g w', iteration ps eps time w = Some w' ∧ flags_boolean w' ∧
    Forall (λ s', globalBreakCondition s' = g) w' ∧
    (g = 1 ↔ Exists (λ s', breakCondition s' = 1) w') ∧
    (g = 0 ↔ Forall (λ s', breakCondition s' = 0) w') ∧
    stops w' = bool_decide (g = 1) ∧
    ∀ p s s', w !! p = Some s → w' !! p = Some s' →
      breakCondition s' = (if convergence_test eps s' then 1 else breakCondition s).
Proof.
  intros Hcart Hok Hne Hwf Hflags.
  destruct (iteration_states ps eps time w Hcart Hok Hne Hwf)
    as (g & w' & Hrun & Hwf' & Hmax & Hin & Hall).
  pose proof Hwf as Hwf0. apply world_wf_lookup in Hwf as [Hlen _].
  apply world_wf_lookup in Hwf' as [Hlen' _].
  assert (∀ p s', w' !! p = Some s' →
            ∃ e s, ps !! p = Some e ∧ w !! p = Some s) as Hback.
  { intros p s' Hs'. destruct (lookup_same_length w' ps p s' (eq_sym Hlen') Hs') as [e He].
    destruct (lookup_same_length ps w p e Hlen He) as [s Hs]. by exists e, s. }
  assert (flags_boolean w') as Hflags'.
  { apply Forall_lookup. intros p s' Hs'. destruct (Hback p s' Hs') as (e & s & He & Hs).
    destruct (Hall p e s s' He Hs Hs') as (_ & _ & _ & _ & _ & -> & _).
    destruct (convergence_test eps s'); [by right|].
    unfold flags_boolean in Hflags. rewrite Forall_lookup in Hflags. by apply (Hflags p). }
  assert (g = 0 ∨ g = 1) as Hg01.
  { apply list_elem_of_fmap in Hin as (s' & -> & Hs').
    unfold flags_boolean in Hflags'. rewrite Forall_forall in Hflags'. by apply Hflags'. }
  assert (Forall (λ s', globalBreakCondition s' = g) w') as Hglob.
  { apply Forall_lookup. intros p s' Hs'. destruct (Hback p s' Hs') as (e & s & He & Hs).
    by destruct (Hall p e s s' He Hs Hs') as (_ & _ & _ & _ & _ & _ & -> & _). }
  assert (g = 1 ↔ Exists (λ s', breakCondition s' = 1) w') as Hone.
  { split.
    - intros ->. apply list_elem_of_fmap in Hin as (s' & Heq & Hs').
      apply Exists_exists. by exists s'.
    - intros (s' & Hs' & Hb)%Exists_exists.
      assert (1 ≤ g); [|lia]. apply Hmax. apply list_elem_of_fmap. by exists s'. }
  exists g, w'. split; [done|]. split; [done|]. split; [done|]. split; [done|].
  split; [|split].
  - split.
    + intros ->. apply Forall_forall. intros s' Hs'.
      assert (breakCondition s' ≤ 0) by (apply Hmax, list_elem_of_fmap; by exists s').
      unfold flags_boolean in Hflags'. rewrite Forall_forall in Hflags'.
      destruct (Hflags' s' Hs'); lia.
    + intros Hzero. apply list_elem_of_fmap in Hin as (s' & -> & Hs').
      rewrite Forall_forall in Hzero. by apply Hzero.
  - unfold stops. apply bool_decide_ext. split.
    + intros (s' & Hs' & Hnz)%Exists_exists. rewrite Forall_forall in Hglob.
      rewrite (Hglob s' Hs') in Hnz. lia.
    + intros ->. destruct w' as [|s' w']; [by destruct ps|].
      apply Exists_cons. left. apply Forall_cons in Hglob as [-> _]. done.
  - intros p s s' Hs Hs'. destruct (Hback p s' Hs') as (e & s0 & He & Hs0).
    assert (s0 = s) as -> by congruence.
    by destruct (Hall p e s s' He Hs Hs') as (_ & _ & _ & _ & _ & ? & _).
Qed.

Lemma one_flag_stops_all_witness :
  cartesian_ok Example.two_processes ∧ Forall block_ok Example.two_processes ∧
  Example.two_processes ≠ [] ∧
  ∃ w0, mapM initial_state Example.two_processes = Some w0 ∧
    world_wf Example.two_processes w0 ∧ flags_boolean w0 ∧
    ∃ g w', iteration Example.two_processes 2 0 w0 = Some w' ∧ flags_boolean w' ∧
      Forall (λ s', globalBreakCondition s' = g) w' ∧
      (g = 1 ↔ Exists (λ s', breakCondition s' = 1) w') ∧
      (g = 0 ↔ Forall (λ s', breakCondition s' = 0) w') ∧
      stops w' = bool_decide (g = 1) ∧
      ∀ p s s', w0 !! p = Some s → w' !! p = Some s' →
        breakCondition s' = (if convergence_test 2 s' then 1 else breakCondition s).
Proof.
  split; [exact two_processes_cartesian|]. split; [exact two_processes_block_ok|].
  split; [done|].
  destruct (mapM initial_state Example.two_processes) as [w0|] eqn:Hinit;
    [|by vm_compute in Hinit].
  exists w0. split; [done|].
  destruct (initial_world_wf _ _ two_processes_block_ok Hinit) as (Hwf & Hfl & _).
  split; [done|]. split; [done|].
  exact (one_flag_stops_all Example.two_processes 2 0 w0
           two_processes_cartesian two_processes_block_ok ltac:(done) Hwf Hfl).
Defined.

(** Any number of iterations, from any well-formed states. *)
Lemma iterations_states ps eps n time w :
  cartesian_ok ps → Forall block_ok ps → ps ≠ [] → world_wf ps w →
  ∃ w', iterations ps eps n time w = Some w' ∧ world_wf ps w' ∧
    ∀ p e s s', ps !! p = Some e → w !! p = Some s → w' !! p = Some s' →
      ∀ x, ¬ written e x → cell (T s') x = cell (T s) x.
Proof.
  intros Hcart Hok Hne. revert time w.
  induction n as [|n IH]; intros time w Hwf; simpl.
  - exists w. split; [done|]. split; [done|]. intros p e s s' _ Hs Hs'. congruence.
  - destruct (iteration_states ps eps time w Hcart Hok Hne Hwf)
      as (g & w1 & -> & Hwf1 & _ & _ & H1).
    simpl. destruct (IH (time + 1) w1 Hwf1) as (w' & -> & Hwf' & H').
    exists w'. split; [done|]. split; [done|].
    intros p e s s' He Hs Hs' x Hx.
    apply world_wf_lookup in Hwf1 as [Hlen1 _].
    destruct (lookup_same_length ps w1 p e Hlen1 He) as [s1 Hs1].
    rewrite (H' p e s1 s' He Hs1 Hs' x Hx).
    by destruct (H1 p e s s1 He Hs Hs1) as (_ & Hfr & _); apply Hfr.
Qed.

(** X7. Whatever the number of iterations, a cell that lies on a face
    without neighbour keeps the value given to it before the time loop, as
    does every cell that no face, edge or corner update assigns; a process
    without any neighbour never changes its field. *)
Theorem boundary_values_persist ps eps w0 n :
  cartesian_ok ps → Forall block_ok ps → ps ≠ [] →
  mapM initial_state ps = Some w0 →
  ∃ w, iterations ps eps n 0 w0 = Some w ∧
    ∀ p e s, ps !! p = Some e → w !! p = Some s →
      (∀ x, in_block e x → ¬ written e x → cell (T s) x = Some (initial_value e x)) ∧
      (∀ d x, boundary_face e d x → ¬ written e x) ∧
      ((∀ d, neighbors e d = MPI_PROC_NULL) → ∀ x, ¬ written e x).
Proof.
  intros Hcart Hok Hne Hinit.
  destruct (initial_world_wf ps w0 Hok Hinit) as (Hwf & _ & Hv).
  destruct (iterations_states ps eps n 0 w0 Hcart Hok Hne Hwf) as (w & Hrun & Hwf' & Hfr).
  exists w. split; [done|]. intros p e s He Hs.
  apply world_wf_lookup in Hwf as [Hlen _].
  destruct (lookup_same_length ps w0 p e Hlen He) as [s0 Hs0].
  rewrite Forall_lookup in Hok.
  split; [|split].
  - intros x Hx Hnw. rewrite (Hfr p e s0 s He Hs0 Hs x Hnw). by apply (Hv p e s0).
  - intros d x. by apply boundary_not_written, (Hok p).
  - intros Hnone x [(d & Hd & _)|[(d1 & d2 & _ & Hd & _)|(d1 & d2 & d3 & _ & Hd & _)]];
      by apply Hd.
Qed.

Lemma boundary_values_persist_witness :
  cartesian_ok Example.two_processes ∧ Forall block_ok Example.two_processes ∧
  Example.two_processes ≠ [] ∧
  ∃ w0, mapM initial_state Example.two_processes = Some w0 ∧
  ∃ w, iterations Example.two_processes 0.5 4 0 w0 = Some w ∧
    ∀ p e s, Example.two_processes !! p = Some e → w !! p = Some s →
      (∀ x, in_block e x → ¬ written e x → cell (T s) x = Some (initial_value e x)) ∧
      (∀ d x, boundary_face e d x → ¬ written e x) ∧
      ((∀ d, neighbors e d = MPI_PROC_NULL) → ∀ x, ¬ written e x).
Proof.
  split; [exact two_processes_cartesian|]. split; [exact two_processes_block_ok|].
  split; [done|].
  destruct (mapM initial_state Example.two_processes) as [w0|] eqn:Hinit;
    [|by vm_compute in Hinit].
  exists w0. split; [done|].
  exact (boundary_values_persist Example.two_processes 0.5 w0 4
           two_processes_cartesian two_processes_block_ok ltac:(done) Hinit).
Defined.

Lemma stencil_ext e (rd rd' : Z * Z * Z → option floatT) x :
  (∀ y, rd y = rd' y) → stencil e rd x = stencil e rd' x.
Proof. intros Hrd. destruct x as [[i j] k]. unfold stencil. by rewrite !Hrd. Qed.

(** The cell of the neighbour's opposite face that is packed into the slot
    of the face cell [x]. *)
Lemma mirror_cell e e' d x :
  block_ok e → (∀ a, chunck e' a = chunck e a) → face_cells e d x →
  ∃ y, face_cells e' (opposite d) y ∧ slot e' (opposite d) y = slot e d x ∧
       inward (opposite d) 1 y = halo_source e d x.
Proof.
  intros Hok Hc [Hf Hin]. block_bounds Hok. destruct x as [[i j] k].
  pose proof (Hin COORDINATE.X) as HiX. pose proof (Hin COORDINATE.Y) as HiY.
  pose proof (Hin COORDINATE.Z) as HiZ.
  pose proof (Hc COORDINATE.X) as HcX. pose proof (Hc COORDINATE.Y) as HcY.
  pose proof (Hc COORDINATE.Z) as HcZ.
  destruct d; unfold on_face, inside, axis, coordinate in *; simpl in *;
    try specialize (HiX ltac:(done)); try specialize (HiY ltac:(done));
    try specialize (HiZ ltac:(done)).
  - exists (chunck e COORDINATE.X - 1, j, k).
    unfold face_cells, on_face, inside, slot, transverse, axis, coordinate, halo_source;
      simpl. rewrite ?HcX, ?HcY, ?HcZ.
    split; [split; [done|intros []; simpl; intros; first [done|lia]]|].
    split; [done|f_equal; f_equal; lia].
  - exists (0, j, k).
    unfold face_cells, on_face, inside, slot, transverse, axis, coordinate, halo_source;
      simpl. rewrite ?HcX, ?HcY, ?HcZ.
    split; [split; [done|intros []; simpl; intros; first [done|lia]]|].
    split; [done|f_equal; f_equal; lia].
  - exists (i, chunck e COORDINATE.Y - 1, k).
    unfold face_cells, on_face, inside, slot, transverse, axis, coordinate, halo_source;
      simpl. rewrite ?HcX, ?HcY, ?HcZ.
    split; [split; [done|intros []; simpl; intros; first [done|lia]]|].
    split; [done|f_equal; f_equal; lia].
  - exists (i, 0, k).
    unfold face_cells, on_face, inside, slot, transverse, axis, coordinate, halo_source;
      simpl. rewrite ?HcX, ?HcY, ?HcZ.
    split; [split; [done|intros []; simpl; intros; first [done|lia]]|].
    split; [done|f_equal; f_equal; lia].
  - exists (i, j, chunck e COORDINATE.Z - 1).
    unfold face_cells, on_face, inside, slot, transverse, axis, coordinate, halo_source;
      simpl. rewrite ?HcX, ?HcY, ?HcZ.
    split; [split; [done|intros []; simpl; intros; first [done|lia]]|].
    split; [done|f_equal; lia].
  - exists (i, j, 0).
    unfold face_cells, on_face, inside, slot, transverse, axis, coordinate, halo_source;
      simpl. rewrite ?HcX, ?HcY, ?HcZ.
    split; [split; [done|intros []; simpl; intros; first [done|lia]]|].
    split; [done|f_equal; lia].
Qed.

(** X3. Packing, exchange and face update fit together: after an
    iteration a face cell of a process holds the seven-point update of the
    fields with which the iteration started, the value beyond the face
    being that of the neighbour's cell next to the shared plane, at the
    same place along the face. *)
Theorem faces_updated_from_neighbours ps eps time w :
  cartesian_ok ps → Forall block_ok ps → ps ≠ [] → world_wf ps w →
  ∃ w', iteration ps eps time w = Some w' ∧
    ∀ p q e d s sq s', ps !! p = Some e → neighbors e d = Some q →
      w !! p = Some s → w !! q = Some sq → w' !! p = Some s' →
      ∀ x, face_cells e d x →
        is_Some (cell (T s') x) ∧
        cell (T s') x = stencil e (with_neighbour e d (T s) (T sq) x) x.
Proof.
  intros Hcart Hok Hne Hwf. apply world_wf_lookup in Hwf as [Hlen Hwf].
  destruct (iteration_general ps eps time w Hcart Hok Hne Hlen Hwf)
    as (w1 & w2 & w3 & gn & g & w' & _ & _ & _ & _ & _ & Hrun & _ & _ & _ & Hall).
  exists w'. split; [done|].
  intros p q e d s sq s' He Hq Hs Hsq Hs' x Hx.
  rewrite Forall_lookup in Hok. pose proof (Hok p e He) as Hoke.
  destruct (Hcart p e d q He Hq) as (e' & He' & Hn' & Hc).
  pose proof (Hok q e' He') as Hoke'.
  destruct (Hall p e s He Hs)
    as (s1 & s2 & s3 & Hs1 & _ & _ & Hc1 & Hc2 & Hc3 & Hwf1 & Hwf2 & _ & Hs'').
  rewrite Hs' in Hs''. injection Hs'' as ->. simpl.
  destruct (Hall q e' sq He' Hsq) as (sq1 & sq2 & sq3 & Hsq1 & _ & _ & Hcq1 & _).
  (* what the neighbour packs *)
  pose proof (Hwf q e' sq He' Hsq) as Hwfq.
  destruct (copy_and_pack_spec e' sq Hoke' Hwfq) as (sbq & Hcq1' & Hpack & _).
  rewrite Hcq1 in Hcq1'. injection Hcq1' as ->.
  destruct Hwfq as (HTq & _ & Hsbq & _).
  destruct (pack_face_spec e' (opposite d) (T sq) (sendBuffer sq (opposite d))
              Hoke' HTq (Hsbq _)) as (buf & Hbuf & _ & _ & Hvals).
  rewrite Hpack in Hbuf. injection Hbuf as <-.
  destruct (Hvals Hn') as (Hslot & _).
  (* what the process receives *)
  pose proof (Hwf p e s He Hs) as Hwfs.
  destruct (copy_and_pack_spec e s Hoke Hwfs) as (sb & Hc1' & _).
  rewrite Hc1 in Hc1'. injection Hc1' as ->.
  destruct (halo_exchange_spec w1 e _ Hwf1) as (rb & Hc2' & _ & Hrecv).
  { intros d0 q0 Hq0. destruct (Hcart p e d0 q0 He Hq0) as (e0 & Hq0' & Hn0 & Hc0).
    destruct (lookup_same_length ps w q0 e0 Hlen Hq0') as [s0 Hs0].
    destruct (Hall q0 e0 s0 Hq0' Hs0)
      as (s01 & s02 & s03 & Hs01 & _ & _ & _ & _ & _ & (_ & _ & Hsb1 & _) & _).
    exists s01. split; [done|]. rewrite Hsb1.
    apply buffer_size_opposite; [done| |done]. by rewrite Hq0. }
  rewrite Hc2 in Hc2'. injection Hc2' as ->.
  specialize (Hrecv d). unfold receive in Hrecv. rewrite Hq, Hsq1 in Hrecv.
  simpl in Hrecv. injection Hrecv as Hrb.
  (* the update of the face *)
  destruct (update_and_residual_general e time _ Hoke Hwf2)
    as (T1 & T2 & T3 & r & _ & _ & _ & _ & _ & _ & Hc3' & _ & Hface).
  rewrite Hc3 in Hc3'. injection Hc3' as ->. simpl in Hface. simpl.
  destruct (Hface d x) as [Hsome Hval]; [rewrite Hq; discriminate|exact Hx|].
  split; [done|]. rewrite Hval. apply stencil_ext. intros y.
  unfold with_halo, with_neighbour.
  destruct (decide (y = inward d (-1) x)) as [_|_]; [|done].
  destruct (mirror_cell e e' d x Hoke Hc Hx) as (y' & Hy' & Hsl & Hin).
  destruct (Hslot y' Hy') as (_ & _ & Hat).
  by rewrite <- Hrb, <- Hsl, Hat, Hin.
Qed.

Lemma faces_updated_from_neighbours_witness :
  cartesian_ok Example.two_processes ∧ Forall block_ok Example.two_processes ∧
  Example.two_processes ≠ [] ∧
  ∃ w0, mapM initial_state Example.two_processes = Some w0 ∧
    world_wf Example.two_processes w0 ∧
    ∃ w', iteration Example.two_processes 0.5 0 w0 = Some w' ∧
      ∀ p q e d s sq s', Example.two_processes !! p = Some e → neighbors e d = Some q →
        w0 !! p = Some s → w0 !! q = Some sq → w' !! p = Some s' →
        ∀ x, face_cells e d x →
          is_Some (cell (T s') x) ∧
          cell (T s') x = stencil e (with_neighbour e d (T s) (T sq) x) x.
Proof.
  split; [exact two_processes_cartesian|]. split; [exact two_processes_block_ok|].
  split; [done|].
  destruct (mapM initial_state Example.two_processes) as [w0|] eqn:Hinit;
    [|by vm_compute in Hinit].
  exists w0. split; [done|].
  destruct (initial_world_wf _ _ two_processes_block_ok Hinit) as (Hwf & _).
  split; [done|].
  exact (faces_updated_from_neighbours Example.two_processes 0.5 0 w0
           two_processes_cartesian two_processes_block_ok ltac:(done) Hwf).
Defined.

(** X2. At the end of the update phase of an iteration every cell of a
    face with a neighbour that is on no edge holds the seven-point update
    [T0 + Dx (...) + Dy (...) + Dz (...)] of the copy [T0], in which the
    value one step outside the block is the entry of the receive buffer of
    that face at the slot of the cell. *)
Theorem face_cells_take_the_halo e time s :
  block_ok e → wf_state e s →
  ∃ s', update_and_residual e time s = Some s' ∧
    ∀ d x, neighbors e d ≠ MPI_PROC_NULL → face_cells e d x →
      is_Some (cell (T s') x) ∧
      cell (T s') x = stencil e (with_halo e d (T0 s) (receiveBuffer s d) x) x.
Proof.
  intros Hok Hwf.
  destruct (update_and_residual_general e time s Hok Hwf)
    as (T1 & T2 & T3 & r & _ & _ & _ & _ & _ & _ & -> & _ & Hface).
  eexists. split; [done|]. exact Hface.
Qed.

Lemma face_cells_take_the_halo_witness :
  block_ok Example.inner ∧ wf_state Example.inner Example.state333 ∧
  ∃ s', update_and_residual Example.inner 0 Example.state333 = Some s' ∧
    ∀ d x, neighbors Example.inner d ≠ MPI_PROC_NULL → face_cells Example.inner d x →
      is_Some (cell (T s') x) ∧
      cell (T s') x
      = stencil Example.inner
          (with_halo Example.inner d (T0 Example.state333)
             (receiveBuffer Example.state333 d) x) x.
Proof.
  split; [exact inner_block_ok|]. split; [exact state333_wf|].
  exact (face_cells_take_the_halo Example.inner 0 Example.state333
           inner_block_ok state333_wf).
Defined.

(** ** The residual as a maximum *)

Lemma SF_not_lt_trans (r d dx : spec_float) :
  SFltb r dx = false → SFltb r d = true → SFltb d dx = false.
Proof.
  unfold SFltb, SFcompare.
  destruct r as [sr|sr| |sr mr er], d as [sd|sd| |sd md ed], dx as [sx|sx| |sx mx ex];
    try done;
    repeat match goal with
      | s : bool |- _ => destruct s
      end; try done.
  all: rewrite ?Pos.compare_cont_spec; simpl;
    destruct (Z.compare_spec er ed), (Z.compare_spec er ex); try done;
    destruct (Pos.compare_spec mr md), (Pos.compare_spec mr mx); simpl; try done;
    subst;
    repeat match goal with
      | |- context [(?a ?= ?b)%Z] => destruct (Z.compare_spec a b)
      | |- context [(?a ?= ?b)%positive] => destruct (Pos.compare_spec a b)
      end; simpl; try done; lia.
Qed.

(** What does not exceed [r] does not exceed a larger [d] either. *)
Lemma float_not_lt_trans (r d dx : floatT) :
  PrimFloat.ltb r dx = false → PrimFloat.ltb r d = true → PrimFloat.ltb d dx = false.
Proof. rewrite !FloatAxioms.ltb_spec. apply SF_not_lt_trans. Qed.

Lemma SF_ltb_irrefl (d : spec_float) : SFltb d d = false.
Proof.
  unfold SFltb, SFcompare. destruct d as [[]|[]| |[] m e]; try done;
    rewrite Z.compare_refl, ?Pos.compare_cont_refl; simpl;
    by rewrite ?Pos.compare_refl.
Qed.

Lemma float_ltb_irrefl (d : floatT) : PrimFloat.ltb d d = false.
Proof. rewrite FloatAxioms.ltb_spec. apply SF_ltb_irrefl. Qed.

(** X4. The residual is the largest of
    [std::numeric_limits<double>::min()] and the absolute differences
    [|T - T0|] over the strictly interior cells: it is at least that
    minimum, no difference exceeds it (a NaN difference is skipped), and it
    is that minimum or one of the differences. *)
Theorem residual_is_the_largest_difference e (T T0 : Field) :
  block_ok e → block e T → block e T0 →
  ∃ r, residual e T T0 = Some r ∧
    PrimFloat.leb numeric_limits_min r = true ∧
    (∀ x v v0, interior e x → cell T x = Some v → cell T0 x = Some v0 →
       PrimFloat.ltb r (fabs (v - v0)) = false) ∧
    (r = numeric_limits_min ∨
     ∃ x v v0, interior e x ∧ cell T x = Some v ∧ cell T0 x = Some v0 ∧
               r = fabs (v - v0)).
Proof.
  intros Hok HT HT0. block_bounds Hok. unfold block in *.
  set (P := λ r : floatT,
    PrimFloat.leb numeric_limits_min r = true ∧
    (r = numeric_limits_min ∨
     ∃ x v v0, interior e x ∧ cell T x = Some v ∧ cell T0 x = Some v0 ∧
               r = fabs (v - v0))).
  set (D := λ (r : floatT) (x : Z * Z * Z),
    ∀ v v0, cell T x = Some v → cell T0 x = Some v0 →
      PrimFloat.ltb r (fabs (v - v0)) = false).
  assert (∃ r, residual e T T0 = Some r ∧ P r ∧ ∀ x, interior e x → D r x)
    as (r & Hr & [Hle Hatt] & Hdom).
  2: { exists r. split; [done|]. split; [done|]. split; [|done].
       intros x v v0 Hxin. by apply Hdom. }
  unfold residual. cbv zeta. unwrap.
  destruct (for_range_inv
    (λ i r, P r ∧ ∀ x, interior e x → x.1.1 < i → D r x)
    (λ i, for_range 1 (chunck e COORDINATE.Y - 1) (λ j,
            for_range 1 (chunck e COORDINATE.Z - 1) (λ k res,
              d ← (get T i j k - get T0 i j k)%F;
              if PrimFloat.ltb res (fabs d) then Some (fabs d) else Some res)))
    1 (chunck e COORDINATE.X - 1) numeric_limits_min) as (r & Hrun & HP & HD);
    [lia| | |].
  - split; [split; [by vm_compute|by left]|].
    intros [[a b] c] (Ha & _) Hlt. unfold inside, coordinate in Ha. simpl in *. lia.
  - intros i r Hi [HP HD].
    destruct (for_range_inv
      (λ j r, P r ∧ ∀ x, interior e x → x.1.1 < i ∨ (x.1.1 = i ∧ x.1.2 < j) → D r x)
      (λ j, for_range 1 (chunck e COORDINATE.Z - 1) (λ k res,
              d ← (get T i j k - get T0 i j k)%F;
              if PrimFloat.ltb res (fabs d) then Some (fabs d) else Some res))
      1 (chunck e COORDINATE.Y - 1) r) as (r' & Hrun & HP' & HD'); [lia| | |].
    + split; [done|]. intros [[a b] c] Hint [Hlt|[_ Hlt]]; [by apply HD|].
      destruct Hint as (_ & Hb & _). unfold inside, coordinate in Hb. simpl in *. lia.
    + intros j r1 Hj [HP1 HD1].
      destruct (for_range_inv
        (λ k r, P r ∧ ∀ x, interior e x →
           x.1.1 < i ∨ (x.1.1 = i ∧ x.1.2 < j) ∨ (x.1.1 = i ∧ x.1.2 = j ∧ x.2 < k) →
           D r x)
        (λ k res,
              d ← (get T i j k - get T0 i j k)%F;
              if PrimFloat.ltb res (fabs d) then Some (fabs d) else Some res)
        1 (chunck e COORDINATE.Z - 1) r1) as (r2 & Hrun & HP2 & HD2); [lia| | |].
      * split; [done|]. intros [[a b] c] Hint [Hlt|[Hlt|(_ & _ & Hlt)]];
          [apply HD1; [done|by left]|apply HD1; [done|by right]|].
        destruct Hint as (_ & _ & Hc). unfold inside, coordinate in Hc. simpl in *. lia.
      * intros k r2 Hk [[Hle2 Hatt2] HD2].
        destruct (proj2 (get_Some _ _ _ _ i j k HT)) as [v Hv]; [lia|].
        destruct (proj2 (get_Some _ _ _ _ i j k HT0)) as [v0 Hv0]; [lia|].
        rewrite Hv, Hv0. lift_simpl. simpl.
        assert (interior e (i, j, k)) as Hint
          by (unfold interior, inside, coordinate; simpl; lia).
        destruct (PrimFloat.ltb r2 (fabs (v - v0))) eqn:Hlt.
        -- eexists. split; [done|]. split; [split|].
           ++ by apply (float_le_lt_trans _ r2).
           ++ right. by exists (i, j, k), v, v0.
           ++ intros [[a b] c] Hxin Hpos u u0 Hu Hu0.
              destruct (decide ((a, b, c) = (i, j, k))) as [[= -> -> ->]|Hne].
              ** unfold cell in Hu, Hu0. simpl in Hu, Hu0.
                 assert (u = v) as -> by congruence. assert (u0 = v0) as -> by congruence.
                 apply float_ltb_irrefl.
              ** apply (float_not_lt_trans r2); [|done].
                 apply (HD2 (a, b, c)); [done| |done|done]. simpl in *.
                 destruct Hpos as [?|[?|(? & ? & ?)]]; [by left|by right; left|].
                 right; right. split; [done|]. split; [done|].
                 destruct (decide (c = k)) as [->|?]; [|lia]. subst. done.
        -- eexists. split; [done|]. split; [done|].
           intros [[a b] c] Hxin Hpos u u0 Hu Hu0.
           destruct (decide ((a, b, c) = (i, j, k))) as [[= -> -> ->]|Hne].
           ** unfold cell in Hu, Hu0. simpl in Hu, Hu0.
              assert (u = v) as -> by congruence. by assert (u0 = v0) as -> by congruence.
           ** apply (HD2 (a, b, c)); [done| |done|done]. simpl in *.
              destruct Hpos as [?|[?|(? & ? & ?)]]; [by left|by right; left|].
              right; right. split; [done|]. split; [done|].
              destruct (decide (c = k)) as [->|?]; [|lia]. subst. done.
      * exists r2. split; [done|]. split; [done|].
        intros [[a b] c] Hxin Hpos. apply HD2; [done|]. simpl in *.
        destruct Hpos as [?|[? Hb]]; [by left|].
        destruct (decide (b = j)) as [->|?]; [|right; left; lia].
        right; right. destruct Hxin as (_ & _ & Hc). unfold inside, coordinate in Hc.
        simpl in Hc. lia.
    + exists r'. split; [done|]. split; [done|].
      intros [[a b] c] Hxin Hpos. apply HD'; [done|]. simpl in *.
      destruct (decide (a = i)) as [->|?]; [|left; lia].
      right. destruct Hxin as (_ & Hb & _). unfold inside, coordinate in Hb.
      simpl in Hb. lia.
  - exists r. split; [done|]. split; [done|].
    intros [[a b] c] Hxin. apply HD; [done|].
    destruct Hxin as (Ha & _). unfold inside, coordinate in Ha. simpl in *. lia.
Qed.

Lemma zeros333_block : block Example.inner (resize3 3 3 3).
Proof. apply shape_resize3; lia. Qed.

Lemma residual_is_the_largest_difference_witness :
  block_ok Example.inner ∧ block Example.inner Example.field333 ∧
  block Example.inner (resize3 3 3 3) ∧
  ∃ r, residual Example.inner Example.field333 (resize3 3 3 3) = Some r ∧
    PrimFloat.leb numeric_limits_min r = true ∧
    (∀ x v v0, interior Example.inner x → cell Example.field333 x = Some v →
       cell (resize3 3 3 3) x = Some v0 → PrimFloat.ltb r (fabs (v - v0)) = false) ∧
    (r = numeric_limits_min ∨
     ∃ x v v0, interior Example.inner x ∧ cell Example.field333 x = Some v ∧
               cell (resize3 3 3 3) x = Some v0 ∧ r = fabs (v - v0)).
Proof.
  split; [exact inner_block_ok|]. split; [exact field333_block|].
  split; [exact zeros333_block|].
  exact (residual_is_the_largest_difference Example.inner Example.field333
           (resize3 3 3 3) inner_block_ok field333_block zeros333_block).
Defined.

Lemma initial_state_flags ps w0 :
  mapM initial_state ps = Some w0 →
  Forall (λ s, globalBreakCondition s = 0 ∧ finalNumIterations s = 0) w0.
Proof.
  intros Hinit. apply mapM_Some in Hinit.
  induction Hinit as [|e s ps w0 Hs _ IH]; constructor; [|done].
  unfold initial_state in Hs. destruct (initial_conditions e); [|done].
  simpl in Hs. by injection Hs as <-.
Qed.

(** X9. A run on blocks with at least three cells along every axis
    completes.  With [iterMax > 0] and [1 < eps] it executes one iteration
    and rank 0 reports convergence in 0 iterations; otherwise it executes
    all [iterMax] iterations and reports that the simulation did not
    converge. *)
Theorem run_and_report cs numCells dimension3D iterMax eps :
  (∀ d, 1 ≤ numCells d < 2 ^ 32) → (∀ d, 0 < dimension3D d < 2 ^ 32) →
  (∀ d, (numCells d - 1) mod dimension3D d = 0) →
  cartesian_ok ((λ c, process_of c numCells dimension3D) <$> cs) →
  Forall block_ok ((λ c, process_of c numCells dimension3D) <$> cs) →
  cs ≠ [] → 0 ≤ iterMax →
  ∃ w0 w,
    mapM initial_state ((λ c, process_of c numCells dimension3D) <$> cs) = Some w0 ∧
    main cs numCells dimension3D iterMax eps = Some (Done w) ∧
    if decide (0 < iterMax ∧ PrimFloat.ltb 1 eps = true)
    then (∃ w1, iteration ((λ c, process_of c numCells dimension3D) <$> cs) eps 0 w0
                = Some w1 ∧ w = set_finalNumIterations 0 <$> w1) ∧
         Forall (λ s, report iterMax eps s = Converged 0 eps) w
    else iterations ((λ c, process_of c numCells dimension3D) <$> cs) eps
           (Z.to_nat iterMax) 0 w0 = Some w ∧
         Forall (λ s, report iterMax eps s = NotConverged iterMax) w.
Proof.
  intros Hn Hd Hdiv Hcart Hok Hne Hmax.
  set (ps := (λ c, process_of c numCells dimension3D) <$> cs) in *.
  assert (ps ≠ []) as Hne' by (unfold ps; by destruct cs).
  destruct (assert_partition_spec numCells dimension3D Hn Hd)
    as [[_ Ha]|(d & Hbad & _)]; [|destruct (Hbad (Hdiv d))].
  destruct (initial_world_spec ps Hok) as (w0 & Hinit & Hw0 & Hb0 & _).
  pose proof (initial_state_flags ps w0 Hinit) as Hfl0.
  destruct (time_loop_spec ps eps w0 (Z.to_nat iterMax) Hcart Hok Hne' Hw0 Hb0)
    as (w1 & Hw1 & Hloop).
  destruct (iterations_spec ps eps w0 1 Hcart Hok Hne' Hw0 Hb0) as (w1' & Hw1' & _ & Hs1).
  assert (w1' = w1) as -> by congruence. specialize (Hs1 ltac:(done)).
  destruct (iterations_spec ps eps w0 (Z.to_nat iterMax) Hcart Hok Hne' Hw0 Hb0)
    as (wn & Hwn & _ & Hsn).
  exists w0. unfold main. rewrite Ha. simpl. fold ps. rewrite Hinit. simpl.
  rewrite Hloop.
  destruct (decide (Z.to_nat iterMax = O)) as [Hz|Hnz].
  - exists w0. split; [done|]. split; [done|].
    rewrite decide_False by lia. rewrite Hz. split; [done|].
    eapply Forall_impl; [exact Hfl0|]. intros s [Hg _]. unfold report.
    by rewrite decide_False by lia.
  - destruct (PrimFloat.ltb 1 eps) eqn:Hlt.
    + exists (set_finalNumIterations 0 <$> w1). split; [done|]. split; [done|].
      rewrite decide_True by (split; [lia|done]). split.
      * exists w1. split; [|done]. simpl in Hw1.
        destruct (iteration ps eps 0 w0); [|done]. done.
      * apply Forall_fmap. eapply Forall_impl; [exact Hs1|].
        intros s (_ & _ & _ & _ & Hg). unfold report. simpl. rewrite Hg, Hlt.
        by rewrite decide_True by lia.
    + exists wn. rewrite Hwn. split; [done|]. split; [done|].
      rewrite decide_False by (by intros [_ ?]). split; [done|].
      eapply Forall_impl; [exact (Hsn Hnz)|].
      intros s (_ & _ & _ & _ & Hg). unfold report. rewrite Hg, Hlt.
      by rewrite decide_False by lia.
Qed.

Lemma two_cells_ok : ∀ d, 1 ≤ Example.cells533 d < 2 ^ 32.
Proof. intros []; unfold Example.cells533; lia. Qed.

Lemma two_grid_ok : ∀ d, 0 < Example.grid211 d < 2 ^ 32.
Proof. intros []; unfold Example.grid211; lia. Qed.

Lemma two_divides : ∀ d, (Example.cells533 d - 1) mod Example.grid211 d = 0.
Proof. by intros []. Qed.

Lemma run_and_report_witness :
  (∀ d, 1 ≤ Example.cells533 d < 2 ^ 32) ∧ (∀ d, 0 < Example.grid211 d < 2 ^ 32) ∧
  (∀ d, (Example.cells533 d - 1) mod Example.grid211 d = 0) ∧
  cartesian_ok ((λ c, process_of c Example.cells533 Example.grid211)
                  <$> [Example.left_half; Example.right_half]) ∧
  Forall block_ok ((λ c, process_of c Example.cells533 Example.grid211)
                     <$> [Example.left_half; Example.right_half]) ∧
  [Example.left_half; Example.right_half] ≠ [] ∧ 0 ≤ 3 ∧
  ∃ w0 w,
    mapM initial_state ((λ c, process_of c Example.cells533 Example.grid211)
                          <$> [Example.left_half; Example.right_half]) = Some w0 ∧
    main [Example.left_half; Example.right_half] Example.cells533 Example.grid211 3 0.5
    = Some (Done w) ∧
    if decide (0 < 3 ∧ PrimFloat.ltb 1 0.5 = true)
    then (∃ w1, iteration ((λ c, process_of c Example.cells533 Example.grid211)
                             <$> [Example.left_half; Example.right_half]) 0.5 0 w0
                = Some w1 ∧ w = set_finalNumIterations 0 <$> w1) ∧
         Forall (λ s, report 3 0.5 s = Converged 0 0.5) w
    else iterations ((λ c, process_of c Example.cells533 Example.grid211)
                       <$> [Example.left_half; Example.right_half]) 0.5
           (Z.to_nat 3) 0 w0 = Some w ∧
         Forall (λ s, report 3 0.5 s = NotConverged 3) w.
Proof.
  split; [exact two_cells_ok|]. split; [exact two_grid_ok|]. split; [exact two_divides|].
  split; [exact two_processes_cartesian|]. split; [exact two_processes_block_ok|].
  split; [done|]. split; [lia|].
  exact (run_and_report [Example.left_half; Example.right_half] Example.cells533
           Example.grid211 3 0.5 two_cells_ok two_grid_ok two_divides
           two_processes_cartesian two_processes_block_ok ltac:(done) ltac:(lia)).
Defined.

(** X1. When [numCells - 1] is a multiple of the number of processes
    along an axis, the blocks of [chunck] cells, each sharing its last
    plane with the first plane of the next, cover the cells of the grid
    exactly: [coordinates3D * (chunck - 1) + i] is computed without
    wrap-around, stays below [numCells], and reaches every cell. *)
Theorem blocks_cover_the_grid numCells dimension3D a :
  1 ≤ numCells a < 2 ^ 32 → 0 < dimension3D a < 2 ^ 32 →
  (numCells a - 1) mod dimension3D a = 0 →
  dimension3D a * (chunck_of numCells dimension3D a - 1) = numCells a - 1 ∧
  (∀ coordinate i, 0 ≤ coordinate < dimension3D a →
     0 ≤ i < chunck_of numCells dimension3D a →
     global_index_of coordinate (chunck_of numCells dimension3D a) i
     = coordinate * (chunck_of numCells dimension3D a - 1) + i ∧
     0 ≤ global_index_of coordinate (chunck_of numCells dimension3D a) i < numCells a) ∧
  (∀ g, 0 ≤ g < numCells a →
     ∃ coordinate i, 0 ≤ coordinate < dimension3D a ∧
       0 ≤ i < chunck_of numCells dimension3D a ∧
       global_index_of coordinate (chunck_of numCells dimension3D a) i = g) ∧
  (∀ coordinate, 0 ≤ coordinate → coordinate + 1 < dimension3D a →
     global_index_of coordinate (chunck_of numCells dimension3D a)
       (chunck_of numCells dimension3D a - 1)
     = global_index_of (coordinate + 1) (chunck_of numCells dimension3D a) 0).
Proof.
  intros Hn Hd Hdiv.
  destruct (chunck_of_spec numCells dimension3D a Hn Hd) as [Hc Hcr].
  set (c := chunck_of numCells dimension3D a) in *.
  set (n := numCells a) in *. set (m := dimension3D a) in *.
  assert (m * (c - 1) = n - 1) as Hcover.
  { pose proof (Z.div_mod (n - 1) m ltac:(lia)). lia. }
  assert (∀ coordinate i, 0 ≤ coordinate < m → 0 ≤ i < c →
            global_index_of coordinate c i = coordinate * (c - 1) + i ∧
            0 ≤ coordinate * (c - 1) + i < n) as Hidx.
  { intros co i Hco Hi.
    assert (0 ≤ co * (c - 1) ≤ (m - 1) * (c - 1)) by nia.
    assert (0 ≤ co * (c - 1) + i < n) by nia.
    unfold global_index_of. rewrite (u32_small co), usub_small by lia.
    rewrite umul_small by lia. by rewrite uadd_small by lia. }
  split; [done|]. split; [|split].
  - intros co i Hco Hi. destruct (Hidx co i Hco Hi) as [-> ?]. done.
  - intros g Hg. destruct (decide (g = n - 1)) as [->|Hlast].
    + exists (m - 1), (c - 1). split; [lia|]. split; [lia|].
      destruct (Hidx (m - 1) (c - 1)) as [-> _]; lia.
    + assert (1 < c) by nia.
      exists (g / (c - 1)), (g mod (c - 1)).
      pose proof (Z.mod_pos_bound g (c - 1) ltac:(lia)).
      pose proof (Z.div_mod g (c - 1) ltac:(lia)).
      assert (0 ≤ g / (c - 1)) by (apply Z.div_pos; lia).
      assert (g / (c - 1) < m) by (apply Z.div_lt_upper_bound; lia).
      split; [lia|]. split; [lia|].
      destruct (Hidx (g / (c - 1)) (g mod (c - 1))) as [-> _]; lia.
  - intros co Hco Hco'.
    destruct (Hidx co (c - 1)) as [-> _]; [lia|lia|].
    destruct (Hidx (co + 1) 0) as [-> _]; [lia|lia|]. lia.
Qed.

Lemma blocks_cover_the_grid_witness :
  1 ≤ Example.cells533 COORDINATE.X < 2 ^ 32 ∧
  0 < Example.grid211 COORDINATE.X < 2 ^ 32 ∧
  (Example.cells533 COORDINATE.X - 1) mod Example.grid211 COORDINATE.X = 0 ∧
  Example.grid211 COORDINATE.X
  * (chunck_of Example.cells533 Example.grid211 COORDINATE.X - 1)
  = Example.cells533 COORDINATE.X - 1 ∧
  (∀ coordinate i, 0 ≤ coordinate < Example.grid211 COORDINATE.X →
     0 ≤ i < chunck_of Example.cells533 Example.grid211 COORDINATE.X →
     global_index_of coordinate (chunck_of Example.cells533 Example.grid211 COORDINATE.X) i
     = coordinate * (chunck_of Example.cells533 Example.grid211 COORDINATE.X - 1) + i ∧
     0 ≤ global_index_of coordinate
           (chunck_of Example.cells533 Example.grid211 COORDINATE.X) i
       < Example.cells533 COORDINATE.X) ∧
  (∀ g, 0 ≤ g < Example.cells533 COORDINATE.X →
     ∃ coordinate i, 0 ≤ coordinate < Example.grid211 COORDINATE.X ∧
       0 ≤ i < chunck_of Example.cells533 Example.grid211 COORDINATE.X ∧
       global_index_of coordinate
         (chunck_of Example.cells533 Example.grid211 COORDINATE.X) i = g) ∧
  (∀ coordinate, 0 ≤ coordinate → coordinate + 1 < Example.grid211 COORDINATE.X →
     global_index_of coordinate (chunck_of Example.cells533 Example.grid211 COORDINATE.X)
       (chunck_of Example.cells533 Example.grid211 COORDINATE.X - 1)
     = global_index_of (coordinate + 1)
         (chunck_of Example.cells533 Example.grid211 COORDINATE.X) 0).
Proof.
  split; [exact (two_cells_ok COORDINATE.X)|].
  split; [exact (two_grid_ok COORDINATE.X)|].
  split; [exact (two_divides COORDINATE.X)|].
  exact (blocks_cover_the_grid Example.cells533 Example.grid211 COORDINATE.X
           (two_cells_ok COORDINATE.X) (two_grid_ok COORDINATE.X)
           (two_divides COORDINATE.X)).
Defined.

(** ** Blocks with two cells along an axis *)

Lemma set_Some_shape nx ny nz (T T' : Field) i j k v :
  set T i j k v = Some T' → shape nx ny nz T → shape nx ny nz T'.
Proof.
  unfold set. destruct v as [x|]; [|done]. simpl.
  destruct (get T i j k); [|done]. simpl. intros [= <-]. apply shape_alter.
Qed.

Lemma set_None_value (T : Field) i j k : set T i j k None = None.
Proof. done. Qed.

Lemma for_loop_preserves {St} (P : St → Prop) (body : Z → St → option St) n lo s s' :
  (∀ i s s', body i s = Some s' → P s → P s') →
  for_loop n lo body s = Some s' → P s → P s'.
Proof.
  intros Hbody. revert lo s. induction n as [|n IH]; intros lo s; simpl.
  - by intros [= <-].
  - destruct (body lo s) as [s1|] eqn:H1; [|done]. simpl. intros Hrun Hs.
    apply (IH _ _ Hrun). by apply (Hbody lo s).
Qed.

Lemma for_range_preserves {St} (P : St → Prop) (body : Z → St → option St) lo hi s s' :
  (∀ i s s', body i s = Some s' → P s → P s') →
  for_range lo hi body s = Some s' → P s → P s'.
Proof. apply for_loop_preserves. Qed.

Lemma for_range_first_None {St} (body : Z → St → option St) lo hi s :
  lo < hi → body lo s = None → for_range lo hi body s = None.
Proof.
  intros Hlt Hnone. unfold for_range.
  destruct (Z.to_nat (hi - lo)) as [|n] eqn:Hn; [lia|]. simpl. by rewrite Hnone.
Qed.

(** A sweep over a face keeps the extent of the field. *)
Lemma sweep_counter_shape nx ny nz (pi pj pk : Z → Z → Z)
    (val : Z → Z → Z → option floatT) lo1 hi1 lo2 hi2 (s s' : Field * Z) :
  for_range lo1 hi1 (λ a,
    for_range lo2 hi2 (λ b '(T, counter),
      T ← set T (pi a b) (pj a b) (pk a b) (val a b counter);
      Some (T, uadd counter 1))) s = Some s' →
  shape nx ny nz s.1 → shape nx ny nz s'.1.
Proof.
  apply (for_range_preserves (λ s, shape nx ny nz s.1)).
  intros a s1 s1'. apply (for_range_preserves (λ s, shape nx ny nz s.1)).
  intros b [U c] [U' c']. simpl.
  destruct (set U _ _ _ _) as [U1|] eqn:Hset; [|done]. simpl. intros [= <- <-].
  apply (set_Some_shape nx ny nz _ _ _ _ _ _ Hset).
Qed.

Lemma face_update_shape e d nx ny nz (T0 T T' : Field) (THalo : list floatT) :
  face_update e d T0 THalo T = Some T' → shape nx ny nz T → shape nx ny nz T'.
Proof.
  destruct d; simpl;
    unfold update_LEFT, update_RIGHT, update_BOTTOM, update_TOP, update_BACK,
      update_FRONT;
    (destruct (decide _); [|by intros [= <-]]); cbv zeta;
    match goal with
    | |- context [for_range ?lo1 ?hi1 (λ a, for_range ?lo2 ?hi2 (λ b '(U, counter),
                     U' ← set U (@?pi a b) (@?pj a b) (@?pk a b) (@?val a b counter);
                     Some (U', uadd counter 1))) (?T, 0)] =>
        pose proof (sweep_counter_shape nx ny nz pi pj pk val lo1 hi1 lo2 hi2 (T, 0))
          as Hsw
    end;
    match goal with
    | |- (?run ≫= _) = _ → _ => destruct run as [[U c]|]; [|done]
    end; simpl; intros [= <-] HT; by apply (Hsw (U, c)).
Qed.

Lemma update_faces_shape e nx ny nz (T0 T T' : Field) rb :
  update_faces e T0 rb T = Some T' → shape nx ny nz T → shape nx ny nz T'.
Proof.
  unfold update_faces. intros Hrun HT.
  destruct (update_LEFT e T0 _ T) as [T1|] eqn:H1; [|done]. simpl in Hrun.
  destruct (update_RIGHT e T0 _ T1) as [T2|] eqn:H2; [|done]. simpl in Hrun.
  destruct (update_BOTTOM e T0 _ T2) as [T3|] eqn:H3; [|done]. simpl in Hrun.
  destruct (update_TOP e T0 _ T3) as [T4|] eqn:H4; [|done]. simpl in Hrun.
  destruct (update_BACK e T0 _ T4) as [T5|] eqn:H5; [|done]. simpl in Hrun.
  apply (face_update_shape e DIRECTION.FRONT _ _ _ _ _ _ _ Hrun).
  apply (face_update_shape e DIRECTION.BACK _ _ _ _ _ _ _ H5).
  apply (face_update_shape e DIRECTION.TOP _ _ _ _ _ _ _ H4).
  apply (face_update_shape e DIRECTION.BOTTOM _ _ _ _ _ _ _ H3).
  apply (face_update_shape e DIRECTION.RIGHT _ _ _ _ _ _ _ H2).
  by apply (face_update_shape e DIRECTION.LEFT _ _ _ _ _ _ _ H1).
Qed.

Lemma edge_loop_shape e ed nx ny nz (T T' : Field) :
  edge_loop e ed T = Some T' → shape nx ny nz T → shape nx ny nz T'.
Proof.
  destruct ed as [d1 d2].
  destruct d1, d2; simpl; try (by intros [= <-]);
    unfold edge_LEFT_BOTTOM, edge_LEFT_TOP, edge_LEFT_BACK, edge_LEFT_FRONT,
      edge_RIGHT_BOTTOM, edge_RIGHT_TOP, edge_RIGHT_BACK, edge_RIGHT_FRONT,
      edge_BACK_BOTTOM, edge_BACK_TOP, edge_FRONT_BOTTOM, edge_FRONT_TOP;
    (destruct (decide _); [|by intros [= <-]]);
    (destruct (decide _); [|by intros [= <-]]); cbv zeta;
    apply (for_range_preserves (shape nx ny nz));
    intros t U U' Hset; apply (set_Some_shape nx ny nz _ _ _ _ _ _ Hset).
Qed.

Lemma lift2_None_r f a : lift2 f a None = None.
Proof. unfold lift2. by destruct a. Qed.

(** The extrapolation of an edge reads two cells inwards: with two cells
    along that axis the second read is outside the field. *)
Lemma edge_loop_thin e d1 d2 (X : Field) :
  (d1, d2) ∈ edge_order → extent_ok e → block e X →
  neighbors e d1 ≠ MPI_PROC_NULL → neighbors e d2 ≠ MPI_PROC_NULL →
  chunck e (axis d1) = 2 →
  (∀ a, a ≠ axis d1 → a ≠ axis d2 → 3 ≤ chunck e a) →
  edge_loop e (d1, d2) X = None.
Proof.
  intros Hmem Hext HX H1 H2 Hthin Hlong.
  pose proof (Hext COORDINATE.X) as HeX. pose proof (Hext COORDINATE.Y) as HeY.
  pose proof (Hext COORDINATE.Z) as HeZ.
  pose proof (Hlong COORDINATE.X) as HlX. pose proof (Hlong COORDINATE.Y) as HlY.
  pose proof (Hlong COORDINATE.Z) as HlZ.
  unfold block in HX. unfold edge_order in Hmem.
  repeat (apply elem_of_cons in Hmem as [[= -> ->]|Hmem]);
    [..|by apply elem_of_nil in Hmem];
    simpl in Hthin, HlX, HlY, HlZ;
    try specialize (HlX ltac:(done) ltac:(done));
    try specialize (HlY ltac:(done) ltac:(done));
    try specialize (HlZ ltac:(done) ltac:(done));
    simpl;
    unfold edge_LEFT_BOTTOM, edge_LEFT_TOP, edge_LEFT_BACK, edge_LEFT_FRONT,
      edge_RIGHT_BOTTOM, edge_RIGHT_TOP, edge_RIGHT_BACK, edge_RIGHT_FRONT,
      edge_BACK_BOTTOM, edge_BACK_TOP, edge_FRONT_BOTTOM, edge_FRONT_TOP;
    rewrite !decide_True by done; cbv zeta;
    (apply for_range_first_None; [unwrap; lia|]);
    match goal with
    | |- set _ _ _ _ (lift2 _ _ (get ?U ?i ?j ?k)) = None =>
        rewrite (get_None _ _ _ U i j k HX);
        [by rewrite lift2_None_r|]
    end;
    rewrite ?Hthin; unfold usub, u32; simpl;
    try change (((2 - 1) `mod` 2 ^ 32 - 2) `mod` 2 ^ 32) with 4294967295; lia.
Qed.

Lemma run_edges_thin e l d1 d2 (T : Field) :
  (d1, d2) ∈ l → (∀ X, block e X → edge_loop e (d1, d2) X = None) →
  block e T → run_all (edge_loop e <$> l) T = None.
Proof.
  intros Hmem Hnone. revert T. induction l as [|ed l IH]; intros T HT.
  - by apply elem_of_nil in Hmem.
  - simpl. destruct (edge_loop e ed T) as [T1|] eqn:H1; [|done]. simpl.
    apply elem_of_cons in Hmem as [<-|Hmem].
    + rewrite Hnone in H1; done.
    + apply IH; [done|]. by apply (edge_loop_shape e ed _ _ _ T T1).
Qed.

Lemma each_None (f : process → state → option state) ps w p e s :
  ps !! p = Some e → w !! p = Some s → f e s = None → each f ps w = None.
Proof.
  unfold each. revert w p. induction ps as [|e0 ps IH]; intros [|s0 w] [|p]; try done;
    simpl; intros He Hs Hf.
  - injection He as ->. injection Hs as ->. by rewrite Hf.
  - destruct (f e0 s0); [|done]. simpl. by rewrite (IH w p He Hs Hf).
Qed.

Lemma each_Some_lookup (f : process → state → option state) ps w w' p e s :
  each f ps w = Some w' → ps !! p = Some e → w !! p = Some s →
  ∃ s', w' !! p = Some s' ∧ f e s = Some s'.
Proof.
  unfold each. revert w w' p. induction ps as [|e0 ps IH]; intros [|s0 w] w' [|p];
    try done; simpl; intros Hrun He Hs.
  - injection He as ->. injection Hs as ->.
    destruct (f e s) as [s'|]; [|done]. simpl in Hrun.
    destruct (mapM _ _) as [k|]; [|done]. simpl in Hrun. injection Hrun as <-.
    by exists s'.
  - destruct (f e0 s0) as [s0'|]; [|done]. simpl in Hrun.
    destruct (mapM _ (zip ps w)) as [k|] eqn:Hk; [|done]. simpl in Hrun.
    injection Hrun as <-. simpl. by apply (IH w k p).
Qed.

Lemma copy_and_pack_T e s s1 : copy_and_pack e s = Some s1 → T s1 = T s.
Proof.
  unfold copy_and_pack. destruct (copy_solution _ _ _); [|done]. simpl.
  destruct (pack _ _ _); [|done]. simpl. by intros [= <-].
Qed.

Lemma halo_exchange_T w e s s2 : halo_exchange w e s = Some s2 → T s2 = T s.
Proof.
  unfold halo_exchange.
  destruct (receive w e s DIRECTION.LEFT); [|done]. simpl.
  destruct (receive w e s DIRECTION.RIGHT); [|done]. simpl.
  destruct (receive w e s DIRECTION.BOTTOM); [|done]. simpl.
  destruct (receive w e s DIRECTION.TOP); [|done]. simpl.
  destruct (receive w e s DIRECTION.BACK); [|done]. simpl.
  destruct (receive w e s DIRECTION.FRONT); [|done]. simpl.
  intros Heq. injection Heq as Heq. by rewrite <- Heq.
Qed.

(** X8. The extrapolation of an edge reads two cells inwards.  On a
    process with neighbours on both faces of an edge, two cells along the
    axis of the extrapolation and at least three cells along the edge, the
    loop of that edge subscripts [T] outside its extent, and so do the
    update phase and every iteration in which that process takes part. *)
Theorem thin_block_reads_outside e d1 d2 :
  (d1, d2) ∈ edge_order → extent_ok e →
  neighbors e d1 ≠ MPI_PROC_NULL → neighbors e d2 ≠ MPI_PROC_NULL →
  chunck e (axis d1) = 2 →
  (∀ a, a ≠ axis d1 → a ≠ axis d2 → 3 ≤ chunck e a) →
  (∀ X, block e X → edge_loop e (d1, d2) X = None) ∧
  (∀ time s, block e (T s) → update_and_residual e time s = None) ∧
  (∀ ps eps time w p s, ps !! p = Some e → w !! p = Some s → block e (T s) →
     iteration ps eps time w = None).
Proof.
  intros Hmem Hext H1 H2 Hthin Hlong.
  assert (∀ X, block e X → edge_loop e (d1, d2) X = None) as Hedge.
  { intros X HX. by apply edge_loop_thin. }
  assert (∀ time s, block e (T s) → update_and_residual e time s = None) as Hupd.
  { intros time s HT. unfold update_and_residual.
    destruct (update_faces e _ _ _) as [T1|] eqn:Hf; [|done]. simpl.
    rewrite update_edges_run, (run_edges_thin e edge_order d1 d2 T1 Hmem Hedge); [done|].
    by apply (update_faces_shape e _ _ _ _ _ _ _ Hf). }
  split; [done|]. split; [done|].
  intros ps eps time w p s He Hs HT. unfold iteration, update_and_reduce.
  destruct (each copy_and_pack ps w) as [w1|] eqn:Hw1; [|done]. simpl.
  destruct (each (halo_exchange w1) ps w1) as [w2|] eqn:Hw2; [|done]. simpl.
  destruct (each_Some_lookup _ _ _ _ p e s Hw1 He Hs) as (s1 & Hs1 & Hc1).
  destruct (each_Some_lookup _ _ _ _ p e s1 Hw2 He Hs1) as (s2 & Hs2 & Hc2).
  rewrite (each_None _ ps w2 p e s2 He Hs2); [done|].
  apply Hupd. by rewrite (halo_exchange_T _ _ _ _ Hc2), (copy_and_pack_T _ _ _ Hc1).
Qed.

Lemma thin_block_reads_outside_witness :
  (DIRECTION.LEFT, DIRECTION.BOTTOM) ∈ edge_order ∧
  extent_ok (process_of Example.quarter Example.cells333 Example.grid221) ∧
  neighbors (process_of Example.quarter Example.cells333 Example.grid221) DIRECTION.LEFT
  ≠ MPI_PROC_NULL ∧
  neighbors (process_of Example.quarter Example.cells333 Example.grid221) DIRECTION.BOTTOM
  ≠ MPI_PROC_NULL ∧
  chunck (process_of Example.quarter Example.cells333 Example.grid221)
    (axis DIRECTION.LEFT) = 2 ∧
  (∀ a, a ≠ axis DIRECTION.LEFT → a ≠ axis DIRECTION.BOTTOM →
        3 ≤ chunck (process_of Example.quarter Example.cells333 Example.grid221) a) ∧
  (∀ X, block (process_of Example.quarter Example.cells333 Example.grid221) X →
        edge_loop (process_of Example.quarter Example.cells333 Example.grid221)
          (DIRECTION.LEFT, DIRECTION.BOTTOM) X = None) ∧
  (∀ time s, block (process_of Example.quarter Example.cells333 Example.grid221) (T s) →
     update_and_residual (process_of Example.quarter Example.cells333 Example.grid221)
       time s = None) ∧
  (∀ ps eps time w p s,
     ps !! p = Some (process_of Example.quarter Example.cells333 Example.grid221) →
     w !! p = Some s →
     block (process_of Example.quarter Example.cells333 Example.grid221) (T s) →
     iteration ps eps time w = None).
Proof.
  assert ((DIRECTION.LEFT, DIRECTION.BOTTOM) ∈ edge_order) as Hmem by (by left).
  assert (extent_ok (process_of Example.quarter Example.cells333 Example.grid221))
    as Hext by (intros []; vm_compute; split; congruence).
  assert (neighbors (process_of Example.quarter Example.cells333 Example.grid221)
            DIRECTION.LEFT ≠ MPI_PROC_NULL) as H1 by done.
  assert (neighbors (process_of Example.quarter Example.cells333 Example.grid221)
            DIRECTION.BOTTOM ≠ MPI_PROC_NULL) as H2 by done.
  assert (chunck (process_of Example.quarter Example.cells333 Example.grid221)
            (axis DIRECTION.LEFT) = 2) as Hthin by reflexivity.
  assert (∀ a, a ≠ axis DIRECTION.LEFT → a ≠ axis DIRECTION.BOTTOM →
            3 ≤ chunck (process_of Example.quarter Example.cells333 Example.grid221) a)
    as Hlong by (intros []; simpl; intros; first [done|by vm_compute]).
  do 6 (split; [done|]).
  exact (thin_block_reads_outside _ DIRECTION.LEFT DIRECTION.BOTTOM
           Hmem Hext H1 H2 Hthin Hlong).
Defined.

(** ** Loops as runs over lists of indices *)

Lemma for_loop_run_over {St} (body : Z → St → option St) n lo s :
  for_loop n lo body s = run_over body (seqZ lo (Z.of_nat n)) s.
Proof.
  revert lo s. induction n as [|n IH]; intros lo s.
  - by rewrite seqZ_nil.
  - rewrite seqZ_cons by lia. simpl. destruct (body lo s) as [s'|]; [|done]. simpl.
    rewrite IH. do 2 f_equal; lia.
Qed.

Lemma for_range_run_over {St} (body : Z → St → option St) lo hi s :
  lo ≤ hi → for_range lo hi body s = run_over body (seqZ lo (hi - lo)) s.
Proof.
  intros Hle. unfold for_range. rewrite for_loop_run_over. do 2 f_equal. lia.
Qed.

Lemma run_over_app {St A} (body : A → St → option St) l1 l2 s :
  run_over body (l1 ++ l2) s = run_over body l1 s ≫= run_over body l2.
Proof.
  revert s. induction l1 as [|a l1 IH]; intros s; simpl; [done|].
  destruct (body a s) as [s'|]; simpl; [apply IH|done].
Qed.

Lemma run_over_bind {St A B} (body : B → St → option St) (g : A → list B) l s :
  run_over body (l ≫= g) s = run_over (λ a, run_over body (g a)) l s.
Proof.
  revert s. induction l as [|a l IH]; intros s; [done|].
  change ((a :: l) ≫= g) with (g a ++ (l ≫= g)). rewrite run_over_app. simpl.
  destruct (run_over body (g a) s) as [s'|]; simpl; [apply IH|done].
Qed.

Lemma run_over_ext {St A} (body body' : A → St → option St) l s :
  (∀ a s, body a s = body' a s) → run_over body l s = run_over body' l s.
Proof.
  intros Hext. revert s. induction l as [|a l IH]; intros s; simpl; [done|].
  rewrite Hext. destruct (body' a s); simpl; [apply IH|done].
Qed.

(** The three nested loops over a block run over [cells]. *)
Lemma block_loops_run_over {St} e (body : Z → Z → Z → St → option St) s :
  extent_ok e →
  for_range 0 (chunck e COORDINATE.Z) (λ k,
    for_range 0 (chunck e COORDINATE.Y) (λ j,
      for_range 0 (chunck e COORDINATE.X) (λ i, body i j k))) s
  = run_over (λ x, body x.1.1 x.1.2 x.2) (cells e) s.
Proof.
  intros Hext.
  pose proof (Hext COORDINATE.X). pose proof (Hext COORDINATE.Y).
  pose proof (Hext COORDINATE.Z).
  unfold cells. rewrite run_over_bind, for_range_run_over by lia.
  rewrite Z.sub_0_r. apply run_over_ext. intros k s1.
  rewrite run_over_bind, for_range_run_over by lia.
  rewrite Z.sub_0_r. apply run_over_ext. intros j s2.
  rewrite run_over_bind, for_range_run_over by lia.
  rewrite Z.sub_0_r. apply run_over_ext. intros i s3. simpl.
  by destruct (body i j k s3).
Qed.

Lemma length_bind_const {A B} (g : A → list B) (l : list A) m :
  (∀ a, length (g a) = m) → length (l ≫= g) = (length l * m)%nat.
Proof.
  intros Hg. induction l as [|a l IH]; [done|].
  change ((a :: l) ≫= g) with (g a ++ (l ≫= g)).
  rewrite length_app, IH, Hg. simpl. lia.
Qed.

Lemma length_cells e :
  extent_ok e →
  Z.of_nat (length (cells e))
  = chunck e COORDINATE.X * chunck e COORDINATE.Y * chunck e COORDINATE.Z.
Proof.
  intros Hext.
  pose proof (Hext COORDINATE.X). pose proof (Hext COORDINATE.Y).
  pose proof (Hext COORDINATE.Z).
  unfold cells.
  rewrite (length_bind_const _ _
             (Z.to_nat (chunck e COORDINATE.Y) * Z.to_nat (chunck e COORDINATE.X))).
  - rewrite length_seqZ. lia.
  - intros k. rewrite (length_bind_const _ _ (Z.to_nat (chunck e COORDINATE.X))).
    + by rewrite length_seqZ.
    + intros j. rewrite (length_bind_const _ _ 1%nat); [|done].
      rewrite length_seqZ. lia.
Qed.

Lemma elem_of_cells e x : x ∈ cells e ↔ in_block e x.
Proof.
  unfold cells. rewrite list_elem_of_bind. split.
  - intros (k & Hx & Hk%elem_of_seqZ).
    apply list_elem_of_bind in Hx as (j & Hx & Hj%elem_of_seqZ).
    apply list_elem_of_bind in Hx as (i & Hx & Hi%elem_of_seqZ).
    apply list_elem_of_singleton in Hx as ->.
    intros []; simpl; lia.
  - intros Hx. destruct x as [[i j] k].
    pose proof (Hx COORDINATE.X). pose proof (Hx COORDINATE.Y).
    pose proof (Hx COORDINATE.Z). simpl in *.
    exists k. split; [|apply elem_of_seqZ; lia].
    apply list_elem_of_bind. exists j. split; [|apply elem_of_seqZ; lia].
    apply list_elem_of_bind. exists i. split; [|apply elem_of_seqZ; lia].
    by apply list_elem_of_singleton.
Qed.

Lemma cell_value e (T : Field) x :
  block e T → in_block e x → cell T x = Some (value T x).
Proof.
  intros HT Hx. unfold value.
  destruct (proj2 (get_Some _ _ _ _ x.1.1 x.1.2 x.2 HT)) as [v Hv].
  - pose proof (Hx COORDINATE.X). pose proof (Hx COORDINATE.Y).
    pose proof (Hx COORDINATE.Z). done.
  - unfold cell. by rewrite Hv.
Qed.

(** ** The loops of the output *)

Lemma iadd_small a b : - 2 ^ 31 ≤ a + b < 2 ^ 31 → iadd a b = Some (a + b).
Proof. intros H. unfold iadd. by rewrite decide_True. Qed.

Lemma put_middle {A} (pre rest : list A) (r v : A) :
  put (pre ++ r :: rest) (Z.of_nat (length pre)) (Some v) = Some (pre ++ v :: rest).
Proof.
  unfold put, at_. simpl. rewrite decide_True by (rewrite length_app; simpl; lia).
  rewrite Nat2Z.id, lookup_app_r, Nat.sub_diag by lia. simpl.
  f_equal. rewrite insert_app_r_alt, Nat.sub_diag by lia. done.
Qed.

Lemma at_middle {A} (pre rest : list A) (v : A) :
  at_ (pre ++ v :: rest) (Z.of_nat (length pre)) = Some v.
Proof.
  unfold at_. rewrite decide_True by (rewrite length_app; simpl; lia).
  by rewrite Nat2Z.id, lookup_app_r, Nat.sub_diag by lia.
Qed.

Lemma run_own (P : Z * Z * Z → floatT → line) (T : Field) xs out :
  (∀ x, x ∈ xs → cell T x = Some (value T x)) →
  run_over (λ x out, t ← get T x.1.1 x.1.2 x.2; Some (out ++ [P x t])) xs out
  = Some (out ++ ((λ x, P x (value T x)) <$> xs)).
Proof.
  revert out. induction xs as [|x xs IH]; intros out Hval; simpl.
  - by rewrite app_nil_r.
  - pose proof (Hval x ltac:(left)) as Hx. unfold cell in Hx. rewrite Hx. simpl.
    rewrite IH by (intros y Hy; apply Hval; by right).
    by rewrite <- app_assoc.
Qed.

Lemma run_send (T : Field) xs pre rest :
  (∀ x, x ∈ xs → cell T x = Some (value T x)) →
  (length xs ≤ length rest)%nat →
  Z.of_nat (length pre + length xs) < 2 ^ 31 →
  run_over (λ x '(buffer, counter),
              buffer ← put buffer counter (get T x.1.1 x.1.2 x.2);
              counter ← iadd counter 1;
              Some (buffer, counter)) xs (pre ++ rest, Z.of_nat (length pre))
  = Some (pre ++ (value T <$> xs) ++ drop (length xs) rest,
          Z.of_nat (length pre + length xs)).
Proof.
  revert pre rest. induction xs as [|x xs IH]; intros pre rest Hval Hlen Hmax; simpl.
  - by rewrite Nat.add_0_r.
  - destruct rest as [|r rest]; [simpl in Hlen; lia|].
    pose proof (Hval x ltac:(left)) as Hx. unfold cell in Hx. rewrite Hx.
    rewrite put_middle. simpl.
    rewrite (iadd_small (Z.of_nat (length pre)) 1) by (simpl in Hmax; lia). simpl.
    replace (Z.of_nat (length pre) + 1) with (Z.of_nat (length (pre ++ [value T x])))
      by (rewrite length_app; simpl; lia).
    replace (pre ++ value T x :: rest) with ((pre ++ [value T x]) ++ rest)
      by (by rewrite <- app_assoc).
    rewrite IH.
    + rewrite <- app_assoc. simpl. do 2 f_equal. rewrite length_app. simpl. lia.
    + intros y Hy. apply Hval. by right.
    + simpl in Hlen. lia.
    + rewrite length_app. simpl in *. lia.
Qed.

Lemma run_received (P : Z * Z * Z → floatT → line) (T : Field) buffer xs out bpre brest :
  buffer = bpre ++ (value T <$> xs) ++ brest →
  Z.of_nat (length bpre + length xs) < 2 ^ 31 →
  run_over (λ x '(out, counter),
              t ← at_ buffer counter;
              counter' ← iadd counter 1;
              Some (out ++ [P x t], counter')) xs (out, Z.of_nat (length bpre))
  = Some (out ++ ((λ x, P x (value T x)) <$> xs), Z.of_nat (length bpre + length xs)).
Proof.
  revert out bpre. induction xs as [|x xs IH]; intros out bpre Hbuf Hmax; simpl.
  - by rewrite app_nil_r, Nat.add_0_r.
  - assert (at_ buffer (Z.of_nat (length bpre)) = Some (value T x)) as Hat
      by (rewrite Hbuf; simpl; apply at_middle).
    rewrite Hat. simpl.
    rewrite (iadd_small (Z.of_nat (length bpre)) 1) by (simpl in Hmax; lia). simpl.
    replace (Z.of_nat (length bpre) + 1)
      with (Z.of_nat (length (bpre ++ [value T x])))
      by (rewrite length_app; simpl; lia).
    rewrite (IH (out ++ [P x (value T x)]) (bpre ++ [value T x])).
    + rewrite <- app_assoc. simpl. do 2 f_equal. rewrite length_app. simpl. lia.
    + rewrite Hbuf. by rewrite <- app_assoc.
    + rewrite length_app. simpl in *. lia.
Qed.

Lemma cells_values e (T : Field) :
  block e T → ∀ x, x ∈ cells e → cell T x = Some (value T x).
Proof. intros HT x Hx. apply (cell_value e); [done|]. by apply elem_of_cells. Qed.

Lemma cells_ext e e' : (∀ a, chunck e a = chunck e' a) → cells e = cells e'.
Proof. intros Hc. unfold cells. by rewrite !Hc. Qed.

(** The block has fewer than 2^31 cells: the [int] counters of the output
    do not overflow. *)
Lemma block_product e :
  extent_ok e →
  chunck e COORDINATE.X * chunck e COORDINATE.Y * chunck e COORDINATE.Z < 2 ^ 31 →
  umul (umul (chunck e COORDINATE.X) (chunck e COORDINATE.Y)) (chunck e COORDINATE.Z)
  = chunck e COORDINATE.X * chunck e COORDINATE.Y * chunck e COORDINATE.Z.
Proof.
  intros Hext Hsmall.
  pose proof (Hext COORDINATE.X). pose proof (Hext COORDINATE.Y).
  pose proof (Hext COORDINATE.Z).
  assert (chunck e COORDINATE.X * chunck e COORDINATE.Y
          ≤ chunck e COORDINATE.X * chunck e COORDINATE.Y * chunck e COORDINATE.Z) by nia.
  rewrite (umul_small (chunck e COORDINATE.X)) by nia.
  rewrite umul_small; nia.
Qed.

Lemma length_receiveBufferPostProcess e :
  extent_ok e →
  chunck e COORDINATE.X * chunck e COORDINATE.Y * chunck e COORDINATE.Z < 2 ^ 31 →
  length (receiveBufferPostProcess e) = length (cells e).
Proof.
  intros Hext Hsmall. unfold receiveBufferPostProcess.
  rewrite length_replicate, block_product by done.
  pose proof (length_cells e Hext). lia.
Qed.

Lemma gather_send_spec e (T : Field) :
  extent_ok e → block e T →
  chunck e COORDINATE.X * chunck e COORDINATE.Y * chunck e COORDINATE.Z < 2 ^ 31 →
  gather_send e T (receiveBufferPostProcess e) = Some (value T <$> cells e).
Proof.
  intros Hext HT Hsmall. unfold gather_send.
  rewrite (block_loops_run_over e
             (λ i j k '(buffer, counter),
                buffer ← put buffer counter (get T i j k);
                counter ← iadd counter 1;
                Some (buffer, counter))) by done.
  pose proof (length_receiveBufferPostProcess e Hext Hsmall) as Hlen.
  pose proof (length_cells e Hext) as Hcells.
  pose proof (run_send T (cells e) [] (receiveBufferPostProcess e)
                (cells_values e T HT)) as Hrun.
  simpl in Hrun. change (Z.of_nat 0) with 0 in Hrun. rewrite Hrun by lia. simpl.
  by rewrite drop_ge, app_nil_r by lia.
Qed.

Lemma write_own_zone_spec e (T : Field) rk out :
  extent_ok e → block e T →
  write_own_zone e T rk out
  = Some (out ++ (point e (coordinates3D e) T rk <$> cells e)).
Proof.
  intros Hext HT. unfold write_own_zone.
  rewrite (block_loops_run_over e
             (λ i j k out,
                t ← get T i j k;
                Some (out ++ [POINT (position e (coordinates3D e) COORDINATE.X i)
                                    (position e (coordinates3D e) COORDINATE.Y j)
                                    (position e (coordinates3D e) COORDINATE.Z k)
                                    t rk]))) by done.
  by rewrite (run_own (λ x t, POINT (position e (coordinates3D e) COORDINATE.X x.1.1)
                                (position e (coordinates3D e) COORDINATE.Y x.1.2)
                                (position e (coordinates3D e) COORDINATE.Z x.2) t rk)
             T (cells e) out (cells_values e T HT)).
Qed.

Lemma write_received_zone_spec e coordinates (T : Field) r out :
  extent_ok e →
  chunck e COORDINATE.X * chunck e COORDINATE.Y * chunck e COORDINATE.Z < 2 ^ 31 →
  write_received_zone e coordinates (value T <$> cells e) r out
  = Some (out ++ (point e coordinates T (Some r) <$> cells e)).
Proof.
  intros Hext Hsmall. unfold write_received_zone.
  rewrite (block_loops_run_over e
             (λ i j k '(out, counter),
                t ← at_ (value T <$> cells e) counter;
                counter' ← iadd counter 1;
                Some (out ++ [POINT (position e coordinates COORDINATE.X i)
                                    (position e coordinates COORDINATE.Y j)
                                    (position e coordinates COORDINATE.Z k)
                                    t (Some r)], counter'))) by done.
  pose proof (length_cells e Hext) as Hcells.
  pose proof (run_received
                (λ x t, POINT (position e coordinates COORDINATE.X x.1.1)
                              (position e coordinates COORDINATE.Y x.1.2)
                              (position e coordinates COORDINATE.Z x.2) t (Some r))
                T (value T <$> cells e) (cells e) out [] []) as Hrun.
  simpl in Hrun. change (Z.of_nat 0) with 0 in Hrun.
  rewrite Hrun; [done|by rewrite app_nil_r|lia].
Qed.

Lemma lookup_bind_const {A B} (g : A → list B) (l : list A) m p a q y :
  (∀ a, length (g a) = m) → l !! p = Some a → g a !! q = Some y →
  (l ≫= g) !! (p * m + q)%nat = Some y.
Proof.
  intros Hg. revert p. induction l as [|a0 l IH]; intros p Hp Hq; [done|].
  change ((a0 :: l) ≫= g) with (g a0 ++ (l ≫= g)).
  destruct p as [|p]; simpl in *.
  - injection Hp as ->. by apply lookup_app_l_Some.
  - rewrite lookup_app_r by (rewrite Hg; lia).
    rewrite Hg. replace (m + p * m + q - m)%nat with (p * m + q)%nat by lia.
    by apply IH.
Qed.

(** The place of a cell in the order of the output. *)
Lemma lookup_cells e i j k :
  in_block e (i, j, k) →
  cells e !! Z.to_nat ((k * chunck e COORDINATE.Y + j) * chunck e COORDINATE.X + i)
  = Some (i, j, k).
Proof.
  intros Hx.
  pose proof (Hx COORDINATE.X) as Hi. pose proof (Hx COORDINATE.Y) as Hj.
  pose proof (Hx COORDINATE.Z) as Hk. simpl in Hi, Hj, Hk.
  set (cx := chunck e COORDINATE.X) in *. set (cy := chunck e COORDINATE.Y) in *.
  set (cz := chunck e COORDINATE.Z) in *.
  replace (Z.to_nat ((k * cy + j) * cx + i))
    with (Z.to_nat k * (Z.to_nat cy * Z.to_nat cx) + (Z.to_nat j * Z.to_nat cx + Z.to_nat i))%nat
    by nia.
  unfold cells. fold cx cy cz.
  apply (lookup_bind_const _ _ _ _ k).
  - intros k'. rewrite (length_bind_const _ _ (Z.to_nat cx)).
    + by rewrite length_seqZ.
    + intros j'. rewrite (length_bind_const _ _ 1%nat); [|done].
      rewrite length_seqZ. lia.
  - rewrite lookup_seqZ_lt by lia. f_equal. lia.
  - apply (lookup_bind_const _ _ _ _ j).
    + intros j'. rewrite (length_bind_const _ _ 1%nat); [|done].
      rewrite length_seqZ. lia.
    + rewrite lookup_seqZ_lt by lia. f_equal. lia.
    + replace (Z.to_nat i) with (Z.to_nat i * 1 + 0)%nat by lia.
      apply (lookup_bind_const _ _ _ _ i); [done| |done].
      rewrite lookup_seqZ_lt by lia. f_equal. lia.
Qed.

(** X10. On a block with two cells along some axis (and at least two
    along the others) no cell is strictly interior: the sum of the errors is
    0.0, the divisor [(chunck[X]-2) * (chunck[Y]-2) * (chunck[Z]-2)] is 0,
    and the error that is printed is a NaN. *)
Theorem thin_block_error_is_nan e (T : Field) :
  (∀ a, 2 ≤ chunck e a < 2 ^ 32) → (∃ a, chunck e a = 2) →
  ∃ r, L2_error e T = Some r ∧ PrimFloat.is_nan r = true.
Proof.
  intros Hext [a Ha].
  pose proof (Hext COORDINATE.X) as HX. pose proof (Hext COORDINATE.Y) as HY.
  pose proof (Hext COORDINATE.Z) as HZ.
  unfold L2_error. unwrap.
  destruct (for_range_inv (λ _ (r : floatT), r = 0%float)
    (λ k, for_range 1 (chunck e COORDINATE.Y - 1) (λ j,
            for_range 1 (chunck e COORDINATE.X - 1) (λ i error,
              t ← get T i j k;
              Some (error + PrimFloat.sqrt (pow_2 (t - ramp e j)))%float)))
    1 (chunck e COORDINATE.Z - 1) 0%float) as (r & -> & ->); [lia|done| |].
  - intros k r Hk ->.
    apply (for_range_inv (λ _ (r : floatT), r = 0%float)); [lia|done|].
    intros j r Hj ->.
    apply (for_range_inv (λ _ (r : floatT), r = 0%float)); [lia|done|].
    intros i r Hi ->. destruct a; lia.
  - simpl. eexists. split; [done|].
    assert (umul (umul (chunck e COORDINATE.X - 2) (chunck e COORDINATE.Y - 2))
                 (chunck e COORDINATE.Z - 2) = 0) as ->.
    { unfold umul, u32. destruct a; rewrite Ha; simpl;
        rewrite ?Z.mul_0_r, ?Z.mul_0_l; done. }
    by vm_compute.
Qed.

Lemma thin_block_error_is_nan_witness :
  (∀ a, 2 ≤ chunck (process_of Example.quarter Example.cells333 Example.grid221) a
        < 2 ^ 32) ∧
  (∃ a, chunck (process_of Example.quarter Example.cells333 Example.grid221) a = 2) ∧
  ∃ r, L2_error (process_of Example.quarter Example.cells333 Example.grid221)
         (resize3 2 2 3) = Some r ∧
       PrimFloat.is_nan r = true.
Proof.
  assert (∀ a, 2 ≤ chunck (process_of Example.quarter Example.cells333 Example.grid221) a
               < 2 ^ 32) as Hext by (intros []; vm_compute; split; congruence).
  assert (∃ a, chunck (process_of Example.quarter Example.cells333 Example.grid221) a = 2)
    as Hthin by (by exists COORDINATE.X).
  split; [done|]. split; [done|].
  exact (thin_block_error_is_nan _ (resize3 2 2 3) Hext Hthin).
Defined.

Lemma index_bound cx cy cz i j k :
  0 ≤ i < cx → 0 ≤ j < cy → 0 ≤ k < cz →
  0 ≤ (k * cy + j) * cx + i < cx * cy * cz.
Proof.
  intros Hi Hj Hk.
  assert (0 ≤ k * cy + j ≤ cz * cy - 1) by nia.
  assert (0 ≤ (k * cy + j) * cx ≤ (cz * cy - 1) * cx) by nia.
  nia.
Qed.

(** X11. The buffer that a rank above 0 sends to rank 0 holds the whole
    field, [T[i][j][k]] at position [(k * chunck[Y] + j) * chunck[X] + i]:
    [i] runs fastest. *)
Theorem gathered_buffer_is_the_field e (T : Field) :
  extent_ok e → block e T →
  chunck e COORDINATE.X * chunck e COORDINATE.Y * chunck e COORDINATE.Z < 2 ^ 31 →
  ∃ buffer, gather_send e T (receiveBufferPostProcess e) = Some buffer ∧
    Z.of_nat (length buffer)
    = chunck e COORDINATE.X * chunck e COORDINATE.Y * chunck e COORDINATE.Z ∧
    ∀ i j k, in_block e (i, j, k) →
      is_Some (get T i j k) ∧
      at_ buffer ((k * chunck e COORDINATE.Y + j) * chunck e COORDINATE.X + i)
      = get T i j k.
Proof.
  intros Hext HT Hsmall. rewrite gather_send_spec by done.
  eexists. split; [done|]. rewrite length_fmap. split; [by apply length_cells|].
  intros i j k Hx. pose proof (cell_value e T (i, j, k) HT Hx) as Hv.
  unfold cell in Hv. simpl in Hv. rewrite Hv. split; [by eexists|].
  pose proof (Hx COORDINATE.X) as Hi. pose proof (Hx COORDINATE.Y) as Hj.
  pose proof (Hx COORDINATE.Z) as Hk. simpl in Hi, Hj, Hk.
  pose proof (length_cells e Hext) as Hlen.
  unfold at_. rewrite length_fmap, decide_True by (rewrite Hlen; by apply index_bound).
  by rewrite list_lookup_fmap, lookup_cells.
Qed.

Lemma gathered_buffer_is_the_field_witness :
  extent_ok Example.inner ∧ block Example.inner Example.field333 ∧
  chunck Example.inner COORDINATE.X * chunck Example.inner COORDINATE.Y
  * chunck Example.inner COORDINATE.Z < 2 ^ 31 ∧
  ∃ buffer, gather_send Example.inner Example.field333
              (receiveBufferPostProcess Example.inner) = Some buffer ∧
    Z.of_nat (length buffer)
    = chunck Example.inner COORDINATE.X * chunck Example.inner COORDINATE.Y
      * chunck Example.inner COORDINATE.Z ∧
    ∀ i j k, in_block Example.inner (i, j, k) →
      is_Some (get Example.field333 i j k) ∧
      at_ buffer ((k * chunck Example.inner COORDINATE.Y + j)
                  * chunck Example.inner COORDINATE.X + i)
      = get Example.field333 i j k.
Proof.
  assert (extent_ok Example.inner) as Hext by (intros []; simpl; lia).
  assert (chunck Example.inner COORDINATE.X * chunck Example.inner COORDINATE.Y
          * chunck Example.inner COORDINATE.Z < 2 ^ 31) as Hsmall by (simpl; lia).
  split; [done|]. split; [exact field333_block|]. split; [done|].
  exact (gathered_buffer_is_the_field Example.inner Example.field333
           Hext field333_block Hsmall).
Defined.

Lemma MPI_Recv_whole (buffer message : list floatT) :
  length message = length buffer → MPI_Recv buffer message = Some message.
Proof.
  intros Hlen. unfold MPI_Recv. rewrite decide_True by lia.
  by rewrite drop_ge, app_nil_r by lia.
Qed.

(** X12. On equal blocks listed by rank, rank 0 writes the title, the
    variables, and one zone for every rank in turn: a header, which always
    carries the rank of the writer, and one point for every cell of the
    block of that rank, [i] running fastest, with the position computed
    from the grid coordinates of that rank, the value of its field and its
    rank.  A single process writes its zone without the rank column. *)
Theorem output_file_written ps w :
  ps ≠ [] → Forall extent_ok ps → Forall2 (λ e s, block e (T s)) ps w →
  (∀ p e, ps !! p = Some e → rank e = p) →
  (∀ p q e e', ps !! p = Some e → ps !! q = Some e' → ∀ a, chunck e a = chunck e' a) →
  (∀ e, e ∈ ps →
     chunck e COORDINATE.X * chunck e COORDINATE.Y * chunck e COORDINATE.Z < 2 ^ 31) →
  write_output ps w = Some (output_file ps w).
Proof.
  intros Hne Hext HT Hrank Hsame Hsmall.
  destruct ps as [|e0 ps]; [done|]. destruct w as [|s0 w]; [by inversion HT|].
  pose proof (Forall2_length _ _ _ HT) as Hlen.
  assert (extent_ok e0) as Hext0 by (by apply Forall_cons in Hext as [? _]).
  assert (block e0 (T s0)) as HT0 by (by apply Forall2_cons in HT as [? _]).
  assert (rank e0 = 0%nat) as Hr0 by (by apply (Hrank 0%nat)).
  pose proof (Hsmall e0 ltac:(left)) as Hsmall0.
  unfold write_output. destruct (decide (Z.of_nat (length (e0 :: ps)) = 1)) as [H1|H1].
  - destruct ps; [|simpl in H1; lia]. destruct w; [|simpl in Hlen; lia].
    by rewrite write_own_zone_spec.
  - rewrite write_own_zone_spec by done. simpl "≫=".
    set (Zs := imap (zone e0) (zip (e0 :: ps) (s0 :: w))).
    assert (length Zs = length (e0 :: ps)) as HlenZ.
    { unfold Zs. rewrite length_imap, length_zip_with. lia. }
    destruct (for_range_inv
      (λ t (s : list line * list floatT),
         s.1 = [TITLE; VARIABLES true] ++ concat (take (Z.to_nat t) Zs) ∧
         length s.2 = length (cells e0))
      (λ recvRank '(out, buffer),
          e ← (e0 :: ps) !! Z.to_nat recvRank;
          s ← (s0 :: w) !! Z.to_nat recvRank;
          message ← gather_send e (T s) (receiveBufferPostProcess e);
          buffer ← MPI_Recv buffer message;
          out ← write_received_zone e0 (coordinates3D e) buffer recvRank
                  (out ++ [zone_header e0]);
          Some (out, buffer))
      1 (Z.of_nat (length (e0 :: ps)))
      ([TITLE; VARIABLES true; zone_header e0]
       ++ (point e0 (coordinates3D e0) (T s0) (Some (Z.of_nat (rank e0))) <$> cells e0),
       receiveBufferPostProcess e0)) as ([out buf] & Hrun & Hout & _).
    + simpl. lia.
    + split; [|by apply length_receiveBufferPostProcess].
      simpl. rewrite Hr0. unfold zone. simpl. by rewrite app_nil_r.
    + intros t [out buf] Ht [Hout Hbuf]. simpl in Hout, Hbuf.
      destruct (lookup_lt_is_Some_2 (e0 :: ps) (Z.to_nat t)) as [e He]; [lia|].
      destruct (lookup_lt_is_Some_2 (s0 :: w) (Z.to_nat t)) as [s Hs]; [lia|].
      rewrite He, Hs. simpl "≫=".
      assert (extent_ok e) as Hexte.
      { rewrite Forall_lookup in Hext. by apply (Hext (Z.to_nat t)). }
      assert (block e (T s)) as HTe by (by apply (Forall2_lookup_lr _ _ _ _ _ _ HT He Hs)).
      assert (cells e = cells e0) as Hcells.
      { apply cells_ext. intros a. by apply (Hsame (Z.to_nat t) 0%nat). }
      rewrite gather_send_spec; [|done|done|].
      2: { apply Hsmall. by apply list_elem_of_lookup_2 in He. }
      simpl "≫=". rewrite MPI_Recv_whole by (by rewrite length_fmap, Hcells).
      simpl "≫=". rewrite Hcells, write_received_zone_spec by done.
      simpl "≫=". eexists. split; [done|]. simpl.
      split; [|by rewrite length_fmap].
      replace (Z.to_nat (t + 1)) with (S (Z.to_nat t)) by lia.
      rewrite (take_S_r Zs (Z.to_nat t) (zone e0 (Z.to_nat t) (e, s))).
      * rewrite concat_app, Hout. simpl. rewrite app_nil_r, <- !app_assoc. simpl.
        unfold zone. simpl. do 5 f_equal.
        replace (Z.of_nat (Z.to_nat t)) with t by lia. done.
      * unfold Zs. rewrite list_lookup_imap.
        rewrite lookup_zip_with, He. simpl. by rewrite Hs.
    + simpl in Hrun. rewrite Hrun. simpl in Hout. subst out. simpl "≫=". f_equal.
      rewrite take_ge by (simpl in *; lia). unfold output_file.
      destruct ps as [|e1 ps]; [simpl in H1; lia|]. done.
Qed.

Lemma output_file_written_witness :
  Example.two_processes ≠ [] ∧ Forall extent_ok Example.two_processes ∧
  Forall2 (λ e s, block e (T s)) Example.two_processes
    [Example.state333; Example.state333] ∧
  (∀ p e, Example.two_processes !! p = Some e → rank e = p) ∧
  (∀ p q e e', Example.two_processes !! p = Some e →
     Example.two_processes !! q = Some e' → ∀ a, chunck e a = chunck e' a) ∧
  (∀ e, e ∈ Example.two_processes →
     chunck e COORDINATE.X * chunck e COORDINATE.Y * chunck e COORDINATE.Z < 2 ^ 31) ∧
  write_output Example.two_processes [Example.state333; Example.state333]
  = Some (output_file Example.two_processes [Example.state333; Example.state333]).
Proof.
  assert (Forall extent_ok Example.two_processes) as Hext
    by (constructor; [intros []; vm_compute; split; congruence|];
        constructor; [intros []; vm_compute; split; congruence|constructor]).
  assert (Forall2 (λ e s, block e (T s)) Example.two_processes
            [Example.state333; Example.state333]) as HT
    by (constructor; [exact field333_block|];
        constructor; [exact field333_block|constructor]).
  assert (∀ p e, Example.two_processes !! p = Some e → rank e = p) as Hrank.
  { intros [|[|p]] e; simpl; [| |done]; by intros [= <-]. }
  assert (∀ p q e e', Example.two_processes !! p = Some e →
            Example.two_processes !! q = Some e' → ∀ a, chunck e a = chunck e' a)
    as Hsame.
  { intros [|[|p]] [|[|q]] e e'; simpl; try done; by intros [= <-] [= <-]. }
  assert (∀ e, e ∈ Example.two_processes →
            chunck e COORDINATE.X * chunck e COORDINATE.Y * chunck e COORDINATE.Z
            < 2 ^ 31) as Hsmall.
  { intros e [->|[->|[]%elem_of_nil]%elem_of_cons]%elem_of_cons; by vm_compute. }
  split; [done|]. do 5 (split; [done|]).
  exact (output_file_written Example.two_processes [Example.state333; Example.state333]
           ltac:(done) Hext HT Hrank Hsame Hsmall).
Defined.

(** * The reductions, and blocks of two cells *)

(** ** The flags of an iteration *)

Lemma each_Some_inv (f : process → state → option state) ps w w' p s' :
  each f ps w = Some w' → w' !! p = Some s' →
  ∃ e s, ps !! p = Some e ∧ w !! p = Some s ∧ f e s = Some s'.
Proof.
  unfold each. revert w w' p. induction ps as [|e0 ps IH]; intros [|s0 w] w' p;
    simpl; try (intros [= <-]; done).
  destruct (f e0 s0) as [s0'|] eqn:Hf; [|done]. simpl.
  destruct (mapM _ (zip ps w)) as [k|] eqn:Hk; [|done]. simpl.
  intros [= <-]. destruct p as [|p]; simpl.
  - intros [= <-]. by exists e0, s0.
  - intros Hs'. by apply (IH w k p).
Qed.

Lemma copy_and_pack_flag e s s1 :
  copy_and_pack e s = Some s1 → breakCondition s1 = breakCondition s.
Proof.
  unfold copy_and_pack. destruct (copy_solution _ _ _); [|done]. simpl.
  destruct (pack _ _ _); [|done]. simpl. by intros [= <-].
Qed.

Lemma halo_exchange_flag w e s s2 :
  halo_exchange w e s = Some s2 → breakCondition s2 = breakCondition s.
Proof.
  unfold halo_exchange.
  destruct (receive w e s DIRECTION.LEFT); [|done]. simpl.
  destruct (receive w e s DIRECTION.RIGHT); [|done]. simpl.
  destruct (receive w e s DIRECTION.BOTTOM); [|done]. simpl.
  destruct (receive w e s DIRECTION.TOP); [|done]. simpl.
  destruct (receive w e s DIRECTION.BACK); [|done]. simpl.
  destruct (receive w e s DIRECTION.FRONT); [|done]. simpl.
  by intros [= <-].
Qed.

Lemma update_and_residual_flag e time s s3 :
  update_and_residual e time s = Some s3 → breakCondition s3 = breakCondition s.
Proof.
  unfold update_and_residual.
  destruct (update_faces _ _ _ _) as [T1|]; [|done]. simpl.
  destruct (update_edges _ _) as [T2|]; [|done]. simpl.
  destruct (update_corners _ _) as [T3|]; [|done]. simpl.
  destruct (residual _ _ _) as [r|]; [|done]. simpl. by intros [= <-].
Qed.

(** The flags when an iteration is complete, whatever the blocks: the
    reduced flag is the maximum of the flags, every process holds it, and
    the flag of a process is set by its own test or left as it was. *)
Lemma iteration_flags ps eps time w w' :
  iteration ps eps time w = Some w' →
  ∃ g, MPI_MAX (breakCondition <$> w') = Some g ∧
    Forall (λ s', globalBreakCondition s' = g) w' ∧
    ∀ p s', w' !! p = Some s' →
      ∃ s, w !! p = Some s ∧
        breakCondition s' = (if convergence_test eps s' then 1 else breakCondition s).
Proof.
  unfold iteration, update_and_reduce.
  destruct (each copy_and_pack ps w) as [w1|] eqn:H1; [|done]. simpl.
  destruct (each (halo_exchange w1) ps w1) as [w2|] eqn:H2; [|done]. simpl.
  destruct (each (λ e, update_and_residual e time) ps w2) as [w3|] eqn:H3; [|done]. simpl.
  intros Hrun.
  assert (∃ w4, (w4 = w3 ∨ ∃ gn, w4 = set_globalNorm gn <$> w3) ∧
            (g ← MPI_MAX (breakCondition <$> (check_convergence eps <$> w4));
             Some (set_globalBreakCondition g <$> (check_convergence eps <$> w4)))
            = Some w') as (w4 & Hw4 & Hrun4).
  { destruct (decide (time = 0)) as [_|_].
    - destruct (MPI_MIN (norm <$> w3)) as [gn|]; [|done]. simpl in Hrun.
      exists (set_globalNorm gn <$> w3). split; [right; by exists gn|done].
    - simpl in Hrun. exists w3. split; [by left|done]. }
  clear Hrun.
  destruct (MPI_MAX (breakCondition <$> (check_convergence eps <$> w4))) as [g|] eqn:Hg;
    [|done].
  simpl in Hrun4. injection Hrun4 as <-. exists g.
  split; [|split].
  - rewrite <- Hg. f_equal. rewrite <- list_fmap_compose. by apply list_fmap_ext.
  - apply Forall_fmap, Forall_forall. by intros s' _.
  - intros p s' Hs'. rewrite !list_lookup_fmap in Hs'.
    destruct (w4 !! p) as [s4|] eqn:Hs4; [|done]. simpl in Hs'. injection Hs' as <-.
    assert (∃ s3, w3 !! p = Some s3 ∧ res s4 = res s3 ∧ norm s4 = norm s3 ∧
                  breakCondition s4 = breakCondition s3) as (s3 & Hs3 & Hr & Hn & Hb).
    { destruct Hw4 as [->|[gn ->]]; [by exists s4|].
      rewrite list_lookup_fmap in Hs4. destruct (w3 !! p) as [s3|]; [|done].
      simpl in Hs4. injection Hs4 as <-. by exists s3. }
    destruct (each_Some_inv _ _ _ _ _ _ H3 Hs3) as (e3 & s2 & He3 & Hs2 & Hf3).
    destruct (each_Some_inv _ _ _ _ _ _ H2 Hs2) as (e2 & s1 & He2 & Hs1 & Hf2).
    destruct (each_Some_inv _ _ _ _ _ _ H1 Hs1) as (e1 & s & He1 & Hs & Hf1).
    exists s. split; [done|]. simpl. unfold convergence_test. simpl.
    rewrite Hb, (update_and_residual_flag _ _ _ _ Hf3), (halo_exchange_flag _ _ _ _ Hf2),
      (copy_and_pack_flag _ _ _ Hf1). done.
Qed.

(** The flag of a process is the record of its tests: in a loop entered
    with the flags at 0, after [n] iterations the flag of a process is 0
    exactly when the process has satisfied its test in none of them. *)
Lemma flag_records_history ps eps n time w0 w :
  Forall (λ s, breakCondition s = 0) w0 →
  iterations ps eps n time w0 = Some w →
  ∀ p s, w !! p = Some s →
    (breakCondition s = 0 ↔ never_satisfied ps eps time w0 n p).
Proof.
  intros Hzero. revert w. induction n as [|n IH]; intros w Hrun p s Hs.
  - simpl in Hrun. injection Hrun as <-. rewrite Forall_lookup in Hzero.
    split; [|by intros _; apply (Hzero p)]. intros _ t Ht. lia.
  - rewrite iterations_snoc in Hrun.
    destruct (iterations ps eps n time w0) as [wn|] eqn:Hn; [|done]. simpl in Hrun.
    destruct (iteration_flags _ _ _ _ _ Hrun) as (g & _ & _ & Hall).
    destruct (Hall p s Hs) as (sn & Hsn & Hb).
    specialize (IH wn eq_refl p sn Hsn).
    assert (iterations ps eps (S n) time w0 = Some w) as HSn
      by (by rewrite iterations_snoc, Hn).
    split.
    + intros Hflag t Ht.
      destruct (convergence_test eps s) eqn:Htest; [by rewrite Hflag in Hb|].
      destruct (decide (t = n)) as [->|Hne]; [by exists w, s|].
      apply IH; [congruence|lia].
    + intros Hnever. destruct (Hnever n ltac:(lia)) as (w' & s' & Hw' & Hs' & Htest).
      assert (w' = w) as -> by congruence. assert (s' = s) as -> by congruence.
      rewrite Hb, Htest. apply IH. intros t Ht. apply Hnever. lia.
Qed.



Lemma bump333_shape : shape 3 3 3 Example.bump333.
Proof. split; [done|]. repeat constructor. Qed.







(** In a run all processes pass or fail the test together: from the
    initial state every process computes the residual
    [numeric_limits_min] in every iteration, and with it the same
    normalisation factor, so that the test is [1 < eps] on every process. *)
Lemma tests_agree_in_runs ps eps w0 n :
  cartesian_ok ps → Forall block_ok ps → ps ≠ [] →
  mapM initial_state ps = Some w0 →
  ∃ w, iterations ps eps (S n) 0 w0 = Some w ∧
    Forall (λ s, res s = numeric_limits_min ∧ norm s = numeric_limits_min ∧
                 globalNorm s = numeric_limits_min ∧
                 convergence_test eps s = PrimFloat.ltb 1 eps) w.
Proof.
  intros Hcart Hok Hne Hinit.
  destruct (initial_world_spec ps Hok) as (w0' & Hinit' & Hw0 & Hb0 & _).
  assert (w0' = w0) as -> by congruence.
  destruct (iterations_spec ps eps w0 (S n) Hcart Hok Hne Hw0 Hb0) as (w & Hrun & _ & Hs).
  exists w. split; [done|]. eapply Forall_impl; [exact (Hs ltac:(done))|].
  intros s Hset. pose proof (settled_test eps s Hset) as Ht.
  destruct Hset as (Hr & Hn & Hg & _). done.
Qed.


Lemma four_ranks_thin :
  chunck_of Example.cells333 Example.grid221 COORDINATE.X = 2 ∧
  chunck_of Example.cells333 Example.grid221 COORDINATE.Y = 2 ∧
  chunck_of Example.cells333 Example.grid221 COORDINATE.Z = 3.
Proof. by vm_compute. Qed.

(** C7. Four processes on 3 x 3 x 3 cells pass the check of the partition
    and get blocks of 2 x 2 x 3 cells.  In the first iteration the copy,
    the exchange and the face updates succeed; then on rank 3, which has
    neighbours LEFT and BOTTOM, the loop of that edge reads
    [T[2][0][1]], two cells inwards from [i = 0], in a field of two cells
    along x: the edge cell gets no value, and the iteration and the run
    have no defined result. *)
Theorem edge_reads_beyond_thin_block :
  assert_partition Example.cells333 Example.grid221 = Some (Done ()) ∧
  (chunck_of Example.cells333 Example.grid221 COORDINATE.X,
   chunck_of Example.cells333 Example.grid221 COORDINATE.Y,
   chunck_of Example.cells333 Example.grid221 COORDINATE.Z) = (2, 2, 3) ∧
  ∃ ps w0 w1 w2 e s T1,
    ps = (λ c, process_of c Example.cells333 Example.grid221) <$> Example.four_ranks ∧
    main Example.four_ranks Example.cells333 Example.grid221 0 0.5 = Some (Done w0) ∧
    each copy_and_pack ps w0 = Some w1 ∧
    each (halo_exchange w1) ps w1 = Some w2 ∧
    ps !! 3%nat = Some e ∧ w2 !! 3%nat = Some s ∧
    neighbors e DIRECTION.LEFT ≠ MPI_PROC_NULL ∧
    neighbors e DIRECTION.BOTTOM ≠ MPI_PROC_NULL ∧
    update_faces e (T0 s) (receiveBuffer s) (T s) = Some T1 ∧
    get T1 0 0 1 = Some 0%float ∧ get T1 1 0 1 = Some 0.5%float ∧
    get T1 2 0 1 = None ∧
    edge_LEFT_BOTTOM e T1 = None ∧
    update_edges e T1 = None ∧
    update_and_residual e 0 s = None ∧
    iteration ps 0.5 0 w0 = None ∧
    main Example.four_ranks Example.cells333 Example.grid221 1 0.5 = None.
Proof.
  split; [by vm_compute|]. split; [by vm_compute|].
  eexists _, _, _, _, _, _, _.
  split; [reflexivity|].
  split; [vm_compute; reflexivity|].
  split; [vm_compute; reflexivity|].
  split; [vm_compute; reflexivity|].
  split; [reflexivity|]. split; [reflexivity|].
  split; [done|]. split; [done|].
  split; [vm_compute; reflexivity|].
  split; [by vm_compute|]. split; [by vm_compute|]. split; [by vm_compute|].
  split; [by vm_compute|]. split; [by vm_compute|]. split; [by vm_compute|].
  split; by vm_compute.
Qed.

(** ** Edges and corners on blocks of at least three cells *)

(** X13. On a block with at least three cells along every axis the update
    phase of an iteration runs the twelve edge loops on the field left by
    the six face updates and the eight corner assignments on the field left
    by the edge loops, and its field is the result.  Every cell of an edge
    whose two faces have neighbours ends as
    [2 * T[one step in] - T[two steps in]], read along the axis of the
    first face of the pair in the field [X] with which the loop of that
    edge starts; every corner whose three faces have neighbours ends as a
    third of the sum of its three neighbours along the axes. *)
Theorem edges_and_corners_in_iteration e time s :
  block_ok e → wf_state e s →
  ∃ T1 T2 s',
    update_faces e (T0 s) (receiveBuffer s) (T s) = Some T1 ∧
    update_edges e T1 = Some T2 ∧
    update_corners e T2 = Some (T s') ∧
    update_and_residual e time s = Some s' ∧
    (∀ d1 d2, axis d1 ≠ axis d2 → (d1, d2) ∈ edge_order ∨ (d2, d1) ∈ edge_order) ∧
    (∀ n d1 d2, edge_order !! n = Some (d1, d2) →
       neighbors e d1 ≠ MPI_PROC_NULL → neighbors e d2 ≠ MPI_PROC_NULL →
       ∃ X, edges_before e n T1 = Some X ∧
         ∀ x, on_edge e d1 d2 x →
           is_Some (cell (T s') x) ∧
           cell (T s') x
           = (const 2 * cell X (inward d1 1 x) - cell X (inward d1 2 x))%F) ∧
    (∀ d1 d2 d3, (d1, d2, d3) ∈ corner_order →
       neighbors e d1 ≠ MPI_PROC_NULL → neighbors e d2 ≠ MPI_PROC_NULL →
       neighbors e d3 ≠ MPI_PROC_NULL →
       ∀ x, on_corner e d1 d2 d3 x →
         is_Some (cell (T s') x) ∧
         cell (T s') x
         = (const (1 / 3) * (cell T2 (inward d1 1 x) + cell T2 (inward d2 1 x)
                             + cell T2 (inward d3 1 x)))%F ∧
         ∀ d, d ∈ [d1; d2; d3] → cell (T s') (inward d 1 x) = cell T2 (inward d 1 x)).
Proof.
  intros Hok Hwf.
  destruct (update_and_residual_general e time s Hok Hwf)
    as (T1 & T2 & T3 & r & Hr1 & Hr2 & Hr3 & _ & _ & _ & Hrun & _).
  destruct Hwf as (HT & HT0 & _ & Hrb).
  destruct (update_faces_spec e (T0 s) (T s) (receiveBuffer s) Hok HT0 HT Hrb)
    as (T1' & Hr1' & HT1 & _).
  assert (T1' = T1) as -> by congruence.
  destruct (edges_then_corners e T1 Hok HT1)
    as (T2' & T3' & Hr2' & Hr3' & _ & Hedges & Hcorners & _).
  assert (T2' = T2) as -> by congruence.
  assert (T3' = T3) as -> by congruence.
  match type of Hrun with _ = Some ?s' => exists T1, T2, s' end.
  split; [done|]. split; [done|]. split; [exact Hr3|].
  split; [exact Hrun|]. split; [exact edge_order_complete|]. by split.
Qed.

Lemma edges_and_corners_in_iteration_witness :
  block_ok Example.inner ∧ wf_state Example.inner Example.state333 ∧
  ∃ T1 T2 s',
    update_faces Example.inner (T0 Example.state333) (receiveBuffer Example.state333)
      (T Example.state333) = Some T1 ∧
    update_edges Example.inner T1 = Some T2 ∧
    update_corners Example.inner T2 = Some (T s') ∧
    update_and_residual Example.inner 0 Example.state333 = Some s' ∧
    (∀ d1 d2, axis d1 ≠ axis d2 → (d1, d2) ∈ edge_order ∨ (d2, d1) ∈ edge_order) ∧
    (∀ n d1 d2, edge_order !! n = Some (d1, d2) →
       neighbors Example.inner d1 ≠ MPI_PROC_NULL →
       neighbors Example.inner d2 ≠ MPI_PROC_NULL →
       ∃ X, edges_before Example.inner n T1 = Some X ∧
         ∀ x, on_edge Example.inner d1 d2 x →
           is_Some (cell (T s') x) ∧
           cell (T s') x
           = (const 2 * cell X (inward d1 1 x) - cell X (inward d1 2 x))%F) ∧
    (∀ d1 d2 d3, (d1, d2, d3) ∈ corner_order →
       neighbors Example.inner d1 ≠ MPI_PROC_NULL →
       neighbors Example.inner d2 ≠ MPI_PROC_NULL →
       neighbors Example.inner d3 ≠ MPI_PROC_NULL →
       ∀ x, on_corner Example.inner d1 d2 d3 x →
         is_Some (cell (T s') x) ∧
         cell (T s') x
         = (const (1 / 3) * (cell T2 (inward d1 1 x) + cell T2 (inward d2 1 x)
                             + cell T2 (inward d3 1 x)))%F ∧
         ∀ d, d ∈ [d1; d2; d3] → cell (T s') (inward d 1 x) = cell T2 (inward d 1 x)).
Proof.
  split; [exact inner_block_ok|]. split; [exact state333_wf|].
  exact (edges_and_corners_in_iteration Example.inner 0 Example.state333
           inner_block_ok state333_wf).
Defined.
